(** * Batched tridiagonal solvers of OMEGA (base/Tridiagonal.h)

    A shallow embedding of the four solver families of [Tridiagonal.h]
    (ThomasSolver, PCRSolver, ThomasDiffusionSolver, PCRDiffusionSolver)
    and the verification of their algebraic properties.

    Conventions of the embedding:
    - the C++ [Real] is modelled by the real numbers of the Standard
      Library, so every statement is about exact arithmetic;
    - the C++ [int] is modelled by [Z]; all indices that occur stay far away
      from the 32-bit limits for any array that fits in memory;
    - a Kokkos view is a handle on storage: scratch views are total maps
      from index pairs to values, the caller's views carry their extents
      and every access to them is bounds checked by the model;
    - a team of the row-parallel solvers executes its code between two
      [team_barrier] calls as one synchronous round. *)

From Stdlib Require Import Reals ZArith List Bool Lia Lra Psatz.
From Stdlib Require Import FunctionalExtensionality.
Import ListNotations.

Local Open Scope Z_scope.

(** ** Loops *)

(** [for (int k = lo; k < hi; ++k) body] as a state transformer. *)
Fixpoint for_up {S : Type} (n : nat) (k : Z) (body : Z -> S -> S) (s : S) : S :=
  match n with
  | O => s
  | Datatypes.S n' => for_up n' (k + 1) body (body k s)
  end.

Definition for_range {S : Type} (lo hi : Z) (body : Z -> S -> S) (s : S) : S :=
  for_up (Z.to_nat (hi - lo)) lo body s.

(** [for (int k = hi; k >= lo; --k) body]. *)
Fixpoint for_dn {S : Type} (n : nat) (k : Z) (body : Z -> S -> S) (s : S) : S :=
  match n with
  | O => s
  | Datatypes.S n' => for_dn n' (k - 1) body (body k s)
  end.

Definition for_down {S : Type} (hi lo : Z) (body : Z -> S -> S) (s : S) : S :=
  for_dn (Z.to_nat (hi - lo + 1)) hi body s.

(** ** Scratch views *)

Abbreviation Real := R (only parsing).

(** [Kokkos::View<Real *[VecLength], ..., ScratchMemSpace>]: rows by lanes. *)
Definition ScratchArray2DReal := Z -> Z -> Real.

Definition rd (A : ScratchArray2DReal) (K IVec : Z) : Real := A K IVec.

Definition wr (A : ScratchArray2DReal) (K IVec : Z) (v : Real)
  : ScratchArray2DReal :=
  fun K' IVec' => if (K' =? K) && (IVec' =? IVec) then v else A K' IVec'.

Module TriDiagScratch.
(** The four views are created with the same number of rows, [NRow],
    which is what [Scratch.X.extent_int(0)] returns. *)
Record t := mk
  { NRow : Z;
    DL : ScratchArray2DReal;
    D : ScratchArray2DReal;
    DU : ScratchArray2DReal;
    X : ScratchArray2DReal }.

Definition setDL (s : t) (K IVec : Z) (v : Real) : t :=
  mk (NRow s) (wr (DL s) K IVec v) (D s) (DU s) (X s).
Definition setD (s : t) (K IVec : Z) (v : Real) : t :=
  mk (NRow s) (DL s) (wr (D s) K IVec v) (DU s) (X s).
Definition setDU (s : t) (K IVec : Z) (v : Real) : t :=
  mk (NRow s) (DL s) (D s) (wr (DU s) K IVec v) (X s).
Definition setX (s : t) (K IVec : Z) (v : Real) : t :=
  mk (NRow s) (DL s) (D s) (DU s) (wr (X s) K IVec v).
End TriDiagScratch.

Module TriDiagDiffScratch.
Record t := mk
  { NRow : Z;
    G : ScratchArray2DReal;
    H : ScratchArray2DReal;
    X : ScratchArray2DReal;
    Alpha : ScratchArray2DReal }.

Definition setG (s : t) (K IVec : Z) (v : Real) : t :=
  mk (NRow s) (wr (G s) K IVec v) (H s) (X s) (Alpha s).
Definition setH (s : t) (K IVec : Z) (v : Real) : t :=
  mk (NRow s) (G s) (wr (H s) K IVec v) (X s) (Alpha s).
Definition setX (s : t) (K IVec : Z) (v : Real) : t :=
  mk (NRow s) (G s) (H s) (wr (X s) K IVec v) (Alpha s).
Definition setAlpha (s : t) (K IVec : Z) (v : Real) : t :=
  mk (NRow s) (G s) (H s) (X s) (wr (Alpha s) K IVec v).
End TriDiagDiffScratch.

(** ** The caller's arrays *)

(** [Array2DReal], indexed [system, row].  An access outside the extents has
    no defined result in the program; the model reports it as [None]. *)
Record Array2DReal := mkArray2DReal
  { extent0 : Z;
    extent1 : Z;
    elems : Z -> Z -> Real }.

Definition in_bounds (A : Array2DReal) (I K : Z) : bool :=
  (0 <=? I) && (I <? extent0 A) && (0 <=? K) && (K <? extent1 A).

Definition get (A : Array2DReal) (I K : Z) : option Real :=
  if in_bounds A I K then Some (elems A I K) else None.

Definition put (A : Array2DReal) (I K : Z) (v : Real) : option Array2DReal :=
  if in_bounds A I K
  then Some (mkArray2DReal (extent0 A) (extent1 A)
               (fun I' K' => if (I' =? I) && (K' =? K) then v else elems A I' K'))
  else None.

(** The error monad of the array-level entry points. *)
Definition bind {A B : Type} (m : option A) (f : A -> option B) : option B :=
  match m with
  | Some a => f a
  | None => None
  end.

Notation "x <- m ;; k" := (bind m (fun x => k))
  (at level 100, m at next level, right associativity).

(** A counted loop whose body may fail. *)
Definition for_rangeM {S : Type} (lo hi : Z) (body : Z -> S -> option S)
  (s : S) : option S :=
  for_range lo hi (fun k m => bind m (body k)) (Some s).

(** [TeamMember], as far as the solvers use it: the rank of the team in the
    league and the scratch pad [team_scratch(0)] hands out, view after view,
    with whatever the pad held before the call.  The members of a team of the
    row-parallel solvers are its ranks [0 .. team_size - 1]; the model runs
    them together, so [team_rank] is the loop variable [K] of a round. *)
Record TeamMember := mkTeamMember
  { league_rank : Z;
    team_scratch : nat -> ScratchArray2DReal }.

(** [TeamPolicy(LeagueSize, TeamSize, 1)] *)
Record TeamPolicy := mkTeamPolicy
  { league_size : Z;
    team_size : Z }.

(** [a << n] on [int].  A negative shift count has no defined result in C++;
    [ShlUB] stands for whatever the target yields then (x86 and AMD GPUs
    mask the count, which gives [-2^31] for [1 << -1]; NVIDIA PTX clamps it,
    which gives [0]). *)
Definition shl (ShlUB : Z) (a n : Z) : Z :=
  if n <? 0 then ShlUB else Z.shiftl a n.

(** [Kokkos::ceil(Kokkos::log2(NRow))] converted to [int], for [NRow >= 1]. *)
Definition ceil_log2 (NRow : Z) : Z := Z.log2_up NRow.

(** The caller's arrays of one call. *)
Module TridiagonalBatch.
Record t := mk
  { DL : Array2DReal;
    D : Array2DReal;
    DU : Array2DReal;
    X : Array2DReal }.
End TridiagonalBatch.

Module DiffusionBatch.
Record t := mk
  { G : Array2DReal;
    H : Array2DReal;
    X : Array2DReal }.
End DiffusionBatch.

(** ** ThomasSolver *)

Module ThomasSolver.
Import TriDiagScratch.

Definition makeTeamPolicy (VecLength NBatch NRow : Z) : TeamPolicy :=
  mkTeamPolicy ((NBatch + VecLength - 1) ÷ VecLength) 1.

(** Body of the forward sweep, lines 51-53. *)
Definition forward (K IVec : Z) (s : t) : t :=
  let W := (rd (DL s) K IVec / rd (D s) (K - 1) IVec)%R in
  let s := setD s K IVec (rd (D s) K IVec - W * rd (DU s) (K - 1) IVec)%R in
  setX s K IVec (rd (X s) K IVec - W * rd (X s) (K - 1) IVec)%R.

(** Line 58. *)
Definition last_row (NRow IVec : Z) (s : t) : t :=
  setX s (NRow - 1) IVec
    (rd (X s) (NRow - 1) IVec / rd (D s) (NRow - 1) IVec)%R.

(** Body of the backward sweep, lines 63-66. *)
Definition backward (K IVec : Z) (s : t) : t :=
  setX s K IVec
    ((rd (X s) K IVec - rd (DU s) K IVec * rd (X s) (K + 1) IVec)
     / rd (D s) K IVec)%R.

(** [solve(Member, Scratch)] *)
Definition solve (VecLength : Z) (Scratch : t) : t :=
  let NRow := NRow Scratch in
  let s :=
    for_range 1 NRow (fun K => for_range 0 VecLength (forward K)) Scratch in
  let s := for_range 0 VecLength (last_row NRow) s in
  for_down (NRow - 2) 0 (fun K => for_range 0 VecLength (backward K)) s.

(** Body of the staging loop, lines 85-96. *)
Definition stage (B : TridiagonalBatch.t) (NBatch IStart K IVec : Z) (s : t)
  : option t :=
  let I := IStart + IVec in
  if I <? NBatch then
    dl <- get (TridiagonalBatch.DL B) I K ;;
    d <- get (TridiagonalBatch.D B) I K ;;
    du <- get (TridiagonalBatch.DU B) I K ;;
    x <- get (TridiagonalBatch.X B) I K ;;
    Some (setX (setDU (setD (setDL s K IVec dl) K IVec d) K IVec du) K IVec x)
  else
    Some (setX (setDU (setD (setDL s K IVec 0%R) K IVec 1%R) K IVec 0%R)
            K IVec 0%R).

(** Body of the write-back loop, lines 104-107. *)
Definition unstage (Scratch : t) (NBatch IStart IVec K : Z) (XA : Array2DReal)
  : option Array2DReal :=
  let I := IStart + IVec in
  if I <? NBatch then put XA I K (rd (X Scratch) K IVec) else Some XA.

(** [solve(Member, DL, D, DU, X)] *)
Definition solve_arrays (VecLength : Z) (Member : TeamMember)
  (B : TridiagonalBatch.t) : option TridiagonalBatch.t :=
  let NBatch := extent0 (TridiagonalBatch.X B) in
  let NRow := extent1 (TridiagonalBatch.X B) in
  let IStart := league_rank Member * VecLength in
  let Scratch :=
    mk NRow (team_scratch Member 0) (team_scratch Member 1)
      (team_scratch Member 2) (team_scratch Member 3) in
  Scratch <- for_rangeM 0 NRow
               (fun K => for_rangeM 0 VecLength (stage B NBatch IStart K))
               Scratch ;;
  let Scratch := solve VecLength Scratch in
  XA <- for_rangeM 0 VecLength
          (fun IVec => for_rangeM 0 NRow (unstage Scratch NBatch IStart IVec))
          (TridiagonalBatch.X B) ;;
  Some (TridiagonalBatch.mk (TridiagonalBatch.DL B) (TridiagonalBatch.D B)
          (TridiagonalBatch.DU B) XA).
End ThomasSolver.

(** ** PCRSolver *)

Module PCRSolver.
Import TriDiagScratch.

Definition makeTeamPolicy (NBatch NRow : Z) : TeamPolicy :=
  mkTeamPolicy NBatch NRow.

(** The locals a member holds when it reaches the first barrier. *)
Record Regs := mkRegs
  { NewD : Real;
    NewX : Real;
    NewDL : Real;
    NewDU : Real }.

(** Lines 132-148, run by member [K] on the scratch [s]. *)
Definition reduce (ShlUB NRow Lev K : Z) (s : t) : Regs :=
  let HalfStride := shl ShlUB 1 (Lev - 1) in
  let Kmh := K - HalfStride in
  let Kmh := if Kmh <? 0 then 0 else Kmh in
  let Kph := K + HalfStride in
  let Kph := if Kph >=? NRow then NRow - 1 else Kph in
  let alpha := (- rd (DL s) K 0 / rd (D s) Kmh 0)%R in
  let gamma := (- rd (DU s) K 0 / rd (D s) Kph 0)%R in
  mkRegs
    (rd (D s) K 0 + alpha * rd (DU s) Kmh 0 + gamma * rd (DL s) Kph 0)%R
    (rd (X s) K 0 + alpha * rd (X s) Kmh 0 + gamma * rd (X s) Kph 0)%R
    (alpha * rd (DL s) Kmh 0)%R
    (gamma * rd (DU s) Kph 0)%R.

(** Lines 152-155, run by member [K]. *)
Definition commit (regs : Z -> Regs) (K : Z) (s : t) : t :=
  let s := setD s K 0 (NewD (regs K)) in
  let s := setX s K 0 (NewX (regs K)) in
  let s := setDL s K 0 (NewDL (regs K)) in
  setDU s K 0 (NewDU (regs K)).

(** One reduction level: every member computes its locals from the scratch
    as it is before the first barrier, then every member writes its row. *)
Definition level (ShlUB NRow Lev : Z) (s : t) : t :=
  for_range 0 NRow (commit (fun K => reduce ShlUB NRow Lev K s)) s.

(** Lines 162-176, run by member [K]. *)
Definition final (NRow Stride K : Z) (s : t) : t :=
  if (K + Stride <? NRow) || (K - Stride >=? 0) then
    if K <? NRow ÷ 2 then
      let Det := (rd (D s) K 0 * rd (D s) (K + Stride) 0
                  - rd (DL s) (K + Stride) 0 * rd (DU s) K 0)%R in
      let Xk := rd (X s) K 0 in
      let Xkps := rd (X s) (K + Stride) 0 in
      let s := setX s K 0
                 ((rd (D s) (K + Stride) 0 * Xk - rd (DU s) K 0 * Xkps)
                  / Det)%R in
      setX s (K + Stride) 0
        ((- rd (DL s) (K + Stride) 0 * Xk + rd (D s) K 0 * Xkps) / Det)%R
    else s
  else
    setX s K 0 (rd (X s) K 0 / rd (D s) K 0)%R.

(** [solve(Member, Scratch)], for the whole team, of one member per row as
    [makeTeamPolicy] sets it up.  The members of the termination step touch
    disjoint rows, so that their order does not matter. *)
Definition solve (ShlUB : Z) (Scratch : t) : t :=
  let NRow := NRow Scratch in
  let NLevels := ceil_log2 NRow in
  let s := for_range 1 NLevels (level ShlUB NRow) Scratch in
  let Stride := shl ShlUB 1 (NLevels - 1) in
  for_range 0 NRow (final NRow Stride) s.

(** Lines 192-202, run by member [K]. *)
Definition stage (B : TridiagonalBatch.t) (NBatch I K : Z) (s : t)
  : option t :=
  if I <? NBatch then
    dl <- get (TridiagonalBatch.DL B) I K ;;
    d <- get (TridiagonalBatch.D B) I K ;;
    du <- get (TridiagonalBatch.DU B) I K ;;
    x <- get (TridiagonalBatch.X B) I K ;;
    Some (setX (setDU (setD (setDL s K 0 dl) K 0 d) K 0 du) K 0 x)
  else
    Some (setX (setDU (setD (setDL s K 0 0%R) K 0 1%R) K 0 0%R) K 0 0%R).

(** Lines 210-212, run by member [K]. *)
Definition unstage (Scratch : t) (NBatch I K : Z) (XA : Array2DReal)
  : option Array2DReal :=
  if I <? NBatch then put XA I K (rd (X Scratch) K 0) else Some XA.

(** [solve(Member, DL, D, DU, X)], for the whole team. *)
Definition solve_arrays (ShlUB : Z) (Member : TeamMember)
  (B : TridiagonalBatch.t) : option TridiagonalBatch.t :=
  let NBatch := extent0 (TridiagonalBatch.X B) in
  let NRow := extent1 (TridiagonalBatch.X B) in
  let I := league_rank Member in
  let Scratch :=
    mk NRow (team_scratch Member 0) (team_scratch Member 1)
      (team_scratch Member 2) (team_scratch Member 3) in
  Scratch <- for_rangeM 0 NRow (stage B NBatch I) Scratch ;;
  let Scratch := solve ShlUB Scratch in
  XA <- for_rangeM 0 NRow (unstage Scratch NBatch I) (TridiagonalBatch.X B) ;;
  Some (TridiagonalBatch.mk (TridiagonalBatch.DL B) (TridiagonalBatch.D B)
          (TridiagonalBatch.DU B) XA).
End PCRSolver.

(** ** ThomasDiffusionSolver *)

Module ThomasDiffusionSolver.
Import TriDiagDiffScratch.

Definition makeTeamPolicy (VecLength NBatch NRow : Z) : TeamPolicy :=
  mkTeamPolicy ((NBatch + VecLength - 1) ÷ VecLength) 1.

(** Line 241. *)
Definition alpha0 (IVec : Z) (s : t) : t := setAlpha s 0 IVec 0%R.

(** Lines 246-250. *)
Definition alpha_step (K IVec : Z) (s : t) : t :=
  setAlpha s K IVec
    (rd (G s) (K - 1) IVec
     * (rd (H s) (K - 1) IVec + rd (Alpha s) (K - 1) IVec)
     / (rd (H s) (K - 1) IVec + rd (Alpha s) (K - 1) IVec
        + rd (G s) (K - 1) IVec))%R.

(** Line 255. *)
Definition first_row (IVec : Z) (s : t) : t :=
  setH s 0 IVec (rd (H s) 0 IVec + rd (G s) 0 IVec)%R.

(** Lines 260-265. *)
Definition forward (K IVec : Z) (s : t) : t :=
  let AddH := (rd (Alpha s) K IVec + rd (G s) K IVec)%R in
  let s := setH s K IVec (rd (H s) K IVec + AddH)%R in
  setX s K IVec
    (rd (X s) K IVec
     + rd (G s) (K - 1) IVec / rd (H s) (K - 1) IVec
       * rd (X s) (K - 1) IVec)%R.

(** Line 270. *)
Definition last_row (NRow IVec : Z) (s : t) : t :=
  setX s (NRow - 1) IVec
    (rd (X s) (NRow - 1) IVec / rd (H s) (NRow - 1) IVec)%R.

(** Lines 275-277. *)
Definition backward (K IVec : Z) (s : t) : t :=
  setX s K IVec
    ((rd (X s) K IVec + rd (G s) K IVec * rd (X s) (K + 1) IVec)
     / rd (H s) K IVec)%R.

(** [solve(Member, Scratch)] *)
Definition solve (VecLength : Z) (Scratch : t) : t :=
  let NRow := NRow Scratch in
  let s := for_range 0 VecLength alpha0 Scratch in
  let s :=
    for_range 1 NRow (fun K => for_range 0 VecLength (alpha_step K)) s in
  let s := for_range 0 VecLength first_row s in
  let s := for_range 1 NRow (fun K => for_range 0 VecLength (forward K)) s in
  let s := for_range 0 VecLength (last_row NRow) s in
  for_down (NRow - 2) 0 (fun K => for_range 0 VecLength (backward K)) s.

(** Lines 295-304. *)
Definition stage (B : DiffusionBatch.t) (NBatch IStart K IVec : Z) (s : t)
  : option t :=
  let I := IStart + IVec in
  if I <? NBatch then
    g <- get (DiffusionBatch.G B) I K ;;
    h <- get (DiffusionBatch.H B) I K ;;
    x <- get (DiffusionBatch.X B) I K ;;
    Some (setX (setH (setG s K IVec g) K IVec h) K IVec x)
  else
    Some (setX (setH (setG s K IVec 0%R) K IVec 1%R) K IVec 0%R).

(** Lines 312-315. *)
Definition unstage (Scratch : t) (NBatch IStart IVec K : Z) (XA : Array2DReal)
  : option Array2DReal :=
  let I := IStart + IVec in
  if I <? NBatch then put XA I K (rd (X Scratch) K IVec) else Some XA.

(** [solve(Member, G, H, X)] *)
Definition solve_arrays (VecLength : Z) (Member : TeamMember)
  (B : DiffusionBatch.t) : option DiffusionBatch.t :=
  let NBatch := extent0 (DiffusionBatch.X B) in
  let NRow := extent1 (DiffusionBatch.X B) in
  let IStart := league_rank Member * VecLength in
  let Scratch :=
    mk NRow (team_scratch Member 0) (team_scratch Member 1)
      (team_scratch Member 2) (team_scratch Member 3) in
  Scratch <- for_rangeM 0 NRow
               (fun K => for_rangeM 0 VecLength (stage B NBatch IStart K))
               Scratch ;;
  let Scratch := solve VecLength Scratch in
  XA <- for_rangeM 0 VecLength
          (fun IVec => for_rangeM 0 NRow (unstage Scratch NBatch IStart IVec))
          (DiffusionBatch.X B) ;;
  Some (DiffusionBatch.mk (DiffusionBatch.G B) (DiffusionBatch.H B) XA).
End ThomasDiffusionSolver.

(** ** PCRDiffusionSolver *)

Module PCRDiffusionSolver.
Import TriDiagDiffScratch.

Definition makeTeamPolicy (NBatch NRow : Z) : TeamPolicy :=
  mkTeamPolicy NBatch NRow.

Record Regs := mkRegs
  { NewG : Real;
    NewX : Real;
    NewH : Real }.

(** Lines 340-362, run by member [K] on the scratch [s]. *)
Definition reduce (ShlUB NRow Lev K : Z) (s : t) : Regs :=
  let Stride := shl ShlUB 1 Lev in
  let HalfStride := shl ShlUB 1 (Lev - 1) in
  let Kmh := K - HalfStride in
  let Gkmh := if Kmh <? 0 then 0%R else rd (G s) Kmh 0 in
  let Kmh := if Kmh <? 0 then 0 else Kmh in
  let Kms := K - Stride in
  let Gkms := if Kms <? 0 then 0%R else rd (G s) Kms 0 in
  let Kph := K + HalfStride in
  let Kph := if Kph >=? NRow then NRow - 1 else Kph in
  let Alpha := (Gkmh / (rd (H s) Kmh 0 + Gkms + Gkmh))%R in
  let Beta :=
    (rd (G s) K 0 / (rd (H s) Kph 0 + rd (G s) K 0 + rd (G s) Kph 0))%R in
  mkRegs
    (rd (G s) Kph 0 * Beta)%R
    (rd (X s) K 0 + Alpha * rd (X s) Kmh 0 + Beta * rd (X s) Kph 0)%R
    (rd (H s) K 0 + Alpha * rd (H s) Kmh 0 + Beta * rd (H s) Kph 0)%R.

(** Lines 366-368, run by member [K]. *)
Definition commit (regs : Z -> Regs) (K : Z) (s : t) : t :=
  let s := setH s K 0 (NewH (regs K)) in
  let s := setG s K 0 (NewG (regs K)) in
  setX s K 0 (NewX (regs K)).

Definition level (ShlUB NRow Lev : Z) (s : t) : t :=
  for_range 0 NRow (commit (fun K => reduce ShlUB NRow Lev K s)) s.

(** Lines 375-399, run by member [K]. *)
Definition final (NRow Stride K : Z) (s : t) : t :=
  if (K + Stride <? NRow) || (K - Stride >=? 0) then
    if K <? NRow ÷ 2 then
      let Kms := K - Stride in
      let Gkms := if Kms <? 0 then 0%R else rd (G s) Kms 0 in
      let Dk := (rd (H s) K 0 + Gkms + rd (G s) K 0)%R in
      let Dkps := (rd (H s) (K + Stride) 0 + rd (G s) K 0
                   + rd (G s) (K + Stride) 0)%R in
      let DUk := (- rd (G s) K 0)%R in
      let DLkps := (- rd (G s) K 0)%R in
      let Det := (Dk * Dkps - DLkps * DUk)%R in
      let Xk := rd (X s) K 0 in
      let Xkps := rd (X s) (K + Stride) 0 in
      let s := setX s K 0 ((Dkps * Xk - DUk * Xkps) / Det)%R in
      setX s (K + Stride) 0 ((- DLkps * Xk + Dk * Xkps) / Det)%R
    else s
  else
    let Kms := K - Stride in
    let Gkms := if Kms <? 0 then 0%R else rd (G s) Kms 0 in
    setX s K 0 (rd (X s) K 0 / (rd (H s) K 0 + Gkms + rd (G s) K 0))%R.

(** [solve(Member, Scratch)], for the whole team. *)
Definition solve (ShlUB : Z) (Scratch : t) : t :=
  let NRow := NRow Scratch in
  let NLevels := ceil_log2 NRow in
  let s := for_range 1 NLevels (level ShlUB NRow) Scratch in
  let Stride := shl ShlUB 1 (NLevels - 1) in
  for_range 0 NRow (final NRow Stride) s.

(** Lines 413-415, run by member [K]: no test of [I] against [NBatch]. *)
Definition stage (B : DiffusionBatch.t) (I K : Z) (s : t) : option t :=
  g <- get (DiffusionBatch.G B) I K ;;
  h <- get (DiffusionBatch.H B) I K ;;
  x <- get (DiffusionBatch.X B) I K ;;
  Some (setX (setH (setG s K 0 g) K 0 h) K 0 x).

(** Line 423, run by member [K]. *)
Definition unstage (Scratch : t) (I K : Z) (XA : Array2DReal)
  : option Array2DReal :=
  put XA I K (rd (X Scratch) K 0).

(** [solve(Member, G, H, X)], for the whole team. *)
Definition solve_arrays (ShlUB : Z) (Member : TeamMember)
  (B : DiffusionBatch.t) : option DiffusionBatch.t :=
  let NRow := extent1 (DiffusionBatch.X B) in
  let I := league_rank Member in
  let Scratch :=
    mk NRow (team_scratch Member 0) (team_scratch Member 1)
      (team_scratch Member 2) (team_scratch Member 3) in
  Scratch <- for_rangeM 0 NRow (stage B I) Scratch ;;
  let Scratch := solve ShlUB Scratch in
  XA <- for_rangeM 0 NRow (unstage Scratch I) (DiffusionBatch.X B) ;;
  Some (DiffusionBatch.mk (DiffusionBatch.G B) (DiffusionBatch.H B) XA).
End PCRDiffusionSolver.

(** ** Single systems

    The mathematical objects the solvers are compared with: one system of
    [M] rows, its matrix-vector product and the row recurrences of the
    sequential elimination. *)

Module System.
Record t := mk
  { sub : Z -> Real;
    diag : Z -> Real;
    sup : Z -> Real;
    rhs : Z -> Real }.
End System.

(** The system held by lane [IVec] of a scratch. *)
Definition lane (s : TriDiagScratch.t) (IVec : Z) : System.t :=
  System.mk (fun K => rd (TriDiagScratch.DL s) K IVec)
    (fun K => rd (TriDiagScratch.D s) K IVec)
    (fun K => rd (TriDiagScratch.DU s) K IVec)
    (fun K => rd (TriDiagScratch.X s) K IVec).

(** Row [k] of [A * y] for the tridiagonal matrix [A] of a system of [M]
    rows: the sub-diagonal has no entry in row [0], the super-diagonal none
    in row [M - 1]. *)
Definition mulA (M : Z) (sys : System.t) (y : Z -> Real) (k : Z) : Real :=
  ((if (0 <? k)%Z then System.sub sys k * y (k - 1)%Z else 0)
   + System.diag sys k * y k
   + (if (k <? M - 1)%Z then System.sup sys k * y (k + 1)%Z else 0))%R.

(** Strict diagonal dominance by rows of the matrix [A]. *)
Definition diag_dominant (M : Z) (sys : System.t) : Prop :=
  forall k, 0 <= k < M ->
    (Rabs (if (0 <? k)%Z then System.sub sys k else 0)
     + Rabs (if (k <? M - 1)%Z then System.sup sys k else 0)
     < Rabs (System.diag sys k))%R.

(** The entries of the stored diagonals that lie outside the matrix. *)
Definition zero_corners (M : Z) (sys : System.t) : Prop :=
  System.sub sys 0 = 0%R /\ System.sup sys (M - 1) = 0%R.

(** Pivots and right-hand sides after the forward sweep, and the values of
    the backward sweep counted from the last row. *)
Fixpoint thomas_pivot (sys : System.t) (k : nat) : Real :=
  match k with
  | O => System.diag sys 0
  | Datatypes.S k' =>
      (System.diag sys (Z.of_nat k)
       - System.sub sys (Z.of_nat k) / thomas_pivot sys k'
         * System.sup sys (Z.of_nat k'))%R
  end.

Fixpoint thomas_rhs (sys : System.t) (k : nat) : Real :=
  match k with
  | O => System.rhs sys 0
  | Datatypes.S k' =>
      (System.rhs sys (Z.of_nat k)
       - System.sub sys (Z.of_nat k) / thomas_pivot sys k'
         * thomas_rhs sys k')%R
  end.

Fixpoint thomas_back (sys : System.t) (M : Z) (n : nat) : Real :=
  match n with
  | O => (thomas_rhs sys (Z.to_nat (M - 1))
          / thomas_pivot sys (Z.to_nat (M - 1)))%R
  | Datatypes.S n' =>
      let k := M - 1 - Z.of_nat n in
      ((thomas_rhs sys (Z.to_nat k) - System.sup sys k * thomas_back sys M n')
       / thomas_pivot sys (Z.to_nat k))%R
  end.

Definition thomas_x (sys : System.t) (M : Z) (k : Z) : Real :=
  thomas_back sys M (Z.to_nat (M - 1 - k)).

(** What [ThomasSolver.solve] does to one lane. *)
Definition thomas_lane (IVec : Z) (Scratch : TriDiagScratch.t)
  : TriDiagScratch.t :=
  let NRow := TriDiagScratch.NRow Scratch in
  let s := for_range 1 NRow (fun K => ThomasSolver.forward K IVec) Scratch in
  let s := ThomasSolver.last_row NRow IVec s in
  for_down (NRow - 2) 0 (fun K => ThomasSolver.backward K IVec) s.

(** Restriction of a scratch to one lane. *)
Definition only (j : Z) (A : ScratchArray2DReal) : ScratchArray2DReal :=
  fun K IVec => if IVec =? j then A K IVec else 0%R.

Definition only_lane (j : Z) (s : TriDiagScratch.t) : TriDiagScratch.t :=
  TriDiagScratch.mk (TriDiagScratch.NRow s) (only j (TriDiagScratch.DL s))
    (only j (TriDiagScratch.D s)) (only j (TriDiagScratch.DU s))
    (only j (TriDiagScratch.X s)).

(** [y] solves the system: [A * y = rhs]. *)
Definition solves (M : Z) (sys : System.t) (y : Z -> Real) : Prop :=
  forall k, 0 <= k < M -> mulA M sys y k = System.rhs sys k.

(** [y] solves the upper bidiagonal system the forward sweep leaves. *)
Definition solves_upper (M : Z) (sys : System.t) (y : Z -> Real) : Prop :=
  forall k, 0 <= k < M ->
    (thomas_pivot sys (Z.to_nat k) * y k
     + (if (k <? M - 1)%Z then System.sup sys k * y (k + 1)%Z else 0)
     = thomas_rhs sys (Z.to_nat k))%R.

Definition pivots_nonzero (M : Z) (sys : System.t) : Prop :=
  forall k, 0 <= k < M -> thomas_pivot sys (Z.to_nat k) <> 0%R.

(** ** Cyclic reduction on a single system

    The algorithm of the row-parallel solver written row by row, as the
    specification words it: [L - 1] reduction levels with clamped
    neighbours, then the direct solution of the pairs at the last stride. *)

Definition pcr_level (M h : Z) (sys : System.t) : System.t :=
  let kmh k := if k - h <? 0 then 0 else k - h in
  let kph k := if k + h >=? M then M - 1 else k + h in
  let alpha k := (- System.sub sys k / System.diag sys (kmh k))%R in
  let gamma k := (- System.sup sys k / System.diag sys (kph k))%R in
  let row k := (0 <=? k) && (k <? M) in
  System.mk
    (fun k => if row k then (alpha k * System.sub sys (kmh k))%R
              else System.sub sys k)
    (fun k => if row k
              then (System.diag sys k + alpha k * System.sup sys (kmh k)
                    + gamma k * System.sub sys (kph k))%R
              else System.diag sys k)
    (fun k => if row k then (gamma k * System.sup sys (kph k))%R
              else System.sup sys k)
    (fun k => if row k
              then (System.rhs sys k + alpha k * System.rhs sys (kmh k)
                    + gamma k * System.rhs sys (kph k))%R
              else System.rhs sys k).

(** Levels [1 .. L - 1], the neighbours of level [lev] at distance
    [2 ^ (lev - 1)]. *)
Definition pcr_levels (M L : Z) (sys : System.t) : System.t :=
  for_range 1 L (fun lev => pcr_level M (2 ^ (lev - 1))) sys.

(** The 2x2 system of the rows [k] and [k + S]. *)
Definition pcr_det (sys : System.t) (k S : Z) : Real :=
  (System.diag sys k * System.diag sys (k + S)
   - System.sub sys (k + S) * System.sup sys k)%R.

Definition pcr_pair_lo (sys : System.t) (k S : Z) : Real :=
  ((System.diag sys (k + S) * System.rhs sys k
    - System.sup sys k * System.rhs sys (k + S)) / pcr_det sys k S)%R.

Definition pcr_pair_hi (sys : System.t) (k S : Z) : Real :=
  ((- System.sub sys (k + S) * System.rhs sys k
    + System.diag sys k * System.rhs sys (k + S)) / pcr_det sys k S)%R.

(** Row [k] after the termination step at stride [S]: the lower or the upper
    row of a pair, or a row without a partner (another row of the system at
    distance [S]). *)
Definition pcr_final (M S : Z) (sys : System.t) (k : Z) : Real :=
  if (0 <? S) && (k + S <? M) then pcr_pair_lo sys k S
  else if (0 <? S) && (0 <=? k - S) then pcr_pair_hi sys (k - S) S
  else (System.rhs sys k / System.diag sys k)%R.

Definition pcr_x (M : Z) (sys : System.t) (k : Z) : Real :=
  let L := Z.log2_up M in
  pcr_final M (2 ^ (L - 1)) (pcr_levels M L sys) k.

(** What the levels keep: at stride [S], row [k] couples the unknowns
    [k - S], [k] and [k + S], and has no coefficient for a row outside the
    system. *)
Definition pcr_inv (M S : Z) (sys : System.t) (y : Z -> Real) : Prop :=
  forall k, 0 <= k < M ->
    (k < S -> System.sub sys k = 0%R)
    /\ (M <= k + S -> System.sup sys k = 0%R)
    /\ (System.sub sys k * y (k - S)%Z + System.diag sys k * y k
        + System.sup sys k * y (k + S)%Z = System.rhs sys k)%R.

(** Strict dominance of the stored rows. *)
Definition rows_dominant (M : Z) (sys : System.t) : Prop :=
  forall k, 0 <= k < M ->
    (Rabs (System.sub sys k) + Rabs (System.sup sys k)
     < Rabs (System.diag sys k))%R.

(** ** Single diffusion systems *)

Module DiffSystem.
Record t := mk
  { g : Z -> Real;
    h : Z -> Real;
    rhs : Z -> Real }.
End DiffSystem.

Definition dlane (s : TriDiagDiffScratch.t) (IVec : Z) : DiffSystem.t :=
  DiffSystem.mk (fun K => rd (TriDiagDiffScratch.G s) K IVec)
    (fun K => rd (TriDiagDiffScratch.H s) K IVec)
    (fun K => rd (TriDiagDiffScratch.X s) K IVec).

(** The explicit form of a diffusion system, after the specification: the
    off-diagonals are the negated couplings, the diagonal of row [k] is
    [H(k)] plus the couplings [G(k - S)] and [G(k)], with 0 for a coupling
    whose index is outside the system.  The couplings of a batch link
    adjacent rows, [S = 1]; cyclic reduction works at larger strides. *)
Definition explicit_at (S : Z) (d : DiffSystem.t) : System.t :=
  System.mk
    (fun k => if k - S <? 0 then 0%R else (- DiffSystem.g d (k - S))%R)
    (fun k => (DiffSystem.h d k
               + (if (k - S <? 0)%Z then 0 else DiffSystem.g d (k - S))
               + DiffSystem.g d k)%R)
    (fun k => (- DiffSystem.g d k)%R)
    (DiffSystem.rhs d).

Definition explicit_form (d : DiffSystem.t) : System.t := explicit_at 1 d.

(** The same translation on a whole scratch. *)
Definition explicit_scratch (s : TriDiagDiffScratch.t) : TriDiagScratch.t :=
  TriDiagScratch.mk (TriDiagDiffScratch.NRow s)
    (fun K IVec =>
       if K - 1 <? 0 then 0%R
       else (- rd (TriDiagDiffScratch.G s) (K - 1) IVec)%R)
    (fun K IVec =>
       (rd (TriDiagDiffScratch.H s) K IVec
        + (if (K - 1 <? 0)%Z then 0
           else rd (TriDiagDiffScratch.G s) (K - 1) IVec)
        + rd (TriDiagDiffScratch.G s) K IVec)%R)
    (fun K IVec => (- rd (TriDiagDiffScratch.G s) K IVec)%R)
    (TriDiagDiffScratch.X s).

(** The row recurrences of the sequential diffusion solver. *)
Fixpoint diff_alpha (d : DiffSystem.t) (k : nat) : Real :=
  match k with
  | O => 0%R
  | Datatypes.S k' =>
      (DiffSystem.g d (Z.of_nat k')
       * (DiffSystem.h d (Z.of_nat k') + diff_alpha d k')
       / (DiffSystem.h d (Z.of_nat k') + diff_alpha d k'
          + DiffSystem.g d (Z.of_nat k')))%R
  end.

Definition diff_h (d : DiffSystem.t) (k : Z) : Real :=
  (DiffSystem.h d k + (diff_alpha d (Z.to_nat k) + DiffSystem.g d k))%R.

Fixpoint diff_rhs (d : DiffSystem.t) (k : nat) : Real :=
  match k with
  | O => DiffSystem.rhs d 0
  | Datatypes.S k' =>
      (DiffSystem.rhs d (Z.of_nat k)
       + DiffSystem.g d (Z.of_nat k') / diff_h d (Z.of_nat k')
         * diff_rhs d k')%R
  end.

Fixpoint diff_back (d : DiffSystem.t) (M : Z) (n : nat) : Real :=
  match n with
  | O => (diff_rhs d (Z.to_nat (M - 1)) / diff_h d (M - 1))%R
  | Datatypes.S n' =>
      let k := M - 1 - Z.of_nat n in
      ((diff_rhs d (Z.to_nat k) + DiffSystem.g d k * diff_back d M n')
       / diff_h d k)%R
  end.

Definition diff_x (d : DiffSystem.t) (M : Z) (k : Z) : Real :=
  diff_back d M (Z.to_nat (M - 1 - k)).

Definition only_dlane (j : Z) (s : TriDiagDiffScratch.t)
  : TriDiagDiffScratch.t :=
  TriDiagDiffScratch.mk (TriDiagDiffScratch.NRow s)
    (only j (TriDiagDiffScratch.G s)) (only j (TriDiagDiffScratch.H s))
    (only j (TriDiagDiffScratch.X s)) (only j (TriDiagDiffScratch.Alpha s)).

(** What [ThomasDiffusionSolver.solve] does to one lane. *)
Definition thomas_diff_lane (IVec : Z) (Scratch : TriDiagDiffScratch.t)
  : TriDiagDiffScratch.t :=
  let NRow := TriDiagDiffScratch.NRow Scratch in
  let s := ThomasDiffusionSolver.alpha0 IVec Scratch in
  let s :=
    for_range 1 NRow (fun K => ThomasDiffusionSolver.alpha_step K IVec) s in
  let s := ThomasDiffusionSolver.first_row IVec s in
  let s := for_range 1 NRow (fun K => ThomasDiffusionSolver.forward K IVec) s in
  let s := ThomasDiffusionSolver.last_row NRow IVec s in
  for_down (NRow - 2) 0 (fun K => ThomasDiffusionSolver.backward K IVec) s.

(** ** Concrete systems *)

(** A scratch view whose lanes all hold the rows listed. *)
Definition rows (l : list Real) : ScratchArray2DReal :=
  fun K _ => nth (Z.to_nat K) l 0%R.

Definition scratch_of (dl d du x : list Real) : TriDiagScratch.t :=
  TriDiagScratch.mk (Z.of_nat (length x)) (rows dl) (rows d) (rows du) (rows x).

Definition diff_scratch_of (g h x : list Real) : TriDiagDiffScratch.t :=
  TriDiagDiffScratch.mk (Z.of_nat (length x)) (rows g) (rows h) (rows x)
    (rows []).

(** The scenario of the specification: four rows, solution [1, 1, 1, 1]. *)
Definition scenario4 : TriDiagScratch.t :=
  scratch_of [0; 1; 1; 1]%R [4; 4; 4; 4]%R [1; 1; 1; 0]%R [5; 6; 6; 5]%R.

(** ** Cyclic reduction on a single diffusion system *)

Definition pcrd_level (M h : Z) (d : DiffSystem.t) : DiffSystem.t :=
  let gkmh k := if k - h <? 0 then 0%R else DiffSystem.g d (k - h) in
  let kmh k := if k - h <? 0 then 0 else k - h in
  let gkms k := if k - 2 * h <? 0 then 0%R else DiffSystem.g d (k - 2 * h) in
  let kph k := if k + h >=? M then M - 1 else k + h in
  let alpha k := (gkmh k / (DiffSystem.h d (kmh k) + gkms k + gkmh k))%R in
  let beta k :=
    (DiffSystem.g d k
     / (DiffSystem.h d (kph k) + DiffSystem.g d k + DiffSystem.g d (kph k)))%R in
  let row k := (0 <=? k) && (k <? M) in
  DiffSystem.mk
    (fun k => if row k then (DiffSystem.g d (kph k) * beta k)%R
              else DiffSystem.g d k)
    (fun k => if row k
              then (DiffSystem.h d k + alpha k * DiffSystem.h d (kmh k)
                    + beta k * DiffSystem.h d (kph k))%R
              else DiffSystem.h d k)
    (fun k => if row k
              then (DiffSystem.rhs d k + alpha k * DiffSystem.rhs d (kmh k)
                    + beta k * DiffSystem.rhs d (kph k))%R
              else DiffSystem.rhs d k).

Definition pcrd_levels (M L : Z) (d : DiffSystem.t) : DiffSystem.t :=
  for_range 1 L (fun lev => pcrd_level M (2 ^ (lev - 1))) d.

(** Effective diagonal of row [k] at stride [S]. *)
Definition pcrd_diag (S : Z) (d : DiffSystem.t) (k : Z) : Real :=
  (DiffSystem.h d k
   + (if (k - S <? 0)%Z then 0 else DiffSystem.g d (k - S))
   + DiffSystem.g d k)%R.

Definition pcrd_pair_lo (S : Z) (d : DiffSystem.t) (k : Z) : Real :=
  let Dk := pcrd_diag S d k in
  let Dkps := (DiffSystem.h d (k + S) + DiffSystem.g d k
               + DiffSystem.g d (k + S))%R in
  let DUk := (- DiffSystem.g d k)%R in
  let DLkps := (- DiffSystem.g d k)%R in
  let Det := (Dk * Dkps - DLkps * DUk)%R in
  ((Dkps * DiffSystem.rhs d k - DUk * DiffSystem.rhs d (k + S)) / Det)%R.

Definition pcrd_pair_hi (S : Z) (d : DiffSystem.t) (k : Z) : Real :=
  let Dk := pcrd_diag S d k in
  let Dkps := (DiffSystem.h d (k + S) + DiffSystem.g d k
               + DiffSystem.g d (k + S))%R in
  let DUk := (- DiffSystem.g d k)%R in
  let DLkps := (- DiffSystem.g d k)%R in
  let Det := (Dk * Dkps - DLkps * DUk)%R in
  ((- DLkps * DiffSystem.rhs d k + Dk * DiffSystem.rhs d (k + S)) / Det)%R.

Definition pcrd_final (M S : Z) (d : DiffSystem.t) (k : Z) : Real :=
  if (0 <? S) && (k + S <? M) then pcrd_pair_lo S d k
  else if (0 <? S) && (0 <=? k - S) then pcrd_pair_hi S d (k - S)
  else (DiffSystem.rhs d k / pcrd_diag S d k)%R.

Definition pcrd_x (M : Z) (d : DiffSystem.t) (k : Z) : Real :=
  let L := Z.log2_up M in
  pcrd_final M (2 ^ (L - 1)) (pcrd_levels M L d) k.

(** Two systems with the same rows [0 .. M - 1]. *)
Definition same_rows (M : Z) (s1 s2 : System.t) : Prop :=
  forall k, 0 <= k < M ->
    System.sub s1 k = System.sub s2 k /\ System.diag s1 k = System.diag s2 k
    /\ System.sup s1 k = System.sup s2 k /\ System.rhs s1 k = System.rhs s2 k.

(** A dominant system whose stored sub-diagonal has a non-zero first entry:
    [A * (1, 1, 1) = (5, 6, 5)]. *)
Definition corner3 : TriDiagScratch.t :=
  scratch_of [1; 1; 1]%R [4; 4; 4]%R [1; 1; 1]%R [5; 6; 5]%R.

(** One row: [2 * 1 = 2]. *)
Definition single1 : TriDiagScratch.t :=
  scratch_of [0]%R [2]%R [0]%R [2]%R.

(** A diffusion system with positive capacities whose last coupling is not
    zero. *)
Definition open3 : TriDiagDiffScratch.t :=
  diff_scratch_of [1; 1; 2]%R [1; 1; 1]%R [1; 2; 3]%R.

(** A diffusion system closed at the last row. *)
Definition closed4 : TriDiagDiffScratch.t :=
  diff_scratch_of [1; 2; 1; 0]%R [1; 1; 2; 1]%R [1; 2; 3; 4]%R.

(** ** Batches *)

(** System [I] of a batch. *)
Definition system_of (B : TridiagonalBatch.t) (I : Z) : System.t :=
  System.mk (elems (TridiagonalBatch.DL B) I) (elems (TridiagonalBatch.D B) I)
    (elems (TridiagonalBatch.DU B) I) (elems (TridiagonalBatch.X B) I).

Definition dsystem_of (B : DiffusionBatch.t) (I : Z) : DiffSystem.t :=
  DiffSystem.mk (elems (DiffusionBatch.G B) I) (elems (DiffusionBatch.H B) I)
    (elems (DiffusionBatch.X B) I).

(** The arrays of a batch have the extents of its [X]. *)
Definition same_extents (A XA : Array2DReal) : Prop :=
  extent0 A = extent0 XA /\ extent1 A = extent1 XA.

Definition batch_wf (B : TridiagonalBatch.t) : Prop :=
  0 <= extent0 (TridiagonalBatch.X B) /\ 0 <= extent1 (TridiagonalBatch.X B)
  /\ same_extents (TridiagonalBatch.DL B) (TridiagonalBatch.X B)
  /\ same_extents (TridiagonalBatch.D B) (TridiagonalBatch.X B)
  /\ same_extents (TridiagonalBatch.DU B) (TridiagonalBatch.X B).

Definition dbatch_wf (B : DiffusionBatch.t) : Prop :=
  0 <= extent0 (DiffusionBatch.X B) /\ 0 <= extent1 (DiffusionBatch.X B)
  /\ same_extents (DiffusionBatch.G B) (DiffusionBatch.X B)
  /\ same_extents (DiffusionBatch.H B) (DiffusionBatch.X B).

(** What a lane of the scratch holds after staging: system
    [IStart + IVec] of the batch, or the inert system. *)
Definition staged (B : TridiagonalBatch.t) (NBatch IStart : Z)
  (s : TriDiagScratch.t) (K IVec : Z) : Prop :=
  let I := IStart + IVec in
  rd (TriDiagScratch.DL s) K IVec
  = (if I <? NBatch then elems (TridiagonalBatch.DL B) I K else 0%R)
  /\ rd (TriDiagScratch.D s) K IVec
     = (if I <? NBatch then elems (TridiagonalBatch.D B) I K else 1%R)
  /\ rd (TriDiagScratch.DU s) K IVec
     = (if I <? NBatch then elems (TridiagonalBatch.DU B) I K else 0%R)
  /\ rd (TriDiagScratch.X s) K IVec
     = (if I <? NBatch then elems (TridiagonalBatch.X B) I K else 0%R).

Definition dstaged (B : DiffusionBatch.t) (NBatch IStart : Z)
  (s : TriDiagDiffScratch.t) (K IVec : Z) : Prop :=
  let I := IStart + IVec in
  rd (TriDiagDiffScratch.G s) K IVec
  = (if I <? NBatch then elems (DiffusionBatch.G B) I K else 0%R)
  /\ rd (TriDiagDiffScratch.H s) K IVec
     = (if I <? NBatch then elems (DiffusionBatch.H B) I K else 1%R)
  /\ rd (TriDiagDiffScratch.X s) K IVec
     = (if I <? NBatch then elems (DiffusionBatch.X B) I K else 0%R).

(** The write-back of the lane-parallel solvers, on the view [A]. *)
Definition write_back (A : ScratchArray2DReal) (NBatch IStart IVec K : Z)
  (XA : Array2DReal) : option Array2DReal :=
  let I := IStart + IVec in
  if I <? NBatch then put XA I K (rd A K IVec) else Some XA.

(** The write-back of the row-parallel solvers. *)
Definition write_back_row (A : ScratchArray2DReal) (guard : bool) (I K : Z)
  (XA : Array2DReal) : option Array2DReal :=
  if guard then put XA I K (rd A K 0) else Some XA.

Module DS := TriDiagDiffScratch.
Module TD := ThomasDiffusionSolver.
Module PD := PCRDiffusionSolver.

(** Two diffusion systems with the same rows [0 .. M - 1]. *)
Definition dsame_rows (M : Z) (d1 d2 : DiffSystem.t) : Prop :=
  forall k, 0 <= k < M ->
    DiffSystem.g d1 k = DiffSystem.g d2 k
    /\ DiffSystem.h d1 k = DiffSystem.h d2 k
    /\ DiffSystem.rhs d1 k = DiffSystem.rhs d2 k.

(** ** Concrete batches *)

(** The array whose system [I] has the rows [nth I ll]. *)
Definition array_of (NRow : Z) (ll : list (list Real)) : Array2DReal :=
  mkArray2DReal (Z.of_nat (length ll)) NRow
    (fun I K => nth (Z.to_nat K) (nth (Z.to_nat I) ll []) 0%R).

(** Two copies of the scenario of four rows. *)
Definition batch2 : TridiagonalBatch.t :=
  TridiagonalBatch.mk
    (array_of 4 [[0; 1; 1; 1]; [0; 1; 1; 1]]%R)
    (array_of 4 [[4; 4; 4; 4]; [4; 4; 4; 4]]%R)
    (array_of 4 [[1; 1; 1; 0]; [1; 1; 1; 0]]%R)
    (array_of 4 [[5; 6; 6; 5]; [5; 6; 6; 5]]%R).

(** One diffusion system of two rows. *)
Definition dbatch1 : DiffusionBatch.t :=
  DiffusionBatch.mk (array_of 2 [[1; 0]]%R) (array_of 2 [[1; 1]]%R)
    (array_of 2 [[1; 2]]%R).

(** Two diffusion systems of four rows. *)
Definition dbatch2 : DiffusionBatch.t :=
  DiffusionBatch.mk
    (array_of 4 [[1; 2; 1; 0]; [1; 2; 1; 0]]%R)
    (array_of 4 [[1; 1; 2; 1]; [1; 1; 2; 1]]%R)
    (array_of 4 [[1; 2; 3; 4]; [1; 2; 3; 4]]%R).

(** A team of league rank [r] whose scratch pad holds 7 everywhere. *)
Definition team (r : Z) : TeamMember :=
  mkTeamMember r (fun _ _ _ => 7%R).

(** ** Teams and barriers

    The reduction levels of the row-parallel solvers as the members of a
    team run them: every member reads its neighbours and computes its locals,
    waits at [team_barrier], writes its row, waits at [team_barrier], in any
    interleaving.  The position of a member counts what it has done:
    [4 * q] before the reads of level [q + 1], [4 * q + 1] at the first
    barrier of that level, [4 * q + 2] before its writes, [4 * q + 3] at the
    second barrier.  A member leaves a barrier once every member of the team
    has reached it. *)

Module TeamRounds.
Section Machine.
Variables St Rg : Type.
(** Team size and [NLevels]. *)
Variables N L : Z.
(** The reads of member [K] at level [Lev], and its writes. *)
Variable compute : Z -> Z -> St -> Rg.
Variable commit1 : Rg -> Z -> St -> St.

Record Team := mkTeam
  { pos : Z -> Z;
    regs : Z -> Rg;
    scratch : St }.

Definition set {A : Type} (f : Z -> A) (K : Z) (a : A) : Z -> A :=
  fun K' => if K' =? K then a else f K'.

Definition member (K : Z) : Prop := 0 <= K < N.

(** Every member has reached position [p]. *)
Definition arrived (T : Team) (p : Z) : Prop :=
  forall K, member K -> p <= pos T K.

Inductive step (T : Team) : Team -> Prop :=
| step_read (K q : Z) :
    member K -> 0 <= q -> q + 1 < L -> pos T K = 4 * q ->
    step T (mkTeam (set (pos T) K (4 * q + 1))
              (set (regs T) K (compute (q + 1) K (scratch T)))
              (scratch T))
| step_barrier1 (K q : Z) :
    member K -> pos T K = 4 * q + 1 -> arrived T (4 * q + 1) ->
    step T (mkTeam (set (pos T) K (4 * q + 2)) (regs T) (scratch T))
| step_write (K q : Z) :
    member K -> pos T K = 4 * q + 2 ->
    step T (mkTeam (set (pos T) K (4 * q + 3)) (regs T)
              (commit1 (regs T K) K (scratch T)))
| step_barrier2 (K q : Z) :
    member K -> pos T K = 4 * q + 3 -> arrived T (4 * q + 3) ->
    step T (mkTeam (set (pos T) K (4 * q + 4)) (regs T) (scratch T)).

(** The states of the team on a scratch [s0], whatever the locals hold at
    the start. *)
Inductive reachable (s0 : St) (r0 : Z -> Rg) : Team -> Prop :=
| reach_init : reachable s0 r0 (mkTeam (fun _ => 0) r0 s0)
| reach_step (T T' : Team) :
    reachable s0 r0 T -> step T T' -> reachable s0 r0 T'.

(** One level and [q] levels as synchronous rounds. *)
Definition round (Lev : Z) (s : St) : St :=
  for_range 0 N (fun K s' => commit1 (compute Lev K s) K s') s.

Definition rounds (q : Z) (s0 : St) : St := for_range 1 (q + 1) round s0.

(** The two situations a team can be in.  Reading level [q + 1]: no member
    has passed the first barrier of the level, the scratch is the one [q]
    synchronous rounds leave, and the members at the barrier hold the locals
    computed from it.  Writing level [q + 1]: every member has read, and the
    scratch holds the rows of the members that have written;
    [partial w r s] is the scratch [s] with the rows of the members in [w]
    written from the locals [r]. *)
Variable partial : (Z -> bool) -> (Z -> Rg) -> St -> St.
Variable s0 : St.

Definition reading (q : Z) (T : Team) : Prop :=
  (forall K, member K -> 4 * q - 1 <= pos T K <= 4 * q + 1)
  /\ scratch T = rounds q s0
  /\ (forall K, member K -> pos T K = 4 * q + 1 ->
                regs T K = compute (q + 1) K (rounds q s0)).

Definition writing (q : Z) (T : Team) : Prop :=
  (forall K, member K -> 4 * q + 1 <= pos T K <= 4 * q + 3)
  /\ (forall K, member K -> regs T K = compute (q + 1) K (rounds q s0))
  /\ scratch T
     = partial (fun K => pos T K =? 4 * q + 3) (regs T) (rounds q s0).

Definition in_window (T : Team) : Prop :=
  exists q, 0 <= q /\ (reading q T \/ writing q T).
End Machine.

Arguments mkTeam {St Rg}.
Arguments pos {St Rg}.
Arguments regs {St Rg}.
Arguments scratch {St Rg}.
Arguments set {A}.
Arguments arrived {St Rg}.
Arguments step {St Rg}.
Arguments reachable {St Rg}.
Arguments round {St Rg}.
Arguments rounds {St Rg}.
Arguments reading {St Rg}.
Arguments writing {St Rg}.
Arguments in_window {St Rg}.
End TeamRounds.

(** The row of member [K] written from its locals. *)
Definition PCRSolver_commit1 (r : PCRSolver.Regs) (K : Z)
  (s : TriDiagScratch.t) : TriDiagScratch.t :=
  PCRSolver.commit (fun _ => r) K s.

Definition PCRDiffusionSolver_commit1 (r : PCRDiffusionSolver.Regs) (K : Z)
  (s : TriDiagDiffScratch.t) : TriDiagDiffScratch.t :=
  PCRDiffusionSolver.commit (fun _ => r) K s.

(** The scratch when the members [K] with [w K = true] have written. *)
Definition PCRSolver_partial (N : Z) (w : Z -> bool)
  (r : Z -> PCRSolver.Regs) (s : TriDiagScratch.t) : TriDiagScratch.t :=
  let sel i v := w i && (0 <=? i) && (i <? N) && (v =? 0) in
  TriDiagScratch.mk (TriDiagScratch.NRow s)
    (fun i v => if sel i v then PCRSolver.NewDL (r i)
                else TriDiagScratch.DL s i v)
    (fun i v => if sel i v then PCRSolver.NewD (r i)
                else TriDiagScratch.D s i v)
    (fun i v => if sel i v then PCRSolver.NewDU (r i)
                else TriDiagScratch.DU s i v)
    (fun i v => if sel i v then PCRSolver.NewX (r i)
                else TriDiagScratch.X s i v).

Definition PCRDiffusionSolver_partial (N : Z) (w : Z -> bool)
  (r : Z -> PCRDiffusionSolver.Regs) (s : TriDiagDiffScratch.t)
  : TriDiagDiffScratch.t :=
  let sel i v := w i && (0 <=? i) && (i <? N) && (v =? 0) in
  TriDiagDiffScratch.mk (TriDiagDiffScratch.NRow s)
    (fun i v => if sel i v then PCRDiffusionSolver.NewG (r i)
                else TriDiagDiffScratch.G s i v)
    (fun i v => if sel i v then PCRDiffusionSolver.NewH (r i)
                else TriDiagDiffScratch.H s i v)
    (fun i v => if sel i v then PCRDiffusionSolver.NewX (r i)
                else TriDiagDiffScratch.X s i v)
    (TriDiagDiffScratch.Alpha s).

(** Systems of five rows, which take two reduction levels. *)
Definition scenario5 : TriDiagScratch.t :=
  scratch_of [0; 1; 1; 1; 1]%R [4; 4; 4; 4; 4]%R [1; 1; 1; 1; 0]%R
    [5; 6; 6; 6; 5]%R.

Definition closed5 : TriDiagDiffScratch.t :=
  diff_scratch_of [1; 2; 1; 1; 0]%R [1; 1; 2; 1; 1]%R [1; 2; 3; 4; 5]%R.

(** The team on [scenario5] when member 0 has read at level 1. *)
Definition team5 : TeamRounds.Team TriDiagScratch.t PCRSolver.Regs :=
  TeamRounds.mkTeam
    (TeamRounds.set (fun _ => 0) 0 (4 * 0 + 1))
    (TeamRounds.set (fun _ => PCRSolver.mkRegs 0 0 0 0) 0
       (PCRSolver.reduce 0 5 (0 + 1) 0 scenario5))
    scenario5.

Definition dteam5
  : TeamRounds.Team TriDiagDiffScratch.t PCRDiffusionSolver.Regs :=
  TeamRounds.mkTeam
    (TeamRounds.set (fun _ => 0) 0 (4 * 0 + 1))
    (TeamRounds.set (fun _ => PCRDiffusionSolver.mkRegs 0 0 0) 0
       (PCRDiffusionSolver.reduce 0 5 (0 + 1) 0 closed5))
    closed5.

(** ** Further systems, batches and notions *)

(** A diffusion system with positive capacities and non-negative
    couplings. *)
Definition positive_diffusion (M : Z) (d : DiffSystem.t) : Prop :=
  forall k, 0 <= k < M -> (0 < DiffSystem.h d k /\ 0 <= DiffSystem.g d k)%R.

(** The group of systems of the team of league rank [r]. *)
Definition in_group (VecLength r I : Z) : bool :=
  (r * VecLength <=? I) && (I <? r * VecLength + VecLength).

(** A team whose scratch pad holds other values. *)
Definition team' (r : Z) : TeamMember :=
  mkTeamMember r (fun n K v => IZR (Z.of_nat n + K * v)).

(** The scenario twice, with a diagonal array of three rows only. *)
Definition batch2_short : TridiagonalBatch.t :=
  TridiagonalBatch.mk
    (array_of 4 [[0; 1; 1; 1]; [0; 1; 1; 1]]%R)
    (array_of 3 [[4; 4; 4]; [4; 4; 4]]%R)
    (array_of 4 [[1; 1; 1; 0]; [1; 1; 1; 0]]%R)
    (array_of 4 [[5; 6; 6; 5]; [5; 6; 6; 5]]%R).

(** A scratch that holds the scenario in lane 3 only. *)
Definition scenario4_lane3 : TriDiagScratch.t := only_lane 3 scenario4.

(** [closed4] with other values in [Alpha] and in the lanes but 2. *)
Definition closed4_lane2 : DS.t :=
  DS.mk 4 (only 2 (DS.G closed4)) (only 2 (DS.H closed4))
    (only 2 (DS.X closed4)) (fun K v => IZR (K + v)).




(** A right-hand side without negative entries. *)
Definition nonneg_rhs (M : Z) (d : DiffSystem.t) : Prop :=
  forall k, 0 <= k < M -> (0 <= DiffSystem.rhs d k)%R.

(** The sum of [f] over the rows [0 .. M - 1]. *)
Definition sum_rows (M : Z) (f : Z -> Real) : Real :=
  for_range 0 M (fun k acc => (acc + f k)%R) 0%R.


(** One diffusion row: [(1 + 1) * 1 = 2]. *)
Definition dsingle1 : DS.t := diff_scratch_of [1]%R [1]%R [2]%R.

(** Two rows, neither dominant nor with zeros outside the matrix:
    [A = (1 2; 3 4)], [A * (1, 1) = (3, 7)]. *)
Definition pair2 : TriDiagScratch.t :=
  scratch_of [9; 3]%R [1; 4]%R [2; 9]%R [3; 7]%R.

(** Two diffusion rows with a coupling out of the last row. *)
Definition dpair2 : DS.t := diff_scratch_of [1; 2]%R [1; 1]%R [1; 2]%R.

(** Every member has run the [L - 1] reduction levels. *)
Definition team_finished {St Rg : Type} (N L : Z)
  (T : TeamRounds.Team St Rg) : Prop :=
  forall K, TeamRounds.member N K ->
            TeamRounds.pos T K = 4 * Z.max 0 (L - 1).

(** * Verification *)

(** ** Loop principles *)

(** Induction on the row index. *)
Lemma row_ind (P : Z -> Prop) :
  P 0 -> (forall k, 0 <= k -> P k -> P (k + 1)) -> forall k, 0 <= k -> P k.
Proof.
  intros H0 Hs k Hk. pattern k. apply natlike_ind; [exact H0| |exact Hk].
  intros x Hx Px. unfold Z.succ. now apply Hs.
Qed.

Lemma for_up_snoc {S : Type} (body : Z -> S -> S) (n : nat) :
  forall (k : Z) (s : S),
    for_up (Datatypes.S n) k body s
    = body (k + Z.of_nat n) (for_up n k body s).
Proof.
  induction n as [|n IH]; intros k s.
  - simpl. now rewrite Z.add_0_r.
  - change (for_up (Datatypes.S (Datatypes.S n)) k body s)
      with (for_up (Datatypes.S n) (k + 1) body (body k s)).
    rewrite IH. simpl for_up at 2.
    replace (k + 1 + Z.of_nat n) with (k + Z.of_nat (Datatypes.S n)) by lia.
    reflexivity.
Qed.

Lemma for_range_nil {S : Type} (lo hi : Z) (body : Z -> S -> S) (s : S) :
  hi <= lo -> for_range lo hi body s = s.
Proof.
  intros Hle. unfold for_range.
  replace (Z.to_nat (hi - lo)) with O by lia. reflexivity.
Qed.

Lemma for_range_snoc {S : Type} (lo hi : Z) (body : Z -> S -> S) (s : S) :
  lo <= hi ->
  for_range lo (hi + 1) body s = body hi (for_range lo hi body s).
Proof.
  intros Hle. unfold for_range.
  replace (Z.to_nat (hi + 1 - lo)) with (Datatypes.S (Z.to_nat (hi - lo))) by lia.
  rewrite for_up_snoc. f_equal. lia.
Qed.

Lemma for_range_one {S : Type} (k : Z) (body : Z -> S -> S) (s : S) :
  for_range k (k + 1) body s = body k s.
Proof.
  rewrite for_range_snoc by lia. now rewrite for_range_nil by lia.
Qed.

(** Invariant rule of the counting loop. *)
Lemma for_range_inv {S : Type} (P : Z -> S -> Prop) (lo hi : Z)
  (body : Z -> S -> S) (s : S) :
  lo <= hi ->
  P lo s ->
  (forall k t, lo <= k < hi -> P k t -> P (k + 1) (body k t)) ->
  P hi (for_range lo hi body s).
Proof.
  intros Hle H0 Hstep.
  assert (Hn : forall n : nat, lo + Z.of_nat n <= hi ->
             P (lo + Z.of_nat n) (for_range lo (lo + Z.of_nat n) body s)).
  { induction n as [|n IH]; intros Hb.
    - rewrite Z.add_0_r. rewrite for_range_nil by lia. exact H0.
    - replace (lo + Z.of_nat (Datatypes.S n)) with (lo + Z.of_nat n + 1) by lia.
      rewrite for_range_snoc by lia. apply Hstep; [lia|]. apply IH. lia. }
  specialize (Hn (Z.to_nat (hi - lo))).
  replace (lo + Z.of_nat (Z.to_nat (hi - lo))) with hi in Hn by lia.
  apply Hn. lia.
Qed.

Lemma for_down_nil {S : Type} (hi lo : Z) (body : Z -> S -> S) (s : S) :
  hi < lo -> for_down hi lo body s = s.
Proof.
  intros Hlt. unfold for_down.
  replace (Z.to_nat (hi - lo + 1)) with O by lia. reflexivity.
Qed.

Lemma for_dn_snoc {S : Type} (body : Z -> S -> S) (n : nat) :
  forall (k : Z) (s : S),
    for_dn (Datatypes.S n) k body s
    = body (k - Z.of_nat n) (for_dn n k body s).
Proof.
  induction n as [|n IH]; intros k s.
  - simpl. now rewrite Z.sub_0_r.
  - change (for_dn (Datatypes.S (Datatypes.S n)) k body s)
      with (for_dn (Datatypes.S n) (k - 1) body (body k s)).
    rewrite IH. simpl for_dn at 2.
    replace (k - 1 - Z.of_nat n) with (k - Z.of_nat (Datatypes.S n)) by lia.
    reflexivity.
Qed.

Lemma for_down_snoc {S : Type} (hi lo : Z) (body : Z -> S -> S) (s : S) :
  lo <= hi + 1 ->
  for_down hi (lo - 1) body s = body (lo - 1) (for_down hi lo body s).
Proof.
  intros Hle. unfold for_down.
  replace (Z.to_nat (hi - (lo - 1) + 1))
    with (Datatypes.S (Z.to_nat (hi - lo + 1))) by lia.
  rewrite for_dn_snoc. f_equal. lia.
Qed.

Lemma for_down_step {S : Type} (hi k : Z) (body : Z -> S -> S) (s : S) :
  k <= hi ->
  for_down hi k body s = body k (for_down hi (k + 1) body s).
Proof.
  intros Hle. pose proof (for_down_snoc hi (k + 1) body s) as E.
  replace (k + 1 - 1) with k in E by lia. apply E. lia.
Qed.

(** Invariant rule of the descending loop: [P k] holds when the rows
    [k .. hi] have been processed. *)
Lemma for_down_inv {S : Type} (P : Z -> S -> Prop) (hi lo : Z)
  (body : Z -> S -> S) (s : S) :
  lo <= hi + 1 ->
  P (hi + 1) s ->
  (forall k t, lo <= k <= hi -> P (k + 1) t -> P k (body k t)) ->
  P lo (for_down hi lo body s).
Proof.
  intros Hle H0 Hstep.
  assert (Hn : forall n : nat, lo <= hi + 1 - Z.of_nat n ->
             P (hi + 1 - Z.of_nat n)
               (for_down hi (hi + 1 - Z.of_nat n) body s)).
  { induction n as [|n IH]; intros Hb.
    - rewrite Z.sub_0_r. rewrite for_down_nil by lia. exact H0.
    - replace (hi + 1 - Z.of_nat (Datatypes.S n))
        with (hi + 1 - Z.of_nat n - 1) by lia.
      rewrite for_down_snoc by lia. apply Hstep; [lia|].
      replace (hi + 1 - Z.of_nat n - 1 + 1) with (hi + 1 - Z.of_nat n) by lia.
      apply IH. lia. }
  specialize (Hn (Z.to_nat (hi + 1 - lo))).
  replace (hi + 1 - Z.of_nat (Z.to_nat (hi + 1 - lo))) with lo in Hn by lia.
  apply Hn. lia.
Qed.

Lemma for_range_ext {S : Type} (lo hi : Z) (f g : Z -> S -> S) (s : S) :
  (forall k t, lo <= k < hi -> f k t = g k t) ->
  for_range lo hi f s = for_range lo hi g s.
Proof.
  intros Hfg. destruct (Z_le_gt_dec lo hi) as [Hle|Hgt].
  - apply (for_range_inv
             (fun k t => t = for_range lo k g s) lo hi f s Hle).
    + now rewrite for_range_nil by lia.
    + intros k t Hk ->. rewrite for_range_snoc by lia. now apply Hfg.
  - now rewrite !for_range_nil by lia.
Qed.

Lemma for_down_ext {S : Type} (hi lo : Z) (f g : Z -> S -> S) (s : S) :
  (forall k t, lo <= k <= hi -> f k t = g k t) ->
  for_down hi lo f s = for_down hi lo g s.
Proof.
  intros Hfg. destruct (Z_le_gt_dec lo (hi + 1)) as [Hle|Hgt].
  - apply (for_down_inv
             (fun k t => t = for_down hi k g s) hi lo f s Hle).
    + now rewrite for_down_nil by lia.
    + intros k t Hk ->. rewrite (for_down_step hi k) by lia. now apply Hfg.
  - now rewrite !for_down_nil by lia.
Qed.

(** A projection that commutes with every iteration commutes with the loop. *)
Lemma for_range_proj {S T : Type} (proj : S -> T) (lo hi : Z)
  (f : Z -> S -> S) (g : Z -> T -> T) (s : S) :
  (forall k t, lo <= k < hi -> proj (f k t) = g k (proj t)) ->
  proj (for_range lo hi f s) = for_range lo hi g (proj s).
Proof.
  intros Hc. destruct (Z_le_gt_dec lo hi) as [Hle|Hgt].
  - apply (for_range_inv
             (fun k t => proj t = for_range lo k g (proj s)) lo hi f s Hle).
    + now rewrite for_range_nil by lia.
    + intros k t Hk Ht. rewrite for_range_snoc by lia.
      rewrite Hc by lia. now rewrite Ht.
  - now rewrite !for_range_nil by lia.
Qed.

Lemma for_down_proj {S T : Type} (proj : S -> T) (hi lo : Z)
  (f : Z -> S -> S) (g : Z -> T -> T) (s : S) :
  (forall k t, lo <= k <= hi -> proj (f k t) = g k (proj t)) ->
  proj (for_down hi lo f s) = for_down hi lo g (proj s).
Proof.
  intros Hc. destruct (Z_le_gt_dec lo (hi + 1)) as [Hle|Hgt].
  - apply (for_down_inv
             (fun k t => proj t = for_down hi k g (proj s)) hi lo f s Hle).
    + now rewrite for_down_nil by lia.
    + intros k t Hk Ht. rewrite (for_down_step hi k) by lia.
      rewrite Hc by lia. now rewrite Ht.
  - now rewrite !for_down_nil by lia.
Qed.

(** The lane loop: when iteration [v] acts on lane [v] alone, the loop over
    the lanes acts on lane [j] as the single iteration [j]. *)
Lemma lanes_loop {S : Type} (proj : Z -> S -> S) (body : Z -> S -> S) :
  (forall v j s,
      proj j (body v s) = if j =? v then body j (proj j s) else proj j s) ->
  forall V j s,
    proj j (for_range 0 V body s)
    = if (0 <=? j) && (j <? V) then body j (proj j s) else proj j s.
Proof.
  intros Hb V j s. destruct (Z_le_gt_dec 0 V) as [Hle|Hgt].
  - apply (for_range_inv
             (fun v t => proj j t
                         = if (0 <=? j) && (j <? v)
                           then body j (proj j s) else proj j s)
             0 V body s Hle).
    + destruct (0 <=? j) eqn:E1, (j <? 0) eqn:E2; try reflexivity. lia.
    + intros v t Hv Ht. rewrite Hb, Ht.
      destruct (Z.eqb_spec j v) as [->|Hne].
      * replace (v <? v) with false by lia. rewrite andb_false_r.
        replace (0 <=? v) with true by lia.
        replace (v <? v + 1) with true by lia. reflexivity.
      * destruct (0 <=? j); simpl; [|reflexivity].
        replace (j <? v + 1) with (j <? v) by lia. reflexivity.
  - rewrite for_range_nil by lia.
    destruct (0 <=? j) eqn:E1, (j <? V) eqn:E2; try reflexivity. lia.
Qed.

(** ** ThomasSolver: the lanes are independent *)

Import TriDiagScratch.

Ltac lane_ext :=
  let a := fresh "a" in
  let b := fresh "b" in
  try (apply functional_extensionality; intro a;
       apply functional_extensionality; intro b).

Ltac eqb_cases :=
  repeat match goal with
    | |- context [?a =? ?a] => rewrite (Z.eqb_refl a)
    | H : ?a <> ?b |- context [?a =? ?b] =>
        replace (a =? b) with false by (symmetry; apply Z.eqb_neq; exact H)
    | H : ?a <> ?b |- context [?b =? ?a] =>
        replace (b =? a) with false
          by (symmetry; apply Z.eqb_neq; intro; apply H; congruence)
    | |- context [?a =? ?b] =>
        destruct (Z.eqb_spec a b); subst
    end; simpl; try reflexivity; try lia.

Lemma only_lane_forward (K v j : Z) (s : t) :
  only_lane j (ThomasSolver.forward K v s)
  = if j =? v then ThomasSolver.forward K j (only_lane j s)
    else only_lane j s.
Proof.
  destruct (Z.eqb_spec j v) as [->|Hne];
    unfold ThomasSolver.forward, only_lane, setD, setX; simpl;
    f_equal; lane_ext; unfold only, wr, rd; eqb_cases.
Qed.

Lemma only_lane_last_row (NR v j : Z) (s : t) :
  only_lane j (ThomasSolver.last_row NR v s)
  = if j =? v then ThomasSolver.last_row NR j (only_lane j s)
    else only_lane j s.
Proof.
  destruct (Z.eqb_spec j v) as [->|Hne];
    unfold ThomasSolver.last_row, only_lane, setD, setX; simpl;
    f_equal; lane_ext; unfold only, wr, rd; eqb_cases.
Qed.

Lemma only_lane_backward (K v j : Z) (s : t) :
  only_lane j (ThomasSolver.backward K v s)
  = if j =? v then ThomasSolver.backward K j (only_lane j s)
    else only_lane j s.
Proof.
  destruct (Z.eqb_spec j v) as [->|Hne];
    unfold ThomasSolver.backward, only_lane, setD, setX; simpl;
    f_equal; lane_ext; unfold only, wr, rd; eqb_cases.
Qed.

(** On a lane of the group, the vectorised solver is the sequential solver
    of that lane. *)
Lemma ThomasSolver_solve_lane (VecLength j : Z) (s : t) :
  0 <= j < VecLength ->
  only_lane j (ThomasSolver.solve VecLength s)
  = thomas_lane j (only_lane j s).
Proof.
  intros Hj. unfold ThomasSolver.solve, thomas_lane.
  assert (Hin : (0 <=? j) && (j <? VecLength) = true) by lia.
  rewrite (for_down_proj (only_lane j) _ _ _
             (fun K => ThomasSolver.backward K j)).
  2:{ intros k u _. rewrite (lanes_loop only_lane).
      - now rewrite Hin.
      - intros. apply only_lane_backward. }
  f_equal. rewrite (lanes_loop only_lane).
  2:{ intros. apply only_lane_last_row. }
  rewrite Hin. simpl NRow. f_equal.
  apply for_range_proj. intros k u _. rewrite (lanes_loop only_lane).
  - now rewrite Hin.
  - intros. apply only_lane_forward.
Qed.

(** ** ThomasSolver: the row recurrences *)

Lemma thomas_pivot_step (sys : System.t) (k : Z) :
  1 <= k ->
  thomas_pivot sys (Z.to_nat k)
  = (System.diag sys k
     - System.sub sys k / thomas_pivot sys (Z.to_nat (k - 1))
       * System.sup sys (k - 1))%R.
Proof.
  intros Hk.
  replace (Z.to_nat k) with (Datatypes.S (Z.to_nat (k - 1))) by lia.
  cbn [thomas_pivot].
  replace (Z.of_nat (Datatypes.S (Z.to_nat (k - 1)))) with k by lia.
  replace (Z.of_nat (Z.to_nat (k - 1))) with (k - 1) by lia.
  reflexivity.
Qed.

Lemma thomas_rhs_step (sys : System.t) (k : Z) :
  1 <= k ->
  thomas_rhs sys (Z.to_nat k)
  = (System.rhs sys k
     - System.sub sys k / thomas_pivot sys (Z.to_nat (k - 1))
       * thomas_rhs sys (Z.to_nat (k - 1)))%R.
Proof.
  intros Hk.
  replace (Z.to_nat k) with (Datatypes.S (Z.to_nat (k - 1))) by lia.
  cbn [thomas_rhs].
  replace (Z.of_nat (Datatypes.S (Z.to_nat (k - 1)))) with k by lia.
  reflexivity.
Qed.

Lemma thomas_x_last (sys : System.t) (M : Z) :
  thomas_x sys M (M - 1)
  = (thomas_rhs sys (Z.to_nat (M - 1))
     / thomas_pivot sys (Z.to_nat (M - 1)))%R.
Proof.
  unfold thomas_x. replace (Z.to_nat (M - 1 - (M - 1))) with O by lia.
  reflexivity.
Qed.

Lemma thomas_x_step (sys : System.t) (M k : Z) :
  k < M - 1 ->
  thomas_x sys M k
  = ((thomas_rhs sys (Z.to_nat k) - System.sup sys k * thomas_x sys M (k + 1))
     / thomas_pivot sys (Z.to_nat k))%R.
Proof.
  intros Hk. unfold thomas_x.
  replace (Z.to_nat (M - 1 - k))
    with (Datatypes.S (Z.to_nat (M - 1 - (k + 1)))) by lia.
  cbn [thomas_back].
  replace (M - 1 - Z.of_nat (Datatypes.S (Z.to_nat (M - 1 - (k + 1)))))
    with k by lia.
  reflexivity.
Qed.

Lemma rd_wr (A : ScratchArray2DReal) (K v : Z) (x : Real) (K' v' : Z) :
  rd (wr A K v x) K' v' = if (K' =? K) && (v' =? v) then x else rd A K' v'.
Proof. reflexivity. Qed.

(** State of lane [j] after the forward sweep has reached row [K]. *)
Lemma thomas_forward_rows (j : Z) (s : t) (K : Z) :
  1 <= K ->
  let u := for_range 1 K (fun K => ThomasSolver.forward K j) s in
  NRow u = NRow s /\ DL u = DL s /\ DU u = DU s
  /\ (forall i, rd (D u) i j
                = if (0 <=? i) && (i <? K)
                  then thomas_pivot (lane s j) (Z.to_nat i)
                  else rd (D s) i j)
  /\ (forall i, rd (X u) i j
                = if (0 <=? i) && (i <? K)
                  then thomas_rhs (lane s j) (Z.to_nat i)
                  else rd (X s) i j).
Proof.
  intros HK.
  apply (for_range_inv
           (fun K u =>
              NRow u = NRow s /\ DL u = DL s /\ DU u = DU s
              /\ (forall i, rd (D u) i j
                            = if (0 <=? i) && (i <? K)
                              then thomas_pivot (lane s j) (Z.to_nat i)
                              else rd (D s) i j)
              /\ (forall i, rd (X u) i j
                            = if (0 <=? i) && (i <? K)
                              then thomas_rhs (lane s j) (Z.to_nat i)
                              else rd (X s) i j))
           1 K _ s HK).
  - repeat split; intros i.
    + destruct (Z.eq_dec i 0) as [->|Hi]; [reflexivity|].
      replace ((0 <=? i) && (i <? 1)) with false by lia. reflexivity.
    + destruct (Z.eq_dec i 0) as [->|Hi]; [reflexivity|].
      replace ((0 <=? i) && (i <? 1)) with false by lia. reflexivity.
  - intros k u Hk (HN & HDL & HDU & HD & HX).
    unfold ThomasSolver.forward, setD, setX; simpl.
    repeat split; try assumption; intros i; rewrite rd_wr.
    + destruct (Z.eqb_spec i k) as [->|Hik]; rewrite ?Z.eqb_refl; simpl.
      * replace ((0 <=? k) && (k <? k + 1)) with true by lia.
        rewrite thomas_pivot_step by lia.
        rewrite HDL, HDU, !HD.
        replace ((0 <=? k) && (k <? k)) with false by lia.
        replace ((0 <=? k - 1) && (k - 1 <? k)) with true by lia.
        reflexivity.
      * rewrite HD.
        replace ((0 <=? i) && (i <? k + 1)) with ((0 <=? i) && (i <? k)) by lia.
        reflexivity.
    + destruct (Z.eqb_spec i k) as [->|Hik]; rewrite ?Z.eqb_refl; simpl.
      * replace ((0 <=? k) && (k <? k + 1)) with true by lia.
        rewrite thomas_rhs_step by lia.
        rewrite HDL, !HD, !HX.
        replace ((0 <=? k) && (k <? k)) with false by lia.
        replace ((0 <=? k - 1) && (k - 1 <? k)) with true by lia.
        reflexivity.
      * rewrite HX.
        replace ((0 <=? i) && (i <? k + 1)) with ((0 <=? i) && (i <? k)) by lia.
        reflexivity.
Qed.

(** The solution of lane [j] is the back-substituted recurrence. *)
Lemma thomas_lane_rows (j : Z) (s : t) (k : Z) :
  1 <= NRow s -> 0 <= k < NRow s ->
  rd (X (thomas_lane j s)) k j = thomas_x (lane s j) (NRow s) k.
Proof.
  intros HM Hk. unfold thomas_lane.
  destruct (thomas_forward_rows j s (NRow s) HM) as (HN & HDL & HDU & HD & HX).
  set (u := for_range 1 (NRow s) (fun K => ThomasSolver.forward K j) s) in *.
  set (M := NRow s) in *.
  assert (Hinv :
    forall lo, 0 <= lo <= M - 1 ->
      let w := for_down (M - 2) lo (fun K => ThomasSolver.backward K j)
                 (ThomasSolver.last_row M j u) in
      D w = D u /\ DU w = DU u
      /\ forall i, rd (X w) i j
                   = if (lo <=? i) && (i <? M)
                     then thomas_x (lane s j) M i else rd (X u) i j).
  { intros lo Hlo.
    apply (for_down_inv
             (fun lo w =>
                D w = D u /\ DU w = DU u
                /\ forall i, rd (X w) i j
                             = if (lo <=? i) && (i <? M)
                               then thomas_x (lane s j) M i
                               else rd (X u) i j)
             (M - 2) lo).
    - lia.
    - replace (M - 2 + 1) with (M - 1) by lia.
      unfold ThomasSolver.last_row, setX; simpl.
      repeat split. intros i. rewrite rd_wr.
      destruct (Z.eqb_spec i (M - 1)) as [->|Hi]; rewrite ?Z.eqb_refl; simpl.
      + replace ((M - 1 <=? M - 1) && (M - 1 <? M)) with true by lia.
        rewrite thomas_x_last, HX, HD.
        replace ((0 <=? M - 1) && (M - 1 <? M)) with true by lia.
        reflexivity.
      + replace ((M - 1 <=? i) && (i <? M)) with false by lia. reflexivity.
    - intros r w Hr (HwD & HwDU & HwX).
      unfold ThomasSolver.backward, setX; simpl.
      repeat split; try assumption. intros i. rewrite rd_wr.
      destruct (Z.eqb_spec i r) as [->|Hi]; rewrite ?Z.eqb_refl; simpl.
      + replace ((r <=? r) && (r <? M)) with true by lia.
        rewrite thomas_x_step by lia.
        rewrite HwD, HwDU, HDU, !HwX, HX, HD.
        replace ((r + 1 <=? r) && (r <? M)) with false by lia.
        replace ((r + 1 <=? r + 1) && (r + 1 <? M)) with true by lia.
        replace ((0 <=? r) && (r <? M)) with true by lia.
        reflexivity.
      + rewrite HwX.
        replace ((r <=? i) && (i <? M)) with ((r + 1 <=? i) && (i <? M)) by lia.
        reflexivity. }
  destruct (Hinv 0 ltac:(lia)) as (_ & _ & HXw).
  rewrite HXw. replace ((0 <=? k) && (k <? M)) with true by lia. reflexivity.
Qed.

Lemma lane_only_lane (j : Z) (s : t) : lane (only_lane j s) j = lane s j.
Proof.
  unfold lane, only_lane, only, rd; simpl.
  f_equal; apply functional_extensionality; intro K; now rewrite Z.eqb_refl.
Qed.

(** The vectorised solver computes, in every lane of the group, the
    recurrences of the sequential elimination. *)
Lemma ThomasSolver_solve_rows (VecLength j : Z) (s : t) (k : Z) :
  0 <= j < VecLength -> 1 <= NRow s -> 0 <= k < NRow s ->
  rd (X (ThomasSolver.solve VecLength s)) k j
  = thomas_x (lane s j) (NRow s) k.
Proof.
  intros Hj HM Hk.
  transitivity (rd (X (only_lane j (ThomasSolver.solve VecLength s))) k j).
  { unfold only_lane, only, rd; simpl. now rewrite Z.eqb_refl. }
  rewrite ThomasSolver_solve_lane by assumption.
  rewrite thomas_lane_rows by assumption.
  now rewrite lane_only_lane.
Qed.

(** ** Sequential elimination solves the system *)

Local Open Scope R_scope.

Lemma Rabs_ratio_le (a p c : R) :
  Rabs c < Rabs p -> Rabs (a / p * c) <= Rabs a.
Proof.
  intros Hlt.
  assert (Hp : p <> 0).
  { intros ->. rewrite Rabs_R0 in Hlt. pose proof (Rabs_pos c). lra. }
  unfold Rdiv. rewrite !Rabs_mult, Rabs_inv.
  pose proof (Rabs_pos a) as Ha. pose proof (Rabs_pos c) as Hc.
  assert (HP : 0 < Rabs p) by lra.
  assert (Hq : 0 < / Rabs p) by now apply Rinv_0_lt_compat.
  assert (Hqp : / Rabs p * Rabs p = 1) by (field; lra).
  set (A := Rabs a) in *. set (C := Rabs c) in *.
  set (P := Rabs p) in *. set (q := / P) in *.
  assert (H1 : 0 <= A * q) by nra.
  assert (H2 : 0 <= A * q * (P - C)) by (apply Rmult_le_pos; lra).
  nra.
Qed.

Section OneSystem.
Variable M : Z.
Variable sys : System.t.

Let sub := System.sub sys.
Let diag := System.diag sys.
Let sup := System.sup sys.
Let piv (k : Z) := thomas_pivot sys (Z.to_nat k).

(** Under diagonal dominance every pivot exceeds the entry right of it. *)
Lemma thomas_pivot_dominates :
  diag_dominant M sys ->
  forall k, (0 <= k < M)%Z ->
    Rabs (if (k <? M - 1)%Z then sup k else 0) < Rabs (piv k).
Proof.
  intros Hdom k [Hk0 HkM]. revert HkM. pattern k.
  apply row_ind; [| |exact Hk0]; clear k Hk0.
  - intros HM. specialize (Hdom 0%Z ltac:(lia)). simpl in Hdom.
    unfold piv; simpl. fold diag. fold sup.
    pose proof (Rabs_pos 0). rewrite Rabs_R0 in *.
    change (System.sup sys 0) with (sup 0%Z) in Hdom.
    change (System.diag sys 0) with (diag 0%Z) in Hdom. lra.
  - intros k Hk IH HkM. specialize (IH ltac:(lia)).
    replace (k <? M - 1)%Z with true in IH by lia.
    unfold piv. rewrite thomas_pivot_step by lia.
    replace (k + 1 - 1)%Z with k by lia. fold (piv k).
    specialize (Hdom (k + 1)%Z ltac:(lia)).
    replace (0 <? (k + 1)%Z)%Z with true in Hdom by lia.
    pose proof (Rabs_ratio_le (System.sub sys (k + 1)%Z) (piv k)
                  (System.sup sys k) IH) as Hr.
    pose proof (Rabs_triang_inv (System.diag sys (k + 1)%Z)
                  (System.sub sys (k + 1)%Z / piv k * System.sup sys k)) as Ht.
    unfold sup. lra.
Qed.

Lemma dominant_pivots_nonzero :
  diag_dominant M sys -> pivots_nonzero M sys.
Proof.
  intros Hdom k Hk E. pose proof (thomas_pivot_dominates Hdom k Hk) as H.
  unfold piv in H. rewrite E, Rabs_R0 in H.
  pose proof (Rabs_pos (if (k <? M - 1)%Z then sup k else 0)). lra.
Qed.

(** The forward sweep keeps the solutions: a solution of the system solves
    the upper bidiagonal system, and conversely. *)
Lemma solves_to_upper (y : Z -> Real) :
  pivots_nonzero M sys -> solves M sys y -> solves_upper M sys y.
Proof.
  intros Hp Hy k [Hk0 HkM]. revert HkM. pattern k.
  apply row_ind; [| |exact Hk0]; clear k Hk0.
  - intros HM. specialize (Hy 0%Z ltac:(lia)). unfold mulA in Hy.
    simpl in Hy. simpl. lra.
  - intros k Hk IH HkM. specialize (IH ltac:(lia)).
    replace (k <? M - 1)%Z with true in IH by lia.
    specialize (Hy (k + 1)%Z ltac:(lia)). unfold mulA in Hy.
    replace (0 <? (k + 1)%Z)%Z with true in Hy by lia.
    rewrite thomas_pivot_step, thomas_rhs_step by lia.
    replace (k + 1 - 1)%Z with k in * by lia.
    specialize (Hp k ltac:(lia)).
    rewrite <- Hy, <- IH. field. exact Hp.
Qed.

Lemma upper_to_solves (y : Z -> Real) :
  pivots_nonzero M sys -> solves_upper M sys y -> solves M sys y.
Proof.
  intros Hp Hy k Hk. unfold mulA.
  destruct (Z.eq_dec k 0) as [->|Hk0].
  - specialize (Hy 0%Z Hk). simpl in Hy. simpl. lra.
  - pose proof (Hy k Hk) as Hyk. pose proof (Hy (k - 1)%Z ltac:(lia)) as Hym.
    replace (k - 1 <? M - 1)%Z with true in Hym by lia.
    replace (k - 1 + 1)%Z with k in Hym by lia.
    rewrite thomas_pivot_step, thomas_rhs_step in Hyk by lia.
    replace (0 <? k)%Z with true by lia.
    specialize (Hp (k - 1)%Z ltac:(lia)).
    rewrite <- Hym in Hyk.
    assert (E : forall a b c d e f g p : R, p <> 0 ->
                (a - b / p * c) * d + e = f - b / p * (p * g + c * d) ->
                b * g + a * d + e = f).
    { intros a b c d e f g p Hpn E0.
      assert (E1 : (a - b / p * c) * d + e + b / p * (p * g + c * d)
                   = f) by lra.
      rewrite <- E1. field. exact Hpn. }
    eapply E; [exact Hp|exact Hyk].
Qed.

(** Back substitution yields the one solution of the bidiagonal system. *)
Lemma thomas_x_solves_upper :
  pivots_nonzero M sys -> solves_upper M sys (thomas_x sys M).
Proof.
  intros Hp k Hk. pose proof (Hp k Hk) as Hpk.
  destruct (Z.ltb_spec k (M - 1)) as [Hlt|Hge].
  - rewrite (thomas_x_step sys M k) by lia. field. exact Hpk.
  - replace k with (M - 1)%Z in * by lia.
    rewrite thomas_x_last. field. exact Hpk.
Qed.

Lemma solves_upper_unique (y : Z -> Real) :
  pivots_nonzero M sys -> solves_upper M sys y ->
  forall k, (0 <= k < M)%Z -> y k = thomas_x sys M k.
Proof.
  intros Hp Hy.
  assert (Hn : forall n : nat, (0 <= M - 1 - Z.of_nat n)%Z ->
             y (M - 1 - Z.of_nat n)%Z = thomas_x sys M (M - 1 - Z.of_nat n)).
  { induction n as [|n IH]; intros Hb.
    - replace (M - 1 - Z.of_nat 0)%Z with (M - 1)%Z in * by lia.
      rewrite thomas_x_last.
      specialize (Hy (M - 1)%Z ltac:(lia)).
      replace (M - 1 <? M - 1)%Z with false in Hy by lia.
      specialize (Hp (M - 1)%Z ltac:(lia)).
      rewrite <- Hy. field. exact Hp.
    - set (k := (M - 1 - Z.of_nat (Datatypes.S n))%Z) in *.
      rewrite (thomas_x_step sys M k) by lia.
      replace (k + 1)%Z with (M - 1 - Z.of_nat n)%Z by lia.
      rewrite <- IH by lia.
      specialize (Hy k ltac:(lia)).
      replace (k <? M - 1)%Z with true in Hy by lia.
      replace (k + 1)%Z with (M - 1 - Z.of_nat n)%Z in Hy by lia.
      specialize (Hp k ltac:(lia)).
      rewrite <- Hy. field. exact Hp. }
  intros k Hk. specialize (Hn (Z.to_nat (M - 1 - k))).
  replace (M - 1 - Z.of_nat (Z.to_nat (M - 1 - k)))%Z with k in Hn by lia.
  apply Hn. lia.
Qed.

(** Sequential elimination returns a solution, and the only one. *)
Lemma thomas_x_solves :
  pivots_nonzero M sys -> solves M sys (thomas_x sys M).
Proof.
  intros Hp. apply upper_to_solves; [exact Hp|].
  now apply thomas_x_solves_upper.
Qed.

Lemma thomas_x_unique (y : Z -> Real) :
  pivots_nonzero M sys -> solves M sys y ->
  forall k, (0 <= k < M)%Z -> thomas_x sys M k = y k.
Proof.
  intros Hp Hy k Hk. symmetry.
  apply solves_upper_unique; [exact Hp| |exact Hk].
  now apply solves_to_upper.
Qed.

End OneSystem.

Local Close Scope R_scope.

(** ** PCRSolver: the team rounds, row by row *)

Lemma shl_nonneg (ub n : Z) : 0 <= n -> shl ub 1 n = 2 ^ n.
Proof.
  intros Hn. unfold shl. replace (n <? 0) with false by lia.
  now rewrite Z.shiftl_1_l.
Qed.

(** After the write phase of a level every row of the team holds the locals
    of its member; nothing else changes. *)
Lemma PCRSolver_commit_rows (regs : Z -> PCRSolver.Regs) (NR : Z) (s : t) :
  let u := for_range 0 NR (PCRSolver.commit regs) s in
  NRow u = NRow s
  /\ (forall i v, rd (DL u) i v
                  = if (0 <=? i) && (i <? NR) && (v =? 0)
                    then PCRSolver.NewDL (regs i) else rd (DL s) i v)
  /\ (forall i v, rd (D u) i v
                  = if (0 <=? i) && (i <? NR) && (v =? 0)
                    then PCRSolver.NewD (regs i) else rd (D s) i v)
  /\ (forall i v, rd (DU u) i v
                  = if (0 <=? i) && (i <? NR) && (v =? 0)
                    then PCRSolver.NewDU (regs i) else rd (DU s) i v)
  /\ (forall i v, rd (X u) i v
                  = if (0 <=? i) && (i <? NR) && (v =? 0)
                    then PCRSolver.NewX (regs i) else rd (X s) i v).
Proof.
  destruct (Z_le_gt_dec 0 NR) as [Hle|Hgt].
  2:{ simpl. rewrite for_range_nil by lia.
      repeat split; intros i v;
        replace ((0 <=? i) && (i <? NR)) with false by lia; reflexivity. }
  apply (for_range_inv
           (fun K u =>
              NRow u = NRow s
              /\ (forall i v, rd (DL u) i v
                              = if (0 <=? i) && (i <? K) && (v =? 0)
                                then PCRSolver.NewDL (regs i)
                                else rd (DL s) i v)
              /\ (forall i v, rd (D u) i v
                              = if (0 <=? i) && (i <? K) && (v =? 0)
                                then PCRSolver.NewD (regs i)
                                else rd (D s) i v)
              /\ (forall i v, rd (DU u) i v
                              = if (0 <=? i) && (i <? K) && (v =? 0)
                                then PCRSolver.NewDU (regs i)
                                else rd (DU s) i v)
              /\ (forall i v, rd (X u) i v
                              = if (0 <=? i) && (i <? K) && (v =? 0)
                                then PCRSolver.NewX (regs i)
                                else rd (X s) i v))
           0 NR _ s Hle).
  - repeat split; intros i v;
      replace ((0 <=? i) && (i <? 0)) with false by lia; reflexivity.
  - intros k u Hk (HN & HDL & HD & HDU & HX).
    unfold PCRSolver.commit, setD, setX, setDL, setDU; simpl.
    repeat split; try assumption; intros i v; rewrite rd_wr;
      rewrite ?HDL, ?HD, ?HDU, ?HX;
      (destruct (Z.eqb_spec i k) as [->|Hik];
       [ replace ((0 <=? k) && (k <? k + 1)) with true by lia;
         replace ((0 <=? k) && (k <? k)) with false by lia;
         destruct (v =? 0); reflexivity
       | replace ((0 <=? i) && (i <? k + 1))
           with ((0 <=? i) && (i <? k)) by lia; reflexivity ]).
Qed.

(** One level of the team is one level of cyclic reduction on lane 0. *)
Lemma PCRSolver_level_lane (ub Lev : Z) (s : t) :
  1 <= Lev ->
  lane (PCRSolver.level ub (NRow s) Lev s) 0
  = pcr_level (NRow s) (2 ^ (Lev - 1)) (lane s 0).
Proof.
  intros HLev. unfold PCRSolver.level.
  destruct (PCRSolver_commit_rows
              (fun K => PCRSolver.reduce ub (NRow s) Lev K s) (NRow s) s)
    as (_ & HDL & HD & HDU & HX).
  unfold lane, pcr_level; simpl.
  f_equal; apply functional_extensionality; intro k;
    rewrite ?HDL, ?HD, ?HDU, ?HX; rewrite Z.eqb_refl, andb_true_r;
    unfold PCRSolver.reduce; rewrite shl_nonneg by lia; reflexivity.
Qed.

Lemma PCRSolver_level_NRow (ub NR Lev : Z) (s : t) :
  NRow (PCRSolver.level ub NR Lev s) = NRow s.
Proof.
  unfold PCRSolver.level.
  now destruct (PCRSolver_commit_rows
                  (fun K => PCRSolver.reduce ub NR Lev K s) NR s) as (HN & _).
Qed.

Lemma PCRSolver_levels_lane (ub L : Z) (s : t) :
  let u := for_range 1 L (PCRSolver.level ub (NRow s)) s in
  NRow u = NRow s /\ lane u 0 = pcr_levels (NRow s) L (lane s 0).
Proof.
  unfold pcr_levels. destruct (Z_le_gt_dec 1 L) as [Hle|Hgt].
  2:{ simpl. now rewrite !for_range_nil by lia. }
  apply (for_range_inv
           (fun K u =>
              NRow u = NRow s
              /\ lane u 0
                 = for_range 1 K (fun lev => pcr_level (NRow s) (2 ^ (lev - 1)))
                     (lane s 0))
           1 L _ s Hle).
  - now rewrite for_range_nil by lia.
  - intros k u Hk (HN & Hl). split.
    + now rewrite PCRSolver_level_NRow.
    + rewrite for_range_snoc by lia. rewrite <- Hl, <- HN.
      now apply PCRSolver_level_lane.
Qed.

(** [K < NRow / 2] tells the lower rows of the pairs from the upper ones. *)
Lemma half_lower (M S k : Z) :
  M <= 2 * S -> 0 <= k -> k + S < M -> (k <? M ÷ 2) = true.
Proof.
  intros HMS Hk Hlo. rewrite Z.quot_div_nonneg by lia.
  pose proof (Z.div_mod M 2 ltac:(lia)) as E.
  pose proof (Z.mod_pos_bound M 2 ltac:(lia)) as B.
  apply Z.ltb_lt. lia.
Qed.

Lemma half_upper (M S k : Z) :
  0 <= M -> M <= 2 * S -> S <= k -> (k <? M ÷ 2) = false.
Proof.
  intros HM HMS Hk. rewrite Z.quot_div_nonneg by lia.
  pose proof (Z.div_mod M 2 ltac:(lia)) as E.
  pose proof (Z.mod_pos_bound M 2 ltac:(lia)) as B.
  apply Z.ltb_ge. lia.
Qed.

(** The termination step: a row is settled once its member, or the member
    of its lower partner, has run. *)
Lemma PCRSolver_final_rows (M S : Z) (s : t) :
  1 <= S -> S < M -> M <= 2 * S ->
  let u := for_range 0 M (PCRSolver.final M S) s in
  forall k, 0 <= k < M -> rd (X u) k 0 = pcr_final M S (lane s 0) k.
Proof.
  intros HS HSM HMS.
  set (settled := fun K i => 0 <= i < K \/ (S <= i < M /\ i - S < K)).
  assert (Hinv :
    let u := for_range 0 M (PCRSolver.final M S) s in
    DL u = DL s /\ D u = D s /\ DU u = DU s
    /\ forall i, (settled M i -> rd (X u) i 0 = pcr_final M S (lane s 0) i)
                 /\ (~ settled M i -> rd (X u) i 0 = rd (X s) i 0)).
  { apply (for_range_inv
             (fun K u =>
                DL u = DL s /\ D u = D s /\ DU u = DU s
                /\ forall i,
                    (settled K i -> rd (X u) i 0 = pcr_final M S (lane s 0) i)
                    /\ (~ settled K i -> rd (X u) i 0 = rd (X s) i 0))
             0 M _ s ltac:(lia)).
    - repeat split; try reflexivity. unfold settled. intros; lia.
    - intros k u Hk (HDL & HD & HDU & HX). unfold PCRSolver.final.
      destruct (Z.ltb_spec (k + S) M) as [Hlo|Hnlo]; simpl.
      + (* lower row of a pair *)
        rewrite (half_lower M S k) by lia.
        unfold setX; simpl. repeat split; try assumption.
        * intros Hs. rewrite !rd_wr, HDL, HD, HDU.
          rewrite (proj2 (HX k)) by (unfold settled; lia).
          rewrite (proj2 (HX (k + S))) by (unfold settled; lia).
          destruct (Z.eqb_spec i (k + S)) as [->|Hi1]; simpl.
          { unfold pcr_final.
            replace ((0 <? S) && (k + S + S <? M)) with false by lia.
            replace ((0 <? S) && (0 <=? k + S - S)) with true by lia.
            replace (k + S - S) with k by lia. reflexivity. }
          destruct (Z.eqb_spec i k) as [->|Hi2]; simpl.
          { unfold pcr_final.
            replace ((0 <? S) && (k + S <? M)) with true by lia.
            reflexivity. }
          apply (proj1 (HX i)). unfold settled in *. lia.
        * intros Hs. rewrite !rd_wr.
          replace (i =? k + S) with false by (unfold settled in Hs; lia).
          replace (i =? k) with false by (unfold settled in Hs; lia).
          simpl. apply (proj2 (HX i)). unfold settled in *. lia.
      + destruct (Z.geb_spec (k - S) 0) as [Hup|Hnup]; simpl.
        * (* upper row of a pair: settled by its partner *)
          rewrite (half_upper M S k) by lia.
          repeat split; try assumption.
          -- intros Hs. apply (proj1 (HX i)). unfold settled in *. lia.
          -- intros Hs. apply (proj2 (HX i)). unfold settled in *. lia.
        * (* row without partner *)
          unfold setX; simpl. repeat split; try assumption.
          -- intros Hs. rewrite rd_wr, HD.
             destruct (Z.eqb_spec i k) as [->|Hi]; simpl.
             ++ rewrite (proj2 (HX k)) by (unfold settled; lia).
                unfold pcr_final.
                replace ((0 <? S) && (k + S <? M)) with false by lia.
                replace ((0 <? S) && (0 <=? k - S)) with false by lia.
                reflexivity.
             ++ apply (proj1 (HX i)). unfold settled in *. lia.
          -- intros Hs. rewrite rd_wr.
             replace (i =? k) with false by (unfold settled in Hs; lia).
             simpl. apply (proj2 (HX i)). unfold settled in *. lia. }
  simpl in Hinv. destruct Hinv as (_ & _ & _ & HX).
  intros u k Hk. apply (proj1 (HX k)). unfold settled. lia.
Qed.

(** For a system of two rows or more the team computes cyclic reduction. *)
Lemma PCRSolver_solve_rows (ub : Z) (s : t) (k : Z) :
  2 <= NRow s -> 0 <= k < NRow s ->
  rd (X (PCRSolver.solve ub s)) k 0 = pcr_x (NRow s) (lane s 0) k.
Proof.
  intros HM Hk. unfold PCRSolver.solve, pcr_x, ceil_log2.
  set (M := NRow s) in *. set (L := Z.log2_up M).
  destruct (PCRSolver_levels_lane ub L s) as (HN & Hl). fold M in HN, Hl.
  set (u := for_range 1 L (PCRSolver.level ub M) s) in *.
  destruct (Z.log2_up_spec M ltac:(lia)) as [Hlow Hup]. fold L in Hlow, Hup.
  assert (HL : 1 <= L).
  { unfold L. change 1 with (Z.log2_up 2). apply Z.log2_up_le_mono. lia. }
  rewrite shl_nonneg by lia. unfold Z.pred in Hlow.
  replace (L + -1) with (L - 1) in Hlow by lia.
  assert (H2 : 2 ^ L = 2 * 2 ^ (L - 1)).
  { replace L with (Z.succ (L - 1)) at 1 by lia. apply Z.pow_succ_r. lia. }
  assert (H1 : 1 <= 2 ^ (L - 1)).
  { pose proof (Z.pow_pos_nonneg 2 (L - 1) ltac:(lia) ltac:(lia)). lia. }
  rewrite <- Hl. apply PCRSolver_final_rows; lia.
Qed.

(** ** Cyclic reduction solves the system *)

Local Open Scope R_scope.

Lemma Rabs_ratio2_le (a p c e : R) :
  Rabs c + Rabs e < Rabs p ->
  Rabs (- a / p * c) + Rabs (- a / p * e) <= Rabs a.
Proof.
  intros Hlt.
  pose proof (Rabs_pos a) as Ha. pose proof (Rabs_pos c) as Hc.
  pose proof (Rabs_pos e) as He.
  assert (Hp : p <> 0).
  { intros ->. rewrite Rabs_R0 in Hlt. lra. }
  unfold Rdiv. rewrite !Rabs_mult, Rabs_inv, Rabs_Ropp.
  assert (HP : 0 < Rabs p) by lra.
  assert (Hq : 0 < / Rabs p) by now apply Rinv_0_lt_compat.
  assert (Hqp : / Rabs p * Rabs p = 1) by (field; lra).
  set (A := Rabs a) in *. set (C := Rabs c) in *. set (E := Rabs e) in *.
  set (P := Rabs p) in *. set (q := / P) in *.
  assert (H1 : 0 <= A * q) by nra.
  assert (H2 : 0 <= A * q * (P - (C + E))) by (apply Rmult_le_pos; lra).
  nra.
Qed.

Lemma rows_dominant_diag (M : Z) (sys : System.t) (k : Z) :
  rows_dominant M sys -> (0 <= k < M)%Z -> System.diag sys k <> 0.
Proof.
  intros Hdom Hk E. specialize (Hdom k Hk). rewrite E, Rabs_R0 in Hdom.
  pose proof (Rabs_pos (System.sub sys k)).
  pose proof (Rabs_pos (System.sup sys k)). lra.
Qed.

Lemma rows_dominant_init (M : Z) (sys : System.t) :
  (1 <= M)%Z -> zero_corners M sys -> diag_dominant M sys ->
  rows_dominant M sys.
Proof.
  intros HM [Hc0 HcM] Hdom k Hk. specialize (Hdom k Hk).
  destruct (Z.ltb_spec 0 k) as [H0|H0], (Z.ltb_spec k (M - 1)) as [H1|H1];
    try exact Hdom.
  - replace k with (M - 1)%Z in * by lia. now rewrite HcM.
  - replace k with 0%Z in * by lia. now rewrite Hc0.
  - replace k with 0%Z in * by lia. rewrite Hc0.
    replace 0%Z with (M - 1)%Z at 2 by lia. now rewrite HcM.
Qed.

Lemma pcr_inv_init (M : Z) (sys : System.t) (y : Z -> Real) :
  zero_corners M sys -> solves M sys y -> pcr_inv M 1 sys y.
Proof.
  intros [Hc0 HcM] Hy k Hk. specialize (Hy k Hk). unfold mulA in Hy.
  repeat split.
  - intros H. now replace k with 0%Z by lia.
  - intros H. now replace k with (M - 1)%Z by lia.
  - rewrite <- Hy.
    destruct (Z.ltb_spec 0 k) as [H0|H0], (Z.ltb_spec k (M - 1)) as [H1|H1];
      try reflexivity.
    + replace k with (M - 1)%Z at 5 by lia. rewrite HcM. ring.
    + replace k with 0%Z at 1 by lia. rewrite Hc0. ring.
    + replace k with 0%Z at 1 by lia. rewrite Hc0.
      replace k with (M - 1)%Z at 4 by lia. rewrite HcM. ring.
Qed.

(** A level keeps the rows dominant. *)
Lemma pcr_level_dominant (M h : Z) (sys : System.t) :
  (0 <= h)%Z -> rows_dominant M sys -> rows_dominant M (pcr_level M h sys).
Proof.
  intros Hh Hdom k Hk. unfold pcr_level; simpl.
  replace ((0 <=? k) && (k <? M))%Z with true by lia.
  set (m := if (k - h <? 0)%Z then 0%Z else (k - h)%Z).
  set (p := if (k + h >=? M)%Z then (M - 1)%Z else (k + h)%Z).
  assert (Hm : (0 <= m < M)%Z) by (unfold m; destruct (Z.ltb_spec (k - h) 0); lia).
  assert (Hp : (0 <= p < M)%Z) by (unfold p; destruct (Z.geb_spec (k + h) M); lia).
  pose proof (Hdom k Hk) as Dk. pose proof (Hdom m Hm) as Dm.
  pose proof (Hdom p Hp) as Dp.
  pose proof (Rabs_ratio2_le (System.sub sys k) (System.diag sys m)
                (System.sub sys m) (System.sup sys m) Dm) as B1.
  pose proof (Rabs_ratio2_le (System.sup sys k) (System.diag sys p)
                (System.sub sys p) (System.sup sys p) Dp) as B2.
  set (u := - System.sub sys k / System.diag sys m * System.sup sys m) in *.
  set (v := - System.sup sys k / System.diag sys p * System.sub sys p) in *.
  pose proof (Rabs_triang (System.diag sys k + u + v) (- u - v)) as T1.
  replace (System.diag sys k + u + v + (- u - v)) with (System.diag sys k)
    in T1 by ring.
  pose proof (Rabs_triang (- u) (- v)) as T2.
  replace (- u + - v) with (- u - v) in T2 by ring.
  rewrite !Rabs_Ropp in T2. lra.
Qed.

Lemma pcr_combine (a b c r am bm cm rm ap bp cp rp al ga : R)
  (Y2m Ym Y0 Yp Y2p : R) :
  al * bm = - a -> ga * bp = - c ->
  a * Ym + b * Y0 + c * Yp = r ->
  al * rm = al * am * Y2m + al * bm * Ym + al * cm * Y0 ->
  ga * rp = ga * ap * Y0 + ga * bp * Yp + ga * cp * Y2p ->
  al * am * Y2m + (b + al * cm + ga * ap) * Y0 + ga * cp * Y2p
  = r + al * rm + ga * rp.
Proof.
  intros H1 H2 H3 H4 H5. rewrite H4, H5, <- H3, H1, H2. ring.
Qed.

(** A level doubles the stride and keeps the solution. *)
Lemma pcr_level_inv (M h : Z) (sys : System.t) (y : Z -> Real) :
  (1 <= h)%Z -> rows_dominant M sys -> pcr_inv M h sys y ->
  pcr_inv M (2 * h) (pcr_level M h sys) y.
Proof.
  intros Hh Hdom Hinv k Hk. unfold pcr_level; simpl.
  replace ((0 <=? k) && (k <? M))%Z with true by lia.
  destruct (Hinv k Hk) as (Ia & Ic & Ek).
  set (m := if (k - h <? 0)%Z then 0%Z else (k - h)%Z).
  set (p := if (k + h >=? M)%Z then (M - 1)%Z else (k + h)%Z).
  assert (Hm : (0 <= m < M)%Z) by (unfold m; destruct (Z.ltb_spec (k - h) 0); lia).
  assert (Hp : (0 <= p < M)%Z) by (unfold p; destruct (Z.geb_spec (k + h) M); lia).
  pose proof (rows_dominant_diag M sys m Hdom Hm) as Dm.
  pose proof (rows_dominant_diag M sys p Hdom Hp) as Dp.
  set (al := - System.sub sys k / System.diag sys m).
  set (ga := - System.sup sys k / System.diag sys p).
  assert (A1 : al * System.diag sys m = - System.sub sys k)
    by (unfold al; field; exact Dm).
  assert (G1 : ga * System.diag sys p = - System.sup sys k)
    by (unfold ga; field; exact Dp).
  assert (A23 :
    al * System.rhs sys m
    = al * System.sub sys m * y (k - 2 * h)%Z
      + al * System.diag sys m * y (k - h)%Z + al * System.sup sys m * y k
    /\ ((k < 2 * h)%Z -> al * System.sub sys m = 0)).
  { unfold m in *. destruct (Z.ltb_spec (k - h) 0) as [Hlt|Hge].
    - assert (E0 : al = 0).
      { unfold al. rewrite (Ia ltac:(lia)). unfold Rdiv. ring. }
      rewrite E0. split; [ring|intros _; ring].
    - destruct (Hinv (k - h)%Z ltac:(lia)) as (Ja & _ & Em).
      replace (k - h - h)%Z with (k - 2 * h)%Z in Em by lia.
      replace (k - h + h)%Z with k in Em by lia.
      split.
      + rewrite <- Em. ring.
      + intros Hlt. rewrite (Ja ltac:(lia)). ring. }
  assert (G23 :
    ga * System.rhs sys p
    = ga * System.sub sys p * y k
      + ga * System.diag sys p * y (k + h)%Z
      + ga * System.sup sys p * y (k + 2 * h)%Z
    /\ ((M <= k + 2 * h)%Z -> ga * System.sup sys p = 0)).
  { unfold p in *. destruct (Z.geb_spec (k + h) M) as [Hge|Hlt].
    - assert (E0 : ga = 0).
      { unfold ga. rewrite (Ic ltac:(lia)). unfold Rdiv. ring. }
      rewrite E0. split; [ring|intros _; ring].
    - destruct (Hinv (k + h)%Z ltac:(lia)) as (_ & Jc & Ep).
      replace (k + h - h)%Z with k in Ep by lia.
      replace (k + h + h)%Z with (k + 2 * h)%Z in Ep by lia.
      split.
      + rewrite <- Ep. ring.
      + intros Hle. rewrite (Jc ltac:(lia)). ring. }
  destruct A23 as [A2 A3]. destruct G23 as [G2 G3].
  repeat split.
  - exact A3.
  - exact G3.
  - apply (pcr_combine (System.sub sys k) (System.diag sys k)
             (System.sup sys k) (System.rhs sys k)
             (System.sub sys m) (System.diag sys m) (System.sup sys m)
             (System.rhs sys m)
             (System.sub sys p) (System.diag sys p) (System.sup sys p)
             (System.rhs sys p) al ga
             (y (k - 2 * h)%Z) (y (k - h)%Z) (y k) (y (k + h)%Z)
             (y (k + 2 * h)%Z)); assumption.
Qed.

(** At the last stride every row is in a pair or alone, and the direct
    solution returns the unknowns. *)
Lemma pcr_final_solves (M S : Z) (sys : System.t) (y : Z -> Real) :
  (1 <= S)%Z -> (M <= 2 * S)%Z ->
  rows_dominant M sys -> pcr_inv M S sys y ->
  forall k, (0 <= k < M)%Z -> pcr_final M S sys k = y k.
Proof.
  intros HS HMS Hdom Hinv.
  assert (Hpair : forall k, (0 <= k)%Z -> (k + S < M)%Z ->
            pcr_pair_lo sys k S = y k /\ pcr_pair_hi sys k S = y (k + S)%Z).
  { intros k Hk0 Hlo.
    destruct (Hinv k ltac:(lia)) as (Ia & _ & Ek).
    destruct (Hinv (k + S)%Z ltac:(lia)) as (_ & Jc & Ep).
    rewrite (Ia ltac:(lia)) in Ek. rewrite (Jc ltac:(lia)) in Ep.
    replace (k + S - S)%Z with k in Ep by lia.
    pose proof (Hdom k ltac:(lia)) as Dk.
    pose proof (Hdom (k + S)%Z ltac:(lia)) as Dp.
    rewrite (Ia ltac:(lia)), Rabs_R0 in Dk.
    rewrite (Jc ltac:(lia)), Rabs_R0 in Dp.
    assert (Hdet : pcr_det sys k S <> 0).
    { unfold pcr_det. intros E.
      assert (E' : System.diag sys k * System.diag sys (k + S)
                   = System.sub sys (k + S) * System.sup sys k) by lra.
      apply (f_equal Rabs) in E'. rewrite !Rabs_mult in E'.
      pose proof (Rabs_pos (System.sup sys k)).
      pose proof (Rabs_pos (System.sub sys (k + S))).
      nra. }
    unfold pcr_pair_lo, pcr_pair_hi. rewrite <- Ek, <- Ep.
    unfold pcr_det in *. split; field; exact Hdet. }
  intros k Hk. unfold pcr_final.
  replace (0 <? S)%Z with true by lia. simpl.
  destruct (Z.ltb_spec (k + S) M) as [Hlo|Hnlo].
  - apply Hpair; lia.
  - destruct (Z.leb_spec 0 (k - S)) as [Hup|Hnup].
    + destruct (Hpair (k - S)%Z ltac:(lia) ltac:(lia)) as [_ E].
      now replace (k - S + S)%Z with k in E by lia.
    + destruct (Hinv k Hk) as (Ia & Ic & Ek).
      rewrite (Ia ltac:(lia)), (Ic ltac:(lia)) in Ek.
      pose proof (rows_dominant_diag M sys k Hdom Hk) as Dk.
      rewrite <- Ek. field. exact Dk.
Qed.

(** Cyclic reduction returns the solution of a dominant system whose stored
    diagonals are zero outside the matrix. *)
Lemma pcr_x_unique (M : Z) (sys : System.t) (y : Z -> Real) :
  (2 <= M)%Z -> zero_corners M sys -> diag_dominant M sys ->
  solves M sys y ->
  forall k, (0 <= k < M)%Z -> pcr_x M sys k = y k.
Proof.
  intros HM Hc Hdom Hy. unfold pcr_x. set (L := Z.log2_up M).
  destruct (Z.log2_up_spec M ltac:(lia)) as [Hlow Hup]. fold L in Hlow, Hup.
  assert (HL : (1 <= L)%Z).
  { unfold L. change 1%Z with (Z.log2_up 2). apply Z.log2_up_le_mono. lia. }
  unfold Z.pred in Hlow. replace (L + -1)%Z with (L - 1)%Z in Hlow by lia.
  assert (H2 : (2 ^ L = 2 * 2 ^ (L - 1))%Z).
  { replace L with (Z.succ (L - 1)) at 1 by lia. apply Z.pow_succ_r. lia. }
  assert (Hlev :
    rows_dominant M (pcr_levels M L sys)
    /\ pcr_inv M (2 ^ (L - 1)) (pcr_levels M L sys) y).
  { unfold pcr_levels.
    apply (for_range_inv
             (fun lev t => rows_dominant M t /\ pcr_inv M (2 ^ (lev - 1)) t y)
             1%Z L _ sys HL).
    - split.
      + apply rows_dominant_init; [lia|assumption|assumption].
      + simpl. now apply pcr_inv_init.
    - intros lev t Hlev [Hd Hi].
      assert (Hpos : (1 <= 2 ^ (lev - 1))%Z).
      { pose proof (Z.pow_pos_nonneg 2 (lev - 1) ltac:(lia) ltac:(lia)). lia. }
      split.
      + apply pcr_level_dominant; [lia|exact Hd].
      + replace (lev + 1 - 1)%Z with (Z.succ (lev - 1)) by lia.
        rewrite Z.pow_succ_r by lia.
        apply pcr_level_inv; assumption. }
  destruct Hlev as [Hd Hi].
  assert (H1 : (1 <= 2 ^ (L - 1))%Z).
  { pose proof (Z.pow_pos_nonneg 2 (L - 1) ltac:(lia) ltac:(lia)). lia. }
  apply pcr_final_solves; try assumption. lia.
Qed.

Local Close Scope R_scope.

(** ** ThomasDiffusionSolver: lanes and row recurrences *)

Ltac dlane_step :=
  match goal with
  | |- context [?j =? ?v] =>
      destruct (Z.eqb_spec j v) as [->|?];
      unfold TD.alpha0, TD.alpha_step, TD.first_row, TD.forward, TD.last_row,
        TD.backward, only_dlane, DS.setG, DS.setH, DS.setX, DS.setAlpha;
      simpl; f_equal; lane_ext; unfold only, wr, rd; eqb_cases
  end.

Lemma only_dlane_alpha0 (v j : Z) (s : DS.t) :
  only_dlane j (TD.alpha0 v s)
  = if j =? v then TD.alpha0 j (only_dlane j s) else only_dlane j s.
Proof. dlane_step. Qed.

Lemma only_dlane_alpha_step (K v j : Z) (s : DS.t) :
  only_dlane j (TD.alpha_step K v s)
  = if j =? v then TD.alpha_step K j (only_dlane j s) else only_dlane j s.
Proof. dlane_step. Qed.

Lemma only_dlane_first_row (v j : Z) (s : DS.t) :
  only_dlane j (TD.first_row v s)
  = if j =? v then TD.first_row j (only_dlane j s) else only_dlane j s.
Proof. dlane_step. Qed.

Lemma only_dlane_forward (K v j : Z) (s : DS.t) :
  only_dlane j (TD.forward K v s)
  = if j =? v then TD.forward K j (only_dlane j s) else only_dlane j s.
Proof. dlane_step. Qed.

Lemma only_dlane_last_row (NR v j : Z) (s : DS.t) :
  only_dlane j (TD.last_row NR v s)
  = if j =? v then TD.last_row NR j (only_dlane j s) else only_dlane j s.
Proof. dlane_step. Qed.

Lemma only_dlane_backward (K v j : Z) (s : DS.t) :
  only_dlane j (TD.backward K v s)
  = if j =? v then TD.backward K j (only_dlane j s) else only_dlane j s.
Proof. dlane_step. Qed.

Lemma ThomasDiffusionSolver_solve_lane (VecLength j : Z) (s : DS.t) :
  0 <= j < VecLength ->
  only_dlane j (TD.solve VecLength s) = thomas_diff_lane j (only_dlane j s).
Proof.
  intros Hj. unfold TD.solve, thomas_diff_lane.
  assert (Hin : (0 <=? j) && (j <? VecLength) = true) by lia.
  rewrite (for_down_proj (only_dlane j) _ _ _ (fun K => TD.backward K j)).
  2:{ intros k u _. rewrite (lanes_loop only_dlane).
      - now rewrite Hin.
      - intros. apply only_dlane_backward. }
  f_equal. rewrite (lanes_loop only_dlane).
  2:{ intros. apply only_dlane_last_row. }
  rewrite Hin. simpl DS.NRow. f_equal.
  rewrite (for_range_proj (only_dlane j) _ _ _ (fun K => TD.forward K j)).
  2:{ intros k u _. rewrite (lanes_loop only_dlane).
      - now rewrite Hin.
      - intros. apply only_dlane_forward. }
  f_equal. rewrite (lanes_loop only_dlane).
  2:{ intros. apply only_dlane_first_row. }
  rewrite Hin. f_equal.
  rewrite (for_range_proj (only_dlane j) _ _ _ (fun K => TD.alpha_step K j)).
  2:{ intros k u _. rewrite (lanes_loop only_dlane).
      - now rewrite Hin.
      - intros. apply only_dlane_alpha_step. }
  f_equal. rewrite (lanes_loop only_dlane).
  2:{ intros. apply only_dlane_alpha0. }
  now rewrite Hin.
Qed.

Lemma diff_alpha_step (d : DiffSystem.t) (k : Z) :
  1 <= k ->
  diff_alpha d (Z.to_nat k)
  = (DiffSystem.g d (k - 1)
     * (DiffSystem.h d (k - 1) + diff_alpha d (Z.to_nat (k - 1)))
     / (DiffSystem.h d (k - 1) + diff_alpha d (Z.to_nat (k - 1))
        + DiffSystem.g d (k - 1)))%R.
Proof.
  intros Hk.
  replace (Z.to_nat k) with (Datatypes.S (Z.to_nat (k - 1))) by lia.
  cbn [diff_alpha].
  replace (Z.of_nat (Z.to_nat (k - 1))) with (k - 1) by lia.
  reflexivity.
Qed.

Lemma diff_rhs_step (d : DiffSystem.t) (k : Z) :
  1 <= k ->
  diff_rhs d (Z.to_nat k)
  = (DiffSystem.rhs d k
     + DiffSystem.g d (k - 1) / diff_h d (k - 1)
       * diff_rhs d (Z.to_nat (k - 1)))%R.
Proof.
  intros Hk.
  replace (Z.to_nat k) with (Datatypes.S (Z.to_nat (k - 1))) by lia.
  cbn [diff_rhs].
  replace (Z.of_nat (Datatypes.S (Z.to_nat (k - 1)))) with k by lia.
  replace (Z.of_nat (Z.to_nat (k - 1))) with (k - 1) by lia.
  reflexivity.
Qed.

Lemma diff_x_last (d : DiffSystem.t) (M : Z) :
  diff_x d M (M - 1)
  = (diff_rhs d (Z.to_nat (M - 1)) / diff_h d (M - 1))%R.
Proof.
  unfold diff_x. replace (Z.to_nat (M - 1 - (M - 1))) with O by lia.
  reflexivity.
Qed.

Lemma diff_x_step (d : DiffSystem.t) (M k : Z) :
  k < M - 1 ->
  diff_x d M k
  = ((diff_rhs d (Z.to_nat k) + DiffSystem.g d k * diff_x d M (k + 1))
     / diff_h d k)%R.
Proof.
  intros Hk. unfold diff_x.
  replace (Z.to_nat (M - 1 - k))
    with (Datatypes.S (Z.to_nat (M - 1 - (k + 1)))) by lia.
  cbn [diff_back].
  replace (M - 1 - Z.of_nat (Datatypes.S (Z.to_nat (M - 1 - (k + 1)))))
    with k by lia.
  reflexivity.
Qed.

Ltac in_rows b := replace b with true by lia.
Ltac out_rows b := replace b with false by lia.

(** The auxiliary values of lane [j] when the first sweep has reached row
    [K]. *)
Lemma thomas_diff_alpha_rows (j : Z) (s : DS.t) (K : Z) :
  1 <= K ->
  let u := for_range 1 K (fun K => TD.alpha_step K j) (TD.alpha0 j s) in
  DS.NRow u = DS.NRow s /\ DS.G u = DS.G s /\ DS.H u = DS.H s
  /\ DS.X u = DS.X s
  /\ (forall i, rd (DS.Alpha u) i j
                = if (0 <=? i) && (i <? K)
                  then diff_alpha (dlane s j) (Z.to_nat i)
                  else rd (DS.Alpha s) i j).
Proof.
  intros HK.
  apply (for_range_inv
           (fun K u =>
              DS.NRow u = DS.NRow s /\ DS.G u = DS.G s /\ DS.H u = DS.H s
              /\ DS.X u = DS.X s
              /\ (forall i, rd (DS.Alpha u) i j
                            = if (0 <=? i) && (i <? K)
                              then diff_alpha (dlane s j) (Z.to_nat i)
                              else rd (DS.Alpha s) i j))
           1 K _ (TD.alpha0 j s) HK).
  - unfold TD.alpha0, DS.setAlpha; simpl. repeat split. intros i.
    rewrite rd_wr, Z.eqb_refl, andb_true_r.
    destruct (Z.eqb_spec i 0) as [->|Hi]; [reflexivity|].
    out_rows ((0 <=? i) && (i <? 1)). reflexivity.
  - intros k u Hk (HN & HG & HH & HX & HA).
    unfold TD.alpha_step, DS.setAlpha; simpl.
    repeat split; try assumption. intros i. rewrite rd_wr, Z.eqb_refl.
    rewrite andb_true_r.
    destruct (Z.eqb_spec i k) as [->|Hik].
    + in_rows ((0 <=? k) && (k <? k + 1)).
      rewrite diff_alpha_step by lia. rewrite HG, HH, HA.
      in_rows ((0 <=? k - 1) && (k - 1 <? k)). reflexivity.
    + rewrite HA.
      replace ((0 <=? i) && (i <? k + 1)) with ((0 <=? i) && (i <? k)) by lia.
      reflexivity.
Qed.

(** Capacities and right-hand sides of lane [j] when the second sweep has
    reached row [K]; [u1] is the scratch after the first sweep. *)
Lemma thomas_diff_forward_rows (j : Z) (s u1 : DS.t) (K : Z) :
  1 <= K ->
  DS.G u1 = DS.G s -> DS.H u1 = DS.H s -> DS.X u1 = DS.X s ->
  (forall i, 0 <= i < K ->
             rd (DS.Alpha u1) i j = diff_alpha (dlane s j) (Z.to_nat i)) ->
  let u := for_range 1 K (fun K => TD.forward K j) (TD.first_row j u1) in
  DS.NRow u = DS.NRow u1 /\ DS.G u = DS.G s /\ DS.Alpha u = DS.Alpha u1
  /\ (forall i, rd (DS.H u) i j
                = if (0 <=? i) && (i <? K)
                  then diff_h (dlane s j) i else rd (DS.H s) i j)
  /\ (forall i, rd (DS.X u) i j
                = if (0 <=? i) && (i <? K)
                  then diff_rhs (dlane s j) (Z.to_nat i)
                  else rd (DS.X s) i j).
Proof.
  intros HK HG1 HH1 HX1 HA1.
  assert (Hgen : forall K', 1 <= K' <= K ->
    let u := for_range 1 K' (fun K => TD.forward K j) (TD.first_row j u1) in
    DS.NRow u = DS.NRow u1 /\ DS.G u = DS.G s /\ DS.Alpha u = DS.Alpha u1
    /\ (forall i, rd (DS.H u) i j
                  = if (0 <=? i) && (i <? K')
                    then diff_h (dlane s j) i else rd (DS.H s) i j)
    /\ (forall i, rd (DS.X u) i j
                  = if (0 <=? i) && (i <? K')
                    then diff_rhs (dlane s j) (Z.to_nat i)
                    else rd (DS.X s) i j)).
  { intros K' HK'.
    apply (for_range_inv
             (fun K' u =>
                1 <= K' <= K ->
                DS.NRow u = DS.NRow u1 /\ DS.G u = DS.G s
                /\ DS.Alpha u = DS.Alpha u1
                /\ (forall i, rd (DS.H u) i j
                              = if (0 <=? i) && (i <? K')
                                then diff_h (dlane s j) i
                                else rd (DS.H s) i j)
                /\ (forall i, rd (DS.X u) i j
                              = if (0 <=? i) && (i <? K')
                                then diff_rhs (dlane s j) (Z.to_nat i)
                                else rd (DS.X s) i j))
             1 K' _ (TD.first_row j u1) ltac:(lia)); [| |exact HK'].
    - intros _. unfold TD.first_row, DS.setH; simpl.
      repeat split; try assumption; intros i.
      + rewrite rd_wr, Z.eqb_refl, andb_true_r.
        destruct (Z.eqb_spec i 0) as [->|Hi].
        * simpl. unfold diff_h, dlane; simpl. rewrite HH1, HG1.
          unfold rd. ring.
        * out_rows ((0 <=? i) && (i <? 1)). now rewrite HH1.
      + rewrite HX1. destruct (Z.eq_dec i 0) as [->|Hi]; [reflexivity|].
        out_rows ((0 <=? i) && (i <? 1)). reflexivity.
    - intros k u Hk IH Hk1.
      destruct (IH ltac:(lia)) as (HN & HG & HA & HH & HX).
      unfold TD.forward, DS.setH, DS.setX; simpl.
      repeat split; try assumption; intros i; rewrite !rd_wr, Z.eqb_refl;
        rewrite ?andb_true_r.
      + destruct (Z.eqb_spec i k) as [->|Hik].
        * in_rows ((0 <=? k) && (k <? k + 1)).
          rewrite HH, HA, HG, HA1 by lia.
          out_rows ((0 <=? k) && (k <? k)). reflexivity.
        * rewrite HH.
          replace ((0 <=? i) && (i <? k + 1))
            with ((0 <=? i) && (i <? k)) by lia.
          reflexivity.
      + destruct (Z.eqb_spec i k) as [->|Hik].
        * in_rows ((0 <=? k) && (k <? k + 1)).
          rewrite diff_rhs_step by lia.
          replace (k - 1 =? k) with false by lia. simpl.
          rewrite !HX, HG, HH.
          out_rows ((0 <=? k) && (k <? k)).
          in_rows ((0 <=? k - 1) && (k - 1 <? k)). reflexivity.
        * rewrite HX.
          replace ((0 <=? i) && (i <? k + 1))
            with ((0 <=? i) && (i <? k)) by lia.
          reflexivity. }
  apply Hgen. lia.
Qed.

(** Lane [j] after the sequential diffusion solver. *)
Lemma thomas_diff_lane_rows (j : Z) (s : DS.t) :
  1 <= DS.NRow s ->
  let w := thomas_diff_lane j s in
  DS.G w = DS.G s
  /\ forall k, 0 <= k < DS.NRow s ->
       rd (DS.Alpha w) k j = diff_alpha (dlane s j) (Z.to_nat k)
       /\ rd (DS.H w) k j = diff_h (dlane s j) k
       /\ rd (DS.X w) k j = diff_x (dlane s j) (DS.NRow s) k.
Proof.
  intros HM. unfold thomas_diff_lane.
  set (M := DS.NRow s) in *.
  destruct (thomas_diff_alpha_rows j s M HM) as (HN1 & HG1 & HH1 & HX1 & HA1).
  set (u1 := for_range 1 M (fun K => TD.alpha_step K j) (TD.alpha0 j s)) in *.
  assert (HA1' : forall i, 0 <= i < M ->
            rd (DS.Alpha u1) i j = diff_alpha (dlane s j) (Z.to_nat i)).
  { intros i Hi. rewrite HA1. in_rows ((0 <=? i) && (i <? M)). reflexivity. }
  destruct (thomas_diff_forward_rows j s u1 M HM HG1 HH1 HX1 HA1')
    as (HN3 & HG3 & HA3 & HH3 & HX3).
  set (u3 := for_range 1 M (fun K => TD.forward K j) (TD.first_row j u1)) in *.
  assert (Hinv :
    let w := for_down (M - 2) 0 (fun K => TD.backward K j)
               (TD.last_row M j u3) in
    DS.G w = DS.G u3 /\ DS.H w = DS.H u3 /\ DS.Alpha w = DS.Alpha u3
    /\ forall i, rd (DS.X w) i j
                 = if (0 <=? i) && (i <? M)
                   then diff_x (dlane s j) M i else rd (DS.X u3) i j).
  { apply (for_down_inv
             (fun lo w =>
                DS.G w = DS.G u3 /\ DS.H w = DS.H u3
                /\ DS.Alpha w = DS.Alpha u3
                /\ forall i, rd (DS.X w) i j
                             = if (lo <=? i) && (i <? M)
                               then diff_x (dlane s j) M i
                               else rd (DS.X u3) i j)
             (M - 2) 0).
    - lia.
    - replace (M - 2 + 1) with (M - 1) by lia.
      unfold TD.last_row, DS.setX; simpl.
      repeat split. intros i. rewrite rd_wr, Z.eqb_refl, andb_true_r.
      destruct (Z.eqb_spec i (M - 1)) as [->|Hi].
      + in_rows ((M - 1 <=? M - 1) && (M - 1 <? M)).
        rewrite diff_x_last, HX3, HH3.
        in_rows ((0 <=? M - 1) && (M - 1 <? M)). reflexivity.
      + out_rows ((M - 1 <=? i) && (i <? M)). reflexivity.
    - intros r w Hr (HwG & HwH & HwA & HwX).
      unfold TD.backward, DS.setX; simpl.
      repeat split; try assumption. intros i.
      rewrite rd_wr, Z.eqb_refl, andb_true_r.
      destruct (Z.eqb_spec i r) as [->|Hi].
      + in_rows ((r <=? r) && (r <? M)).
        rewrite diff_x_step by lia.
        rewrite HwG, HwH, HG3, HH3, !HwX, HX3.
        out_rows ((r + 1 <=? r) && (r <? M)).
        in_rows ((r + 1 <=? r + 1) && (r + 1 <? M)).
        in_rows ((0 <=? r) && (r <? M)). reflexivity.
      + rewrite HwX.
        replace ((r <=? i) && (i <? M)) with ((r + 1 <=? i) && (i <? M)) by lia.
        reflexivity. }
  simpl in Hinv. destruct Hinv as (HwG & HwH & HwA & HwX).
  simpl. split; [now rewrite HwG|].
  intros k Hk. repeat split.
  - now rewrite HwA, HA3, HA1'.
  - rewrite HwH, HH3. in_rows ((0 <=? k) && (k <? M)). reflexivity.
  - rewrite HwX. in_rows ((0 <=? k) && (k <? M)). reflexivity.
Qed.

Lemma dlane_only_dlane (j : Z) (s : DS.t) : dlane (only_dlane j s) j = dlane s j.
Proof.
  unfold dlane, only_dlane, only, rd; simpl.
  f_equal; apply functional_extensionality; intro K; now rewrite Z.eqb_refl.
Qed.

(** The vectorised diffusion solver computes, in every lane of the group,
    the recurrences of the sequential diffusion solver. *)
Lemma ThomasDiffusionSolver_solve_rows (VecLength j : Z) (s : DS.t) (k : Z) :
  0 <= j < VecLength -> 1 <= DS.NRow s -> 0 <= k < DS.NRow s ->
  let w := TD.solve VecLength s in
  rd (DS.G w) k j = rd (DS.G s) k j
  /\ rd (DS.Alpha w) k j = diff_alpha (dlane s j) (Z.to_nat k)
  /\ rd (DS.H w) k j = diff_h (dlane s j) k
  /\ rd (DS.X w) k j = diff_x (dlane s j) (DS.NRow s) k.
Proof.
  intros Hj HM Hk w.
  assert (Eo : forall A i, rd (only j A) i j = rd A i j).
  { intros A i. unfold only, rd. now rewrite Z.eqb_refl. }
  pose proof (ThomasDiffusionSolver_solve_lane VecLength j s Hj) as El.
  fold w in El.
  destruct (thomas_diff_lane_rows j (only_dlane j s) HM) as (HG & Hrows).
  destruct (Hrows k Hk) as (HA & HH & HX).
  rewrite <- El in HG, HA, HH, HX. rewrite dlane_only_dlane in HA, HH, HX.
  simpl in HG, HA, HH, HX. rewrite Eo in HA, HH, HX.
  repeat split; try assumption.
  rewrite <- (Eo (DS.G w)), HG. apply Eo.
Qed.

(** ** The diffusion recurrences are the elimination of the explicit form *)

Local Open Scope R_scope.

Section DiffusionAsElimination.
Variable M : Z.
Variable d : DiffSystem.t.
Hypothesis Hpiv : pivots_nonzero M (explicit_form d).

Lemma diff_h_pivot :
  forall k, (0 <= k < M)%Z ->
    diff_h d k = thomas_pivot (explicit_form d) (Z.to_nat k).
Proof.
  intros k [Hk0 HkM]. revert HkM. pattern k.
  apply row_ind; [| |exact Hk0]; clear k Hk0.
  - intros _. unfold diff_h; simpl. ring.
  - intros k Hk IH HkM. specialize (IH ltac:(lia)).
    pose proof (Hpiv k ltac:(lia)) as Hp. rewrite <- IH in Hp.
    rewrite thomas_pivot_step by lia.
    replace (k + 1 - 1)%Z with k by lia. rewrite <- IH.
    unfold diff_h in *. rewrite diff_alpha_step by lia.
    replace (k + 1 - 1)%Z with k by lia.
    unfold explicit_form, explicit_at; simpl.
    replace (k + 1 - 1 <? 0)%Z with false by lia.
    replace (k + 1 - 1)%Z with k by lia.
    set (a := diff_alpha d (Z.to_nat k)) in *.
    field. intros E. apply Hp. lra.
Qed.

Lemma diff_rhs_elim :
  forall k, (0 <= k < M)%Z ->
    diff_rhs d (Z.to_nat k) = thomas_rhs (explicit_form d) (Z.to_nat k).
Proof.
  intros k [Hk0 HkM]. revert HkM. pattern k.
  apply row_ind; [| |exact Hk0]; clear k Hk0.
  - intros _. reflexivity.
  - intros k Hk IH HkM. specialize (IH ltac:(lia)).
    pose proof (Hpiv k ltac:(lia)) as Hp.
    rewrite thomas_rhs_step, diff_rhs_step by lia.
    replace (k + 1 - 1)%Z with k by lia.
    rewrite IH, diff_h_pivot by lia.
    unfold explicit_form, explicit_at; simpl.
    replace (k + 1 - 1 <? 0)%Z with false by lia.
    replace (k + 1 - 1)%Z with k by lia.
    field. exact Hp.
Qed.

Lemma diff_x_elim :
  forall k, (0 <= k < M)%Z ->
    diff_x d M k = thomas_x (explicit_form d) M k.
Proof.
  assert (Hn : forall n : nat, (0 <= M - 1 - Z.of_nat n)%Z ->
             diff_x d M (M - 1 - Z.of_nat n)
             = thomas_x (explicit_form d) M (M - 1 - Z.of_nat n)).
  { induction n as [|n IH]; intros Hb.
    - replace (M - 1 - Z.of_nat 0)%Z with (M - 1)%Z in * by lia.
      rewrite thomas_x_last, diff_x_last.
      rewrite diff_rhs_elim, diff_h_pivot by lia. reflexivity.
    - set (k := (M - 1 - Z.of_nat (Datatypes.S n))%Z) in *.
      rewrite (thomas_x_step _ M k), (diff_x_step _ M k) by lia.
      replace (k + 1)%Z with (M - 1 - Z.of_nat n)%Z by lia.
      rewrite IH by lia. rewrite diff_rhs_elim, diff_h_pivot by lia.
      pose proof (Hpiv k ltac:(lia)) as Hp.
      unfold explicit_form, explicit_at; simpl. field. exact Hp. }
  intros k Hk. specialize (Hn (Z.to_nat (M - 1 - k))).
  replace (M - 1 - Z.of_nat (Z.to_nat (M - 1 - k)))%Z with k in Hn by lia.
  apply Hn. lia.
Qed.

End DiffusionAsElimination.

(** Positive capacities and non-negative couplings make the explicit form
    diagonally dominant. *)
Lemma positive_diffusion_dominant (M : Z) (d : DiffSystem.t) :
  (forall k, (0 <= k < M)%Z -> 0 < DiffSystem.h d k /\ 0 <= DiffSystem.g d k) ->
  diag_dominant M (explicit_form d).
Proof.
  intros Hpos k Hk. unfold explicit_form, explicit_at; simpl.
  destruct (Hpos k Hk) as [Hh Hg].
  destruct (Z.ltb_spec 0 k) as [H0|H0].
  - replace (k - 1 <? 0)%Z with false by lia.
    destruct (Hpos (k - 1)%Z ltac:(lia)) as [_ Hg1].
    rewrite Rabs_Ropp, (Rabs_pos_eq (DiffSystem.g d (k - 1))) by exact Hg1.
    rewrite (Rabs_pos_eq (_ + _ + _)) by lra.
    destruct (k <? M - 1)%Z.
    + rewrite Rabs_Ropp, Rabs_pos_eq by exact Hg. lra.
    + rewrite Rabs_R0. lra.
  - replace (k - 1 <? 0)%Z with true by lia. rewrite Rabs_R0.
    rewrite (Rabs_pos_eq (_ + _ + _)) by lra.
    destruct (k <? M - 1)%Z.
    + rewrite Rabs_Ropp, Rabs_pos_eq by exact Hg. lra.
    + rewrite Rabs_R0. lra.
Qed.

Local Close Scope R_scope.

(** ** PCRDiffusionSolver: the team rounds, row by row *)

Lemma PCRDiffusionSolver_commit_rows (regs : Z -> PD.Regs) (NR : Z)
  (s : DS.t) :
  let u := for_range 0 NR (PD.commit regs) s in
  DS.NRow u = DS.NRow s
  /\ (forall i v, rd (DS.G u) i v
                  = if (0 <=? i) && (i <? NR) && (v =? 0)
                    then PD.NewG (regs i) else rd (DS.G s) i v)
  /\ (forall i v, rd (DS.H u) i v
                  = if (0 <=? i) && (i <? NR) && (v =? 0)
                    then PD.NewH (regs i) else rd (DS.H s) i v)
  /\ (forall i v, rd (DS.X u) i v
                  = if (0 <=? i) && (i <? NR) && (v =? 0)
                    then PD.NewX (regs i) else rd (DS.X s) i v).
Proof.
  destruct (Z_le_gt_dec 0 NR) as [Hle|Hgt].
  2:{ simpl. rewrite for_range_nil by lia.
      repeat split; intros i v;
        replace ((0 <=? i) && (i <? NR)) with false by lia; reflexivity. }
  apply (for_range_inv
           (fun K u =>
              DS.NRow u = DS.NRow s
              /\ (forall i v, rd (DS.G u) i v
                              = if (0 <=? i) && (i <? K) && (v =? 0)
                                then PD.NewG (regs i) else rd (DS.G s) i v)
              /\ (forall i v, rd (DS.H u) i v
                              = if (0 <=? i) && (i <? K) && (v =? 0)
                                then PD.NewH (regs i) else rd (DS.H s) i v)
              /\ (forall i v, rd (DS.X u) i v
                              = if (0 <=? i) && (i <? K) && (v =? 0)
                                then PD.NewX (regs i) else rd (DS.X s) i v))
           0 NR _ s Hle).
  - repeat split; intros i v;
      replace ((0 <=? i) && (i <? 0)) with false by lia; reflexivity.
  - intros k u Hk (HN & HG & HH & HX).
    unfold PD.commit, DS.setG, DS.setH, DS.setX; simpl.
    repeat split; try assumption; intros i v; rewrite rd_wr;
      rewrite ?HG, ?HH, ?HX;
      (destruct (Z.eqb_spec i k) as [->|Hik];
       [ replace ((0 <=? k) && (k <? k + 1)) with true by lia;
         replace ((0 <=? k) && (k <? k)) with false by lia;
         destruct (v =? 0); reflexivity
       | replace ((0 <=? i) && (i <? k + 1))
           with ((0 <=? i) && (i <? k)) by lia; reflexivity ]).
Qed.

Lemma shl_double (ub Lev : Z) :
  1 <= Lev -> shl ub 1 Lev = 2 * 2 ^ (Lev - 1).
Proof.
  intros HL. rewrite shl_nonneg by lia.
  replace Lev with (Z.succ (Lev - 1)) at 1 by lia. apply Z.pow_succ_r. lia.
Qed.

Lemma PCRDiffusionSolver_level_lane (ub Lev : Z) (s : DS.t) :
  1 <= Lev ->
  dlane (PD.level ub (DS.NRow s) Lev s) 0
  = pcrd_level (DS.NRow s) (2 ^ (Lev - 1)) (dlane s 0).
Proof.
  intros HLev. unfold PD.level.
  destruct (PCRDiffusionSolver_commit_rows
              (fun K => PD.reduce ub (DS.NRow s) Lev K s) (DS.NRow s) s)
    as (_ & HG & HH & HX).
  unfold dlane, pcrd_level; simpl.
  f_equal; apply functional_extensionality; intro k;
    rewrite ?HG, ?HH, ?HX; rewrite Z.eqb_refl, andb_true_r;
    unfold PD.reduce; rewrite ?(shl_double ub Lev) by lia;
    rewrite ?(shl_nonneg ub (Lev - 1)) by lia; reflexivity.
Qed.

Lemma PCRDiffusionSolver_level_NRow (ub NR Lev : Z) (s : DS.t) :
  DS.NRow (PD.level ub NR Lev s) = DS.NRow s.
Proof.
  unfold PD.level.
  now destruct (PCRDiffusionSolver_commit_rows
                  (fun K => PD.reduce ub NR Lev K s) NR s) as (HN & _).
Qed.

Lemma PCRDiffusionSolver_levels_lane (ub L : Z) (s : DS.t) :
  let u := for_range 1 L (PD.level ub (DS.NRow s)) s in
  DS.NRow u = DS.NRow s /\ dlane u 0 = pcrd_levels (DS.NRow s) L (dlane s 0).
Proof.
  unfold pcrd_levels. destruct (Z_le_gt_dec 1 L) as [Hle|Hgt].
  2:{ simpl. now rewrite !for_range_nil by lia. }
  apply (for_range_inv
           (fun K u =>
              DS.NRow u = DS.NRow s
              /\ dlane u 0
                 = for_range 1 K
                     (fun lev => pcrd_level (DS.NRow s) (2 ^ (lev - 1)))
                     (dlane s 0))
           1 L _ s Hle).
  - now rewrite for_range_nil by lia.
  - intros k u Hk (HN & Hl). split.
    + now rewrite PCRDiffusionSolver_level_NRow.
    + rewrite for_range_snoc by lia. rewrite <- Hl, <- HN.
      now apply PCRDiffusionSolver_level_lane.
Qed.

Lemma PCRDiffusionSolver_final_rows (M S : Z) (s : DS.t) :
  1 <= S -> S < M -> M <= 2 * S ->
  let u := for_range 0 M (PD.final M S) s in
  forall k, 0 <= k < M -> rd (DS.X u) k 0 = pcrd_final M S (dlane s 0) k.
Proof.
  intros HS HSM HMS.
  set (settled := fun K i => 0 <= i < K \/ (S <= i < M /\ i - S < K)).
  assert (Hinv :
    let u := for_range 0 M (PD.final M S) s in
    DS.G u = DS.G s /\ DS.H u = DS.H s
    /\ forall i, (settled M i -> rd (DS.X u) i 0 = pcrd_final M S (dlane s 0) i)
                 /\ (~ settled M i -> rd (DS.X u) i 0 = rd (DS.X s) i 0)).
  { apply (for_range_inv
             (fun K u =>
                DS.G u = DS.G s /\ DS.H u = DS.H s
                /\ forall i,
                    (settled K i
                     -> rd (DS.X u) i 0 = pcrd_final M S (dlane s 0) i)
                    /\ (~ settled K i -> rd (DS.X u) i 0 = rd (DS.X s) i 0))
             0 M _ s ltac:(lia)).
    - repeat split; try reflexivity. unfold settled. intros; lia.
    - intros k u Hk (HG & HH & HX). unfold PD.final.
      destruct (Z.ltb_spec (k + S) M) as [Hlo|Hnlo]; simpl.
      + rewrite (half_lower M S k) by lia.
        unfold DS.setX; simpl. repeat split; try assumption.
        * intros Hs. rewrite !rd_wr, HG, HH.
          rewrite (proj2 (HX k)) by (unfold settled; lia).
          rewrite (proj2 (HX (k + S))) by (unfold settled; lia).
          destruct (Z.eqb_spec i (k + S)) as [->|Hi1]; simpl.
          { unfold pcrd_final.
            replace ((0 <? S) && (k + S + S <? M)) with false by lia.
            replace ((0 <? S) && (0 <=? k + S - S)) with true by lia.
            replace (k + S - S) with k by lia. reflexivity. }
          destruct (Z.eqb_spec i k) as [->|Hi2]; simpl.
          { unfold pcrd_final.
            replace ((0 <? S) && (k + S <? M)) with true by lia.
            reflexivity. }
          apply (proj1 (HX i)). unfold settled in *. lia.
        * intros Hs. rewrite !rd_wr.
          replace (i =? k + S) with false by (unfold settled in Hs; lia).
          replace (i =? k) with false by (unfold settled in Hs; lia).
          simpl. apply (proj2 (HX i)). unfold settled in *. lia.
      + destruct (Z.geb_spec (k - S) 0) as [Hup|Hnup]; simpl.
        * rewrite (half_upper M S k) by lia.
          repeat split; try assumption.
          -- intros Hs. apply (proj1 (HX i)). unfold settled in *. lia.
          -- intros Hs. apply (proj2 (HX i)). unfold settled in *. lia.
        * unfold DS.setX; simpl. repeat split; try assumption.
          -- intros Hs. rewrite rd_wr, HG, HH.
             destruct (Z.eqb_spec i k) as [->|Hi]; simpl.
             ++ rewrite (proj2 (HX k)) by (unfold settled; lia).
                unfold pcrd_final.
                replace ((0 <? S) && (k + S <? M)) with false by lia.
                replace ((0 <? S) && (0 <=? k - S)) with false by lia.
                reflexivity.
             ++ apply (proj1 (HX i)). unfold settled in *. lia.
          -- intros Hs. rewrite rd_wr.
             replace (i =? k) with false by (unfold settled in Hs; lia).
             simpl. apply (proj2 (HX i)). unfold settled in *. lia. }
  simpl in Hinv. destruct Hinv as (_ & _ & HX).
  intros u k Hk. apply (proj1 (HX k)). unfold settled. lia.
Qed.

Lemma PCRDiffusionSolver_solve_rows (ub : Z) (s : DS.t) (k : Z) :
  2 <= DS.NRow s -> 0 <= k < DS.NRow s ->
  rd (DS.X (PD.solve ub s)) k 0 = pcrd_x (DS.NRow s) (dlane s 0) k.
Proof.
  intros HM Hk. unfold PD.solve, pcrd_x, ceil_log2.
  set (M := DS.NRow s) in *. set (L := Z.log2_up M).
  destruct (PCRDiffusionSolver_levels_lane ub L s) as (HN & Hl).
  fold M in HN, Hl.
  set (u := for_range 1 L (PD.level ub M) s) in *.
  destruct (Z.log2_up_spec M ltac:(lia)) as [Hlow Hup]. fold L in Hlow, Hup.
  assert (HL : 1 <= L).
  { unfold L. change 1 with (Z.log2_up 2). apply Z.log2_up_le_mono. lia. }
  rewrite shl_nonneg by lia. unfold Z.pred in Hlow.
  replace (L + -1) with (L - 1) in Hlow by lia.
  assert (H2 : 2 ^ L = 2 * 2 ^ (L - 1)).
  { replace L with (Z.succ (L - 1)) at 1 by lia. apply Z.pow_succ_r. lia. }
  assert (H1 : 1 <= 2 ^ (L - 1)).
  { pose proof (Z.pow_pos_nonneg 2 (L - 1) ltac:(lia) ltac:(lia)). lia. }
  rewrite <- Hl. apply PCRDiffusionSolver_final_rows; lia.
Qed.

(** ** Cyclic reduction of a diffusion system is cyclic reduction of its
    explicit form *)

Lemma same_rows_trans (M : Z) (s1 s2 s3 : System.t) :
  same_rows M s1 s2 -> same_rows M s2 s3 -> same_rows M s1 s3.
Proof.
  intros H12 H23 k Hk.
  destruct (H12 k Hk) as (A1 & A2 & A3 & A4).
  destruct (H23 k Hk) as (B1 & B2 & B3 & B4).
  repeat split; congruence.
Qed.

Lemma rows_dominant_same (M : Z) (s1 s2 : System.t) :
  same_rows M s1 s2 -> rows_dominant M s2 -> rows_dominant M s1.
Proof.
  intros Hs Hd k Hk. destruct (Hs k Hk) as (A1 & A2 & A3 & _).
  rewrite A1, A2, A3. now apply Hd.
Qed.

Lemma pcr_level_same_rows (M h : Z) (s1 s2 : System.t) :
  0 <= h -> same_rows M s1 s2 ->
  same_rows M (pcr_level M h s1) (pcr_level M h s2).
Proof.
  intros Hh Hs k Hk. unfold pcr_level; simpl.
  in_rows ((0 <=? k) && (k <? M)).
  set (m := if k - h <? 0 then 0 else k - h).
  set (p := if k + h >=? M then M - 1 else k + h).
  assert (Hm : 0 <= m < M) by (unfold m; destruct (Z.ltb_spec (k - h) 0); lia).
  assert (Hp : 0 <= p < M) by (unfold p; destruct (Z.geb_spec (k + h) M); lia).
  destruct (Hs k Hk) as (A1 & A2 & A3 & A4).
  destruct (Hs m Hm) as (B1 & B2 & B3 & B4).
  destruct (Hs p Hp) as (C1 & C2 & C3 & C4).
  rewrite A1, A2, A3, A4, B1, B2, B3, B4, C1, C2, C3, C4.
  repeat split.
Qed.

Lemma pcr_final_same_rows (M S : Z) (s1 s2 : System.t) :
  same_rows M s1 s2 ->
  forall k, 0 <= k < M -> pcr_final M S s1 k = pcr_final M S s2 k.
Proof.
  intros Hs k Hk. unfold pcr_final.
  destruct (Z.ltb_spec 0 S) as [HS|HS]; simpl.
  - destruct (Z.ltb_spec (k + S) M) as [Hlo|Hnlo].
    + destruct (Hs k Hk) as (A1 & A2 & A3 & A4).
      destruct (Hs (k + S) ltac:(lia)) as (B1 & B2 & B3 & B4).
      unfold pcr_pair_lo, pcr_det. now rewrite A2, A3, A4, B1, B2, B4.
    + destruct (Z.leb_spec 0 (k - S)) as [Hup|Hnup].
      * destruct (Hs (k - S) ltac:(lia)) as (A1 & A2 & A3 & A4).
        unfold pcr_pair_hi, pcr_det.
        replace (k - S + S) with k by lia.
        destruct (Hs k Hk) as (B1 & B2 & B3 & B4).
        now rewrite A2, A3, A4, B1, B2, B4.
      * destruct (Hs k Hk) as (A1 & A2 & A3 & A4). now rewrite A2, A4.
  - destruct (Hs k Hk) as (A1 & A2 & A3 & A4). now rewrite A2, A4.
Qed.

Lemma pcrd_final_explicit (M S : Z) (d : DiffSystem.t) :
  forall k, 0 <= k < M ->
    pcrd_final M S d k = pcr_final M S (explicit_at S d) k.
Proof.
  intros k Hk. unfold pcrd_final, pcr_final.
  destruct (Z.ltb_spec 0 S) as [HS|HS]; simpl; [|reflexivity].
  destruct (Z.ltb_spec (k + S) M) as [Hlo|Hnlo].
  - unfold pcrd_pair_lo, pcr_pair_lo, pcr_det, pcrd_diag, explicit_at; simpl.
    replace (k + S - S) with k by lia.
    replace (k <? 0) with false by lia. reflexivity.
  - destruct (Z.leb_spec 0 (k - S)) as [Hup|Hnup]; [|reflexivity].
    unfold pcrd_pair_hi, pcr_pair_hi, pcr_det, pcrd_diag, explicit_at; simpl.
    replace (k - S + S - S) with (k - S) by lia.
    replace (k - S <? 0) with false by lia. reflexivity.
Qed.

Local Open Scope R_scope.

Ltac decide_tests :=
  repeat match goal with
    | |- context [(?a <? ?b)%Z] =>
        first [ replace (a <? b)%Z with true by lia
              | replace (a <? b)%Z with false by lia ]
    | |- context [(?a <=? ?b)%Z] =>
        first [ replace (a <=? b)%Z with true by lia
              | replace (a <=? b)%Z with false by lia ]
    | |- context [(?a >=? ?b)%Z] =>
        first [ replace (a >=? b)%Z with true by lia
              | replace (a >=? b)%Z with false by lia ]
    end; cbn [andb].

Ltac decide_tests_in H :=
  repeat match type of H with
    | context [(?a <? ?b)%Z] =>
        first [ replace (a <? b)%Z with true in H by lia
              | replace (a <? b)%Z with false in H by lia ]
    end.

Ltac field_with Dm Dp :=
  first
    [ ring
    | field; repeat split;
      first [ assumption
            | let E := fresh "E" in intros E; apply Dm; lra
            | let E := fresh "E" in intros E; apply Dp; lra ] ].

(** One level on the couplings is one level on the explicit form; the
    couplings that would reach beyond the last row stay zero. *)
Lemma pcrd_level_explicit (M h : Z) (d : DiffSystem.t) :
  (1 <= h)%Z ->
  (forall k, (0 <= k < M)%Z -> (M <= k + h)%Z -> DiffSystem.g d k = 0) ->
  (forall k, (0 <= k < M)%Z -> System.diag (explicit_at h d) k <> 0) ->
  same_rows M (explicit_at (2 * h) (pcrd_level M h d))
    (pcr_level M h (explicit_at h d))
  /\ (forall k, (0 <= k < M)%Z -> (M <= k + 2 * h)%Z ->
                DiffSystem.g (pcrd_level M h d) k = 0).
Proof.
  intros Hh Hz Hnz. split.
  - intros k Hk.
    assert (Ck : (k < h \/ (h <= k < 2 * h) \/ 2 * h <= k)%Z) by lia.
    assert (Cp : (M <= k + h \/ k + h < M)%Z) by lia.
    assert (Dm : (h <= k)%Z -> System.diag (explicit_at h d) (k - h) <> 0)
      by (intros; apply Hnz; lia).
    assert (Dp : (k + h < M)%Z -> System.diag (explicit_at h d) (k + h) <> 0)
      by (intros; apply Hnz; lia).
    unfold pcr_level, pcrd_level, explicit_at in *;
    cbn [System.sub System.diag System.sup System.rhs
         DiffSystem.g DiffSystem.h DiffSystem.rhs] in *.
    destruct Ck as [Ck|[Ck|Ck]], Cp as [Cp|Cp]; decide_tests;
      try (specialize (Dm ltac:(lia)); decide_tests_in Dm);
      try (specialize (Dp ltac:(lia)); decide_tests_in Dp);
      try rewrite (Hz k Hk Cp);
      replace (k - 2 * h + h)%Z with (k - h)%Z in * by lia;
      replace (k - h - h)%Z with (k - 2 * h)%Z in * by lia;
      replace (k + h - h)%Z with k in * by lia;
      unfold Rdiv; rewrite ?Ropp_0, ?Rmult_0_l;
      repeat split; field_with Dm Dp.
  - intros k Hk Hend.
    unfold pcrd_level; cbn [DiffSystem.g].
    in_rows ((0 <=? k) && (k <? M))%Z.
    destruct (Z.geb_spec (k + h) M) as [Hge|Hlt].
    + rewrite (Hz k Hk ltac:(lia)). unfold Rdiv. ring.
    + rewrite (Hz (k + h)%Z ltac:(lia) ltac:(lia)). ring.
Qed.

(** The row-parallel diffusion solver computes cyclic reduction of the
    explicit form, when no coupling leaves the last row. *)
Lemma pcrd_x_explicit (M : Z) (d : DiffSystem.t) :
  (2 <= M)%Z -> DiffSystem.g d (M - 1) = 0 ->
  diag_dominant M (explicit_form d) ->
  forall k, (0 <= k < M)%Z -> pcrd_x M d k = pcr_x M (explicit_form d) k.
Proof.
  intros HM Hg Hdom. unfold pcrd_x, pcr_x. set (L := Z.log2_up M).
  assert (HL : (1 <= L)%Z).
  { unfold L. change 1%Z with (Z.log2_up 2). apply Z.log2_up_le_mono. lia. }
  assert (Hc : zero_corners M (explicit_form d)).
  { split; unfold explicit_form, explicit_at; cbn [System.sub System.sup].
    - reflexivity.
    - rewrite Hg. ring. }
  assert (Hlev :
    same_rows M (explicit_at (2 ^ (L - 1)) (pcrd_levels M L d))
      (pcr_levels M L (explicit_form d))
    /\ rows_dominant M (pcr_levels M L (explicit_form d))
    /\ (forall k, (0 <= k < M)%Z -> (M <= k + 2 ^ (L - 1))%Z ->
                  DiffSystem.g (pcrd_levels M L d) k = 0)).
  { unfold pcrd_levels, pcr_levels.
    apply (for_range_inv
             (fun lev t =>
                same_rows M (explicit_at (2 ^ (lev - 1)) t)
                  (for_range 1 lev (fun lev => pcr_level M (2 ^ (lev - 1)))
                     (explicit_form d))
                /\ rows_dominant M
                     (for_range 1 lev (fun lev => pcr_level M (2 ^ (lev - 1)))
                        (explicit_form d))
                /\ (forall k, (0 <= k < M)%Z -> (M <= k + 2 ^ (lev - 1))%Z ->
                              DiffSystem.g t k = 0))
             1%Z L _ d HL).
    - rewrite for_range_nil by lia. split; [|split].
      + intros k Hk. repeat split.
      + apply rows_dominant_init; [lia|assumption|assumption].
      + intros k Hk Hend. simpl in Hend.
        now replace k with (M - 1)%Z by lia.
    - intros lev t Hlev (Hs & Hd & Hz).
      assert (Hpos : (1 <= 2 ^ (lev - 1))%Z).
      { pose proof (Z.pow_pos_nonneg 2 (lev - 1) ltac:(lia) ltac:(lia)). lia. }
      rewrite for_range_snoc by lia.
      replace (lev + 1 - 1)%Z with (Z.succ (lev - 1)) by lia.
      rewrite Z.pow_succ_r by lia.
      destruct (pcrd_level_explicit M (2 ^ (lev - 1)) t Hpos Hz) as [Hs' Hz'].
      { intros k Hk. destruct (Hs k Hk) as (_ & E & _). rewrite E.
        now apply (rows_dominant_diag M). }
      split; [|split].
      + eapply same_rows_trans; [exact Hs'|].
        apply pcr_level_same_rows; [lia|exact Hs].
      + apply pcr_level_dominant; [lia|exact Hd].
      + exact Hz'. }
  destruct Hlev as (Hs & _ & _).
  intros k Hk. rewrite pcrd_final_explicit by exact Hk.
  now apply pcr_final_same_rows.
Qed.

Local Close Scope R_scope.

(** ** Systems of one row *)

(** With one row there is no reduction level and the last stride is
    [1 << -1].  When that is not positive, the member takes the branch of the
    paired rows and, not being a lower row, leaves the scratch as it is. *)
Lemma PCRSolver_solve_one_row (ub : Z) (s : t) :
  NRow s = 1 -> ub <= 0 -> PCRSolver.solve ub s = s.
Proof.
  intros HM Hub. unfold PCRSolver.solve. rewrite HM.
  change (ceil_log2 1) with 0.
  rewrite (for_range_nil 1 0) by lia.
  rewrite (for_range_one 0). unfold PCRSolver.final, shl.
  change (0 - 1 <? 0) with true. cbv iota.
  replace ((0 + ub <? 1) || (0 - ub >=? 0)) with true by lia.
  reflexivity.
Qed.

Lemma PCRSolver_solve_one_row_pos (ub : Z) (s : t) :
  NRow s = 1 -> 1 <= ub ->
  PCRSolver.solve ub s = setX s 0 0 (rd (X s) 0 0 / rd (D s) 0 0)%R.
Proof.
  intros HM Hub. unfold PCRSolver.solve. rewrite HM.
  change (ceil_log2 1) with 0.
  rewrite (for_range_nil 1 0) by lia.
  rewrite (for_range_one 0). unfold PCRSolver.final, shl.
  change (0 - 1 <? 0) with true. cbv iota.
  replace ((0 + ub <? 1) || (0 - ub >=? 0)) with false by lia.
  reflexivity.
Qed.

Lemma PCRDiffusionSolver_solve_one_row (ub : Z) (s : DS.t) :
  DS.NRow s = 1 -> ub <= 0 -> PD.solve ub s = s.
Proof.
  intros HM Hub. unfold PD.solve. rewrite HM.
  change (ceil_log2 1) with 0.
  rewrite (for_range_nil 1 0) by lia.
  rewrite (for_range_one 0). unfold PD.final, shl.
  change (0 - 1 <? 0) with true. cbv iota.
  replace ((0 + ub <? 1) || (0 - ub >=? 0)) with true by lia.
  reflexivity.
Qed.

Lemma PCRDiffusionSolver_solve_one_row_pos (ub : Z) (s : DS.t) :
  DS.NRow s = 1 -> 1 <= ub ->
  PD.solve ub s
  = DS.setX s 0 0
      (rd (DS.X s) 0 0 / (rd (DS.H s) 0 0 + 0 + rd (DS.G s) 0 0))%R.
Proof.
  intros HM Hub. unfold PD.solve. rewrite HM.
  change (ceil_log2 1) with 0.
  rewrite (for_range_nil 1 0) by lia.
  rewrite (for_range_one 0). unfold PD.final, shl.
  change (0 - 1 <? 0) with true. cbv iota.
  replace ((0 + ub <? 1) || (0 - ub >=? 0)) with false by lia.
  replace (0 - ub <? 0) with true by lia.
  reflexivity.
Qed.

Lemma ThomasSolver_solve_one_row (VecLength j : Z) (s : t) :
  NRow s = 1 -> 0 <= j < VecLength ->
  rd (X (ThomasSolver.solve VecLength s)) 0 j
  = (rd (X s) 0 j / rd (D s) 0 j)%R.
Proof.
  intros HM Hj. rewrite ThomasSolver_solve_rows by lia.
  rewrite HM. reflexivity.
Qed.

(** * The properties of the specification *)

Ltac eval_rows :=
  cbv -[Rplus Rminus Rmult Rdiv Ropp Rinv IZR Rabs Rlt Rle Rgt Rge].

Ltac abs_lra :=
  unfold Rabs; repeat destruct Rcase_abs; lra.

Ltac rows3 k Hk :=
  assert (k = 0 \/ k = 1 \/ k = 2) as [->|[->| ->]] by lia.

Ltac rows4 k Hk :=
  assert (k = 0 \/ k = 1 \/ k = 2 \/ k = 3) as [->|[->|[->| ->]]] by lia.

Lemma scenario4_dominant (j : Z) : diag_dominant 4 (lane scenario4 j).
Proof. intros k Hk. rows4 k Hk; eval_rows; abs_lra. Qed.

Lemma scenario4_corners (j : Z) : zero_corners 4 (lane scenario4 j).
Proof. split; reflexivity. Qed.

Lemma scenario4_rhs (j : Z) : solves 4 (lane scenario4 j) (fun _ => 1%R).
Proof. intros k Hk. rows4 k Hk; eval_rows; lra. Qed.

(** C1 (as amended).  Round trip: when the right-hand side of a diagonally
    dominant system of [M >= 1] rows is [A * y], ThomasSolver overwrites it
    with [y] in every lane; PCRSolver does so for [M >= 2] rows when the
    stored diagonals are zero outside the matrix ([sub[0] = 0],
    [super[M-1] = 0]). *)
Theorem solve_recovers_solution (VecLength ub j : Z) (s : t) (y : Z -> Real) :
  0 <= j < VecLength -> 1 <= NRow s ->
  diag_dominant (NRow s) (lane s j) ->
  solves (NRow s) (lane s j) y ->
  (forall k, 0 <= k < NRow s ->
             rd (X (ThomasSolver.solve VecLength s)) k j = y k)
  /\ (j = 0 -> 2 <= NRow s -> zero_corners (NRow s) (lane s 0) ->
      forall k, 0 <= k < NRow s -> rd (X (PCRSolver.solve ub s)) k 0 = y k).
Proof.
  intros Hj HM Hdom Hy. split.
  - intros k Hk. rewrite ThomasSolver_solve_rows by assumption.
    apply thomas_x_unique; try assumption.
    now apply dominant_pivots_nonzero.
  - intros -> HM2 Hc k Hk. rewrite PCRSolver_solve_rows by assumption.
    now apply pcr_x_unique.
Qed.

Lemma solve_recovers_solution_witness :
  (forall k, 0 <= k < 4 ->
             rd (X (ThomasSolver.solve 8 scenario4)) k 0 = 1%R)
  /\ (forall k, 0 <= k < 4 -> rd (X (PCRSolver.solve 0 scenario4)) k 0 = 1%R).
Proof.
  destruct (solve_recovers_solution 8 0 0 scenario4 (fun _ => 1%R))
    as [HT HP].
  - lia.
  - simpl; lia.
  - apply scenario4_dominant.
  - apply scenario4_rhs.
  - split.
    + exact HT.
    + apply HP; [reflexivity|simpl; lia|apply scenario4_corners].
Defined.

Lemma corner3_dominant : diag_dominant 3 (lane corner3 0).
Proof. intros k Hk. rows3 k Hk; eval_rows; abs_lra. Qed.

Lemma corner3_rhs : solves 3 (lane corner3 0) (fun _ => 1%R).
Proof. intros k Hk. rows3 k Hk; eval_rows; lra. Qed.

Lemma single1_dominant : diag_dominant 1 (lane single1 0).
Proof.
  intros k Hk. replace k with 0 by lia. eval_rows. abs_lra.
Qed.

Lemma single1_rhs : solves 1 (lane single1 0) (fun _ => 1%R).
Proof. intros k Hk. replace k with 0 by lia. eval_rows. lra. Qed.

(** C1, as stated, fails for PCRSolver: on the dominant system [corner3],
    whose right-hand side is [A * (1, 1, 1)], the first unknown comes out as
    [9/13], because the solver reads the stored [sub[0] = 1]; and on the
    one-row system [2 * x = 2] the right-hand side is left as it is. *)
Lemma roundtrip_counterexample :
  (diag_dominant 3 (lane corner3 0)
   /\ solves 3 (lane corner3 0) (fun _ => 1%R)
   /\ forall ub, rd (X (PCRSolver.solve ub corner3)) 0 0 = (9 / 13)%R)
  /\ (diag_dominant 1 (lane single1 0)
      /\ solves 1 (lane single1 0) (fun _ => 1%R)
      /\ forall ub, ub <= 0 -> rd (X (PCRSolver.solve ub single1)) 0 0 = 2%R).
Proof.
  split; repeat split.
  - apply corner3_dominant.
  - apply corner3_rhs.
  - intros ub. eval_rows. field.
  - apply single1_dominant.
  - apply single1_rhs.
  - intros ub Hub. now rewrite PCRSolver_solve_one_row.
Qed.

Lemma explicit_scratch_lane (sd : DS.t) (j : Z) :
  lane (explicit_scratch sd) j = explicit_form (dlane sd j).
Proof. reflexivity. Qed.

(** The sequential pair on one diffusion system. *)
Lemma thomas_diffusion_explicit (VecLength j : Z) (sd : DS.t) (k : Z) :
  0 <= j < VecLength -> 1 <= DS.NRow sd ->
  diag_dominant (DS.NRow sd) (explicit_form (dlane sd j)) ->
  0 <= k < DS.NRow sd ->
  rd (DS.X (TD.solve VecLength sd)) k j
  = rd (X (ThomasSolver.solve VecLength (explicit_scratch sd))) k j.
Proof.
  intros Hj HM Hdom Hk.
  destruct (ThomasDiffusionSolver_solve_rows VecLength j sd k Hj HM Hk)
    as (_ & _ & _ & HX).
  rewrite HX. rewrite ThomasSolver_solve_rows by assumption.
  rewrite explicit_scratch_lane. simpl NRow.
  apply diff_x_elim; [|exact Hk]. now apply dominant_pivots_nonzero.
Qed.

(** The row-parallel pair on one diffusion system. *)
Lemma pcr_diffusion_explicit (ub : Z) (sd : DS.t) (k : Z) :
  1 <= DS.NRow sd ->
  rd (DS.G sd) (DS.NRow sd - 1) 0 = 0%R ->
  diag_dominant (DS.NRow sd) (explicit_form (dlane sd 0)) ->
  0 <= k < DS.NRow sd ->
  rd (DS.X (PD.solve ub sd)) k 0
  = rd (X (PCRSolver.solve ub (explicit_scratch sd))) k 0.
Proof.
  intros HM Hg Hdom Hk.
  destruct (Z.eq_dec (DS.NRow sd) 1) as [H1|H1].
  - replace k with 0 by lia.
    destruct (Z_le_gt_dec ub 0) as [Hub|Hub].
    + rewrite PCRDiffusionSolver_solve_one_row by assumption.
      rewrite PCRSolver_solve_one_row by assumption. reflexivity.
    + rewrite PCRDiffusionSolver_solve_one_row_pos by lia.
      rewrite PCRSolver_solve_one_row_pos by (simpl; lia). reflexivity.
  - rewrite PCRDiffusionSolver_solve_rows by lia.
    rewrite PCRSolver_solve_rows by (simpl; lia).
    rewrite explicit_scratch_lane. simpl NRow.
    apply pcrd_x_explicit; try assumption. lia.
Qed.

(** The general pair on one system. *)
Lemma thomas_pcr_agree (VecLength ub : Z) (s : t) (k : Z) :
  0 < VecLength -> 2 <= NRow s ->
  zero_corners (NRow s) (lane s 0) -> diag_dominant (NRow s) (lane s 0) ->
  0 <= k < NRow s ->
  rd (X (ThomasSolver.solve VecLength s)) k 0
  = rd (X (PCRSolver.solve ub s)) k 0.
Proof.
  intros HV HM Hc Hdom Hk.
  rewrite ThomasSolver_solve_rows by lia.
  rewrite PCRSolver_solve_rows by assumption. symmetry.
  apply pcr_x_unique; try assumption.
  apply thomas_x_solves. now apply dominant_pivots_nonzero.
Qed.

Lemma explicit_scratch_corners (sd : DS.t) :
  rd (DS.G sd) (DS.NRow sd - 1) 0 = 0%R ->
  zero_corners (DS.NRow sd) (lane (explicit_scratch sd) 0).
Proof.
  intros Hg. split.
  - reflexivity.
  - unfold lane, explicit_scratch; simpl. unfold rd in *. rewrite Hg. ring.
Qed.

(** C2 (as amended).  The lane-parallel and the row-parallel solver of a
    family return the same solution for a diagonally dominant system of
    [M >= 2] rows: ThomasSolver and PCRSolver when the stored diagonals are
    zero outside the matrix, ThomasDiffusionSolver and PCRDiffusionSolver
    when the last coupling [G(M-1)] is zero. *)
Theorem backends_agree (VecLength ub : Z) (s : t) (sd : DS.t) :
  0 < VecLength ->
  (2 <= NRow s ->
   zero_corners (NRow s) (lane s 0) -> diag_dominant (NRow s) (lane s 0) ->
   forall k, 0 <= k < NRow s ->
     rd (X (ThomasSolver.solve VecLength s)) k 0
     = rd (X (PCRSolver.solve ub s)) k 0)
  /\ (2 <= DS.NRow sd ->
      rd (DS.G sd) (DS.NRow sd - 1) 0 = 0%R ->
      diag_dominant (DS.NRow sd) (explicit_form (dlane sd 0)) ->
      forall k, 0 <= k < DS.NRow sd ->
        rd (DS.X (TD.solve VecLength sd)) k 0
        = rd (DS.X (PD.solve ub sd)) k 0).
Proof.
  intros HV. split.
  - intros HM Hc Hdom k Hk. now apply thomas_pcr_agree.
  - intros HM Hg Hdom k Hk.
    rewrite thomas_diffusion_explicit by (try assumption; lia).
    rewrite pcr_diffusion_explicit by (try assumption; lia).
    apply thomas_pcr_agree; try assumption.
    + now apply explicit_scratch_corners.
Qed.

Lemma closed4_dominant (j : Z) :
  diag_dominant 4 (explicit_form (dlane closed4 j)).
Proof. intros k Hk. rows4 k Hk; eval_rows; abs_lra. Qed.

Lemma backends_agree_witness :
  (forall k, 0 <= k < 4 ->
     rd (X (ThomasSolver.solve 8 scenario4)) k 0
     = rd (X (PCRSolver.solve 0 scenario4)) k 0)
  /\ (forall k, 0 <= k < 4 ->
        rd (DS.X (TD.solve 8 closed4)) k 0
        = rd (DS.X (PD.solve 0 closed4)) k 0).
Proof.
  destruct (backends_agree 8 0 scenario4 closed4 ltac:(lia)) as [HT HD].
  split.
  - apply HT; [simpl; lia|apply scenario4_corners|apply scenario4_dominant].
  - apply HD; [simpl; lia|reflexivity|apply closed4_dominant].
Defined.

Lemma open3_positive (j k : Z) :
  0 <= k < 3 ->
  (0 < DiffSystem.h (dlane open3 j) k /\ 0 <= DiffSystem.g (dlane open3 j) k)%R.
Proof. intros Hk. rows3 k Hk; eval_rows; lra. Qed.

Lemma open3_dominant (j : Z) :
  diag_dominant 3 (explicit_form (dlane open3 j)).
Proof. apply positive_diffusion_dominant. apply open3_positive. Qed.

(** C2, as stated, fails: on [corner3] ThomasSolver returns 1 for the first
    unknown and PCRSolver [9/13]; on the diffusion system [open3], with
    positive capacities and couplings, ThomasDiffusionSolver returns [11/9]
    and PCRDiffusionSolver [48/35]. *)
Lemma backends_counterexample :
  (diag_dominant 3 (lane corner3 0)
   /\ rd (X (ThomasSolver.solve 1 corner3)) 0 0 = 1%R
   /\ forall ub, rd (X (PCRSolver.solve ub corner3)) 0 0 = (9 / 13)%R)
  /\ (diag_dominant 3 (explicit_form (dlane open3 0))
      /\ rd (DS.X (TD.solve 1 open3)) 0 0 = (11 / 9)%R
      /\ forall ub, rd (DS.X (PD.solve ub open3)) 0 0 = (48 / 35)%R).
Proof.
  split; repeat split.
  - apply corner3_dominant.
  - eval_rows. field.
  - intros ub. eval_rows. field.
  - apply open3_dominant.
  - eval_rows. field.
  - intros ub. eval_rows. field.
Qed.

(** C3 (as amended).  For a diffusion system whose explicit form (diagonal
    [H(k) + G(k-1) + G(k)] with [G(-1) = 0], off-diagonals [-G]) is
    diagonally dominant, ThomasDiffusionSolver returns what ThomasSolver
    returns on the explicit form, in every lane; PCRDiffusionSolver returns
    what PCRSolver returns on it when the last coupling [G(M-1)] is zero. *)
Theorem diffusion_matches_explicit_form (VecLength ub j : Z) (sd : DS.t) :
  0 <= j < VecLength -> 1 <= DS.NRow sd ->
  diag_dominant (DS.NRow sd) (explicit_form (dlane sd j)) ->
  (forall k, 0 <= k < DS.NRow sd ->
     rd (DS.X (TD.solve VecLength sd)) k j
     = rd (X (ThomasSolver.solve VecLength (explicit_scratch sd))) k j)
  /\ (j = 0 -> rd (DS.G sd) (DS.NRow sd - 1) 0 = 0%R ->
      forall k, 0 <= k < DS.NRow sd ->
        rd (DS.X (PD.solve ub sd)) k 0
        = rd (X (PCRSolver.solve ub (explicit_scratch sd))) k 0).
Proof.
  intros Hj HM Hdom. split.
  - intros k Hk. now apply thomas_diffusion_explicit.
  - intros -> Hg k Hk. now apply pcr_diffusion_explicit.
Qed.

Lemma diffusion_matches_explicit_form_witness :
  (forall k, 0 <= k < 4 ->
     rd (DS.X (TD.solve 8 closed4)) k 0
     = rd (X (ThomasSolver.solve 8 (explicit_scratch closed4))) k 0)
  /\ (forall k, 0 <= k < 4 ->
        rd (DS.X (PD.solve 0 closed4)) k 0
        = rd (X (PCRSolver.solve 0 (explicit_scratch closed4))) k 0).
Proof.
  destruct (diffusion_matches_explicit_form 8 0 0 closed4)
    as [HT HP].
  - lia.
  - simpl; lia.
  - apply closed4_dominant.
  - split; [exact HT|]. apply HP; reflexivity.
Defined.

(** C3, as stated, fails in the row-parallel family: on [open3], whose last
    coupling is 2, PCRDiffusionSolver returns [48/35] for the first unknown
    and PCRSolver on the explicit form [42/31]. *)
Lemma diffusion_explicit_counterexample :
  diag_dominant 3 (explicit_form (dlane open3 0))
  /\ (forall ub, rd (DS.X (PD.solve ub open3)) 0 0 = (48 / 35)%R)
  /\ (forall ub,
        rd (X (PCRSolver.solve ub (explicit_scratch open3))) 0 0
        = (42 / 31)%R).
Proof.
  repeat split.
  - apply open3_dominant.
  - intros ub. eval_rows. field.
  - intros ub. eval_rows. field.
Qed.

(** C4.  On the failing input, one row: the steps of the specification give
    [rhs[0] / diag[0] = 1], the row having no partner; the solver returns the
    right-hand side 2, whether [1 << -1] yields 0 or [-2^31]. *)
Theorem PCRSolver_one_row_misses_division :
  pcr_x 1 (lane single1 0) 0 = 1%R
  /\ rd (X (PCRSolver.solve 0 single1)) 0 0 = 2%R
  /\ rd (X (PCRSolver.solve (- 2 ^ 31) single1)) 0 0 = 2%R.
Proof.
  split; [|split].
  - eval_rows. field.
  - eval_rows. reflexivity.
  - eval_rows. reflexivity.
Qed.

(** C5.  The steps of ThomasDiffusionSolver in a lane [j] of the group:
    [alpha[0] = 0] and the alpha recurrence on the original [H]; the
    capacities [H[0] + G[0]] and [H[k] + (alpha[k] + G[k])]; the right-hand
    sides [r] of the forward sweep, built with the updated [H[k-1]]; the back
    substitution, which adds the coupled term. *)
Theorem ThomasDiffusionSolver_steps (VecLength j : Z) (s : DS.t) :
  0 <= j < VecLength -> 1 <= DS.NRow s ->
  let M := DS.NRow s in
  let w := TD.solve VecLength s in
  let g k := rd (DS.G s) k j in
  let h k := rd (DS.H s) k j in
  let alpha k := rd (DS.Alpha w) k j in
  let h' k := rd (DS.H w) k j in
  let x k := rd (DS.X w) k j in
  alpha 0 = 0%R
  /\ (forall k, 1 <= k < M ->
        alpha k = (g (k - 1)%Z * (h (k - 1)%Z + alpha (k - 1)%Z)
                   / (h (k - 1)%Z + alpha (k - 1)%Z + g (k - 1)%Z))%R)
  /\ h' 0 = (h 0%Z + g 0%Z)%R
  /\ (forall k, 1 <= k < M -> h' k = (h k + (alpha k + g k))%R)
  /\ exists r : Z -> Real,
       r 0 = rd (DS.X s) 0 j
       /\ (forall k, 1 <= k < M ->
             r k = (rd (DS.X s) k j
                    + g (k - 1)%Z / h' (k - 1)%Z * r (k - 1)%Z)%R)
       /\ x (M - 1) = (r (M - 1)%Z / h' (M - 1)%Z)%R
       /\ (forall k, 0 <= k < M - 1 ->
             x k = ((r k + g k * x (k + 1)%Z) / h' k)%R).
Proof.
  intros Hj HM M w g h alpha h' x.
  pose proof (fun k Hk => ThomasDiffusionSolver_solve_rows VecLength j s k
                            Hj HM Hk) as Hrows.
  fold w in Hrows. fold M in Hrows.
  assert (HA : forall k, 0 <= k < M ->
            alpha k = diff_alpha (dlane s j) (Z.to_nat k))
    by (intros k Hk; apply (Hrows k Hk)).
  assert (HH : forall k, 0 <= k < M -> h' k = diff_h (dlane s j) k)
    by (intros k Hk; apply (Hrows k Hk)).
  assert (HX : forall k, 0 <= k < M -> x k = diff_x (dlane s j) M k)
    by (intros k Hk; apply (Hrows k Hk)).
  split; [|split; [|split; [|split]]].
  - rewrite HA by lia. reflexivity.
  - intros k Hk. rewrite !HA by lia. now rewrite diff_alpha_step by lia.
  - rewrite HH by lia. unfold diff_h; simpl. unfold g, h, rd.
    change (DiffSystem.h (dlane s j) 0) with (DS.H s 0 j).
    change (DiffSystem.g (dlane s j) 0) with (DS.G s 0 j). ring.
  - intros k Hk. rewrite HH, HA by lia. reflexivity.
  - exists (fun k => diff_rhs (dlane s j) (Z.to_nat k)).
    split; [reflexivity|]. split; [|split].
    + intros k Hk. rewrite HH by lia. now rewrite diff_rhs_step by lia.
    + rewrite HX, HH by lia. apply diff_x_last.
    + intros k Hk. rewrite !HX, HH by lia. now rewrite diff_x_step by lia.
Qed.

Lemma ThomasDiffusionSolver_steps_witness :
  rd (DS.Alpha (TD.solve 8 closed4)) 0 3 = 0%R
  /\ rd (DS.H (TD.solve 8 closed4)) 0 3 = (1 + 1)%R.
Proof.
  destruct (ThomasDiffusionSolver_steps 8 3 closed4 ltac:(lia)
              ltac:(simpl; lia))
    as (HA & _ & HH & _).
  split; [exact HA|exact HH].
Defined.

(** C7.  On a system of one row ThomasSolver returns [rhs[0] / diag[0]] in
    every lane, and PCRSolver returns [rhs[0]] unchanged whenever the shift
    [1 << -1] yields a value that is not positive. *)
Theorem one_row_results (VecLength j ub : Z) (s : t) :
  NRow s = 1 -> 0 <= j < VecLength -> ub <= 0 ->
  rd (X (ThomasSolver.solve VecLength s)) 0 j
  = (rd (X s) 0 j / rd (D s) 0 j)%R
  /\ rd (X (PCRSolver.solve ub s)) 0 0 = rd (X s) 0 0.
Proof.
  intros HM Hj Hub. split.
  - now apply ThomasSolver_solve_one_row.
  - now rewrite PCRSolver_solve_one_row.
Qed.

Lemma one_row_results_witness :
  rd (X (ThomasSolver.solve 8 single1)) 0 0 = (2 / 2)%R
  /\ rd (X (PCRSolver.solve (- 2 ^ 31) single1)) 0 0 = 2%R.
Proof.
  apply (one_row_results 8 0 (- 2 ^ 31) single1); [reflexivity|lia|lia].
Defined.

(** C8.  The scenario of four rows is solved to [(1, 1, 1, 1)] by
    ThomasSolver, in every lane, and by PCRSolver. *)
Theorem scenario_solution (VecLength j ub k : Z) :
  0 <= j < VecLength -> 0 <= k < 4 ->
  rd (X (ThomasSolver.solve VecLength scenario4)) k j = 1%R
  /\ rd (X (PCRSolver.solve ub scenario4)) k 0 = 1%R.
Proof.
  intros Hj Hk. split.
  - rewrite ThomasSolver_solve_rows by (simpl; lia).
    rows4 k Hk; eval_rows; field.
  - rows4 k Hk; eval_rows; field.
Qed.

Lemma scenario_solution_witness :
  rd (X (ThomasSolver.solve 8 scenario4)) 2 5 = 1%R
  /\ rd (X (PCRSolver.solve 0 scenario4)) 2 0 = 1%R.
Proof.
  apply (scenario_solution 8 5 0 2); lia.
Defined.

(** * The array-level entry points *)

(** ** Loops that may fail *)

Lemma for_rangeM_nil {S : Type} (lo hi : Z) (body : Z -> S -> option S)
  (s : S) :
  hi <= lo -> for_rangeM lo hi body s = Some s.
Proof. intros Hle. unfold for_rangeM. now rewrite for_range_nil. Qed.

(** Invariant rule: when every iteration succeeds from a state that
    satisfies the invariant, so does the loop. *)
Lemma for_rangeM_inv {S : Type} (P : Z -> S -> Prop) (lo hi : Z)
  (body : Z -> S -> option S) (s : S) :
  lo <= hi ->
  P lo s ->
  (forall k t, lo <= k < hi -> P k t ->
               exists t', body k t = Some t' /\ P (k + 1) t') ->
  exists t', for_rangeM lo hi body s = Some t' /\ P hi t'.
Proof.
  intros Hle H0 Hstep. unfold for_rangeM.
  apply (for_range_inv
           (fun k m => exists t, m = Some t /\ P k t) lo hi _ (Some s) Hle).
  - now exists s.
  - intros k m Hk (t & -> & Ht). simpl. now apply Hstep.
Qed.

Lemma for_range_cons {S : Type} (lo hi : Z) (body : Z -> S -> S) (s : S) :
  lo < hi -> for_range lo hi body s = for_range (lo + 1) hi body (body lo s).
Proof.
  intros Hlt. unfold for_range.
  replace (Z.to_nat (hi - lo))
    with (Datatypes.S (Z.to_nat (hi - (lo + 1)))) by lia.
  reflexivity.
Qed.

(** The first failing iteration makes the loop fail. *)
Lemma for_rangeM_first_fails {S : Type} (lo hi : Z)
  (body : Z -> S -> option S) (s : S) :
  lo < hi -> body lo s = None -> for_rangeM lo hi body s = None.
Proof.
  intros Hlt Hfail. unfold for_rangeM.
  rewrite for_range_cons by exact Hlt. simpl bind at 2. rewrite Hfail.
  apply (for_range_inv (fun _ m => m = None) (lo + 1) hi
           (fun k m => bind m (body k)) None ltac:(lia)).
  - reflexivity.
  - intros k m _ ->. reflexivity.
Qed.

(** ** Writing the solution back *)

Lemma put_in_bounds (XA : Array2DReal) (I K : Z) (v : Real) :
  0 <= I < extent0 XA -> 0 <= K < extent1 XA ->
  put XA I K v
  = Some (mkArray2DReal (extent0 XA) (extent1 XA)
            (fun I' K' => if (I' =? I) && (K' =? K) then v
                          else elems XA I' K')).
Proof.
  intros HI HK. unfold put, in_bounds.
  now replace ((0 <=? I) && (I <? extent0 XA) && (0 <=? K)
               && (K <? extent1 XA)) with true by lia.
Qed.

Lemma get_in_bounds (A : Array2DReal) (I K : Z) :
  0 <= I < extent0 A -> 0 <= K < extent1 A -> get A I K = Some (elems A I K).
Proof.
  intros HI HK. unfold get, in_bounds.
  now replace ((0 <=? I) && (I <? extent0 A) && (0 <=? K)
               && (K <? extent1 A)) with true by lia.
Qed.

(** The lanes of the group write the rows of their systems, and only the
    lanes whose system exists. *)
Lemma write_back_rows (A : ScratchArray2DReal) (VecLength IStart : Z)
  (XA0 : Array2DReal) :
  0 <= VecLength -> 0 <= IStart -> 0 <= extent1 XA0 ->
  exists XA,
    for_rangeM 0 VecLength
      (fun IVec =>
         for_rangeM 0 (extent1 XA0) (write_back A (extent0 XA0) IStart IVec))
      XA0 = Some XA
    /\ extent0 XA = extent0 XA0 /\ extent1 XA = extent1 XA0
    /\ forall I K,
         elems XA I K
         = if (IStart <=? I) && (I <? IStart + VecLength)
              && (I <? extent0 XA0) && (0 <=? K) && (K <? extent1 XA0)
           then rd A K (I - IStart) else elems XA0 I K.
Proof.
  intros HV HI HR.
  set (NB := extent0 XA0). set (NR := extent1 XA0).
  set (written := fun (v k : Z) (I K : Z) =>
         (IStart <= I < IStart + v /\ I < NB /\ 0 <= K < NR)
         \/ (I = IStart + v /\ I < NB /\ 0 <= K < k)).
  set (Inv := fun (v k : Z) (XA : Array2DReal) =>
         extent0 XA = NB /\ extent1 XA = NR
         /\ forall I K,
              (written v k I K -> elems XA I K = rd A K (I - IStart))
              /\ (~ written v k I K -> elems XA I K = elems XA0 I K)).
  assert (Hloop : exists XA,
    for_rangeM 0 VecLength
      (fun IVec => for_rangeM 0 NR (write_back A NB IStart IVec)) XA0
    = Some XA /\ Inv VecLength 0 XA).
  { apply (for_rangeM_inv (fun v XA => Inv v 0 XA) 0 VecLength _ XA0 HV).
    - repeat split; try reflexivity; unfold written; intros; lia.
    - intros v XA Hv HInv.
      destruct (for_rangeM_inv (fun k XA => Inv v k XA) 0 NR
                  (write_back A NB IStart v) XA HR HInv) as (XA' & E & HInv').
      + intros k t Hk (E0 & E1 & Ht). unfold write_back.
        destruct (Z.ltb_spec (IStart + v) NB) as [Hlt|Hge].
        * rewrite put_in_bounds by lia. eexists. split; [reflexivity|].
          repeat split; simpl; try assumption.
          -- intros Hw.
             destruct (Z.eqb_spec I (IStart + v)) as [->|HI1];
               destruct (Z.eqb_spec K k) as [->|HK1]; simpl.
             ++ f_equal. lia.
             ++ apply (proj1 (Ht _ _)). unfold written in *. lia.
             ++ apply (proj1 (Ht _ _)). unfold written in *. lia.
             ++ apply (proj1 (Ht _ _)). unfold written in *. lia.
          -- intros Hw.
             replace ((I =? IStart + v) && (K =? k)) with false
               by (unfold written in Hw; lia).
             apply (proj2 (Ht _ _)). unfold written in *. lia.
        * exists t. split; [reflexivity|].
          repeat split; try assumption.
          -- intros Hw. apply (proj1 (Ht _ _)). unfold written in *. lia.
          -- intros Hw. apply (proj2 (Ht _ _)). unfold written in *. lia.
      + exists XA'. split; [exact E|].
        destruct HInv' as (E0 & E1 & Ht). repeat split; try assumption.
        * intros Hw. apply (proj1 (Ht _ _)). unfold written in *. lia.
        * intros Hw. apply (proj2 (Ht _ _)). unfold written in *. lia. }
  destruct Hloop as (XA & E & E0 & E1 & Ht).
  exists XA. repeat split; try assumption.
  intros I K.
  destruct ((IStart <=? I) && (I <? IStart + VecLength) && (I <? NB)
            && (0 <=? K) && (K <? NR)) eqn:Ec.
  - apply (proj1 (Ht _ _)). unfold written. lia.
  - apply (proj2 (Ht _ _)). unfold written. lia.
Qed.

(** ** ThomasSolver on arrays *)

Lemma ThomasSolver_stage_rows (VecLength IStart : Z) (B : TridiagonalBatch.t)
  (sc0 : t) :
  batch_wf B -> 0 <= VecLength -> 0 <= IStart ->
  let NBatch := extent0 (TridiagonalBatch.X B) in
  let NR := extent1 (TridiagonalBatch.X B) in
  exists sc,
    for_rangeM 0 NR
      (fun K => for_rangeM 0 VecLength (ThomasSolver.stage B NBatch IStart K))
      sc0 = Some sc
    /\ NRow sc = NRow sc0
    /\ forall K v, 0 <= K < NR -> 0 <= v < VecLength ->
                   staged B NBatch IStart sc K v.
Proof.
  intros (HB0 & HB1 & (EL0 & EL1) & (ED0 & ED1) & (EU0 & EU1)) HV HI NBatch NR.
  set (Inv := fun (K v : Z) (sc : t) =>
         NRow sc = NRow sc0
         /\ forall K' v', 0 <= v' < VecLength ->
              (0 <= K' < K \/ (K' = K /\ v' < v)) ->
              staged B NBatch IStart sc K' v').
  assert (Hloop : exists sc,
    for_rangeM 0 NR
      (fun K => for_rangeM 0 VecLength (ThomasSolver.stage B NBatch IStart K))
      sc0 = Some sc /\ Inv NR 0 sc).
  { apply (for_rangeM_inv (fun K sc => Inv K 0 sc) 0 NR _ sc0 HB1).
    - split; [reflexivity|]. intros; lia.
    - intros K sc HK HInv.
      destruct (for_rangeM_inv (fun v sc => Inv K v sc) 0 VecLength
                  (ThomasSolver.stage B NBatch IStart K) sc HV HInv)
        as (sc' & E & HInv').
      + intros v u Hv (HN & Hu). unfold ThomasSolver.stage.
        destruct (Z.ltb_spec (IStart + v) NBatch) as [Hlt|Hge].
        * rewrite !get_in_bounds by (fold NBatch NR; lia). simpl.
          eexists. split; [reflexivity|]. split; [exact HN|].
          intros K' v' Hv' Hc. unfold staged, setX, setDU, setD, setDL; simpl.
          rewrite !rd_wr.
          destruct (Z.eqb_spec K' K) as [->|HK'];
            destruct (Z.eqb_spec v' v) as [->|Hv'']; simpl.
          -- replace (IStart + v <? NBatch) with true by lia. repeat split.
          -- apply Hu; lia.
          -- apply Hu; lia.
          -- apply Hu; lia.
        * eexists. split; [reflexivity|]. split; [exact HN|].
          intros K' v' Hv' Hc. unfold staged, setX, setDU, setD, setDL; simpl.
          rewrite !rd_wr.
          destruct (Z.eqb_spec K' K) as [->|HK'];
            destruct (Z.eqb_spec v' v) as [->|Hv'']; simpl.
          -- replace (IStart + v <? NBatch) with false by lia. repeat split.
          -- apply Hu; lia.
          -- apply Hu; lia.
          -- apply Hu; lia.
      + exists sc'. split; [exact E|]. destruct HInv' as (HN & Hu).
        split; [exact HN|]. intros K' v' Hv' Hc. apply Hu; lia. }
  destruct Hloop as (sc & E & HN & Hu).
  exists sc. split; [exact E|]. split; [exact HN|].
  intros K v HK Hv. apply Hu; lia.
Qed.

(** The recurrences only read the rows of the system. *)
Lemma thomas_x_same_rows (M : Z) (s1 s2 : System.t) :
  same_rows M s1 s2 ->
  forall k, 0 <= k < M -> thomas_x s1 M k = thomas_x s2 M k.
Proof.
  intros Hs.
  assert (Hp : forall k, 0 <= k -> k < M ->
            thomas_pivot s1 (Z.to_nat k) = thomas_pivot s2 (Z.to_nat k)
            /\ thomas_rhs s1 (Z.to_nat k) = thomas_rhs s2 (Z.to_nat k)).
  { intros k Hk0. pattern k. apply row_ind; [| |exact Hk0].
    - intros HM. destruct (Hs 0 ltac:(lia)) as (_ & E2 & _ & E4).
      change (Z.to_nat 0) with O. split; [exact E2|exact E4].
    - intros i Hi IH HiM. destruct (IH ltac:(lia)) as [IHp IHr].
      destruct (Hs (i + 1) ltac:(lia)) as (E1 & E2 & _ & E4).
      destruct (Hs i ltac:(lia)) as (_ & _ & F3 & _).
      rewrite (thomas_pivot_step s1), (thomas_pivot_step s2),
        (thomas_rhs_step s1), (thomas_rhs_step s2) by lia.
      replace (i + 1 - 1) with i by lia.
      now rewrite E1, E2, E4, F3, IHp, IHr. }
  assert (Hn : forall n : nat, 0 <= M - 1 - Z.of_nat n ->
             thomas_x s1 M (M - 1 - Z.of_nat n)
             = thomas_x s2 M (M - 1 - Z.of_nat n)).
  { induction n as [|n IH]; intros Hb.
    - replace (M - 1 - Z.of_nat 0) with (M - 1) in * by lia.
      rewrite (thomas_x_last s1), (thomas_x_last s2).
      destruct (Hp (M - 1) ltac:(lia) ltac:(lia)) as [-> ->]. reflexivity.
    - set (k := M - 1 - Z.of_nat (Datatypes.S n)) in *.
      rewrite (thomas_x_step s1 M k), (thomas_x_step s2 M k) by lia.
      replace (k + 1) with (M - 1 - Z.of_nat n) by lia.
      rewrite IH by lia.
      destruct (Hp k ltac:(lia) ltac:(lia)) as [-> ->].
      destruct (Hs k ltac:(lia)) as (_ & _ & -> & _). reflexivity. }
  intros k Hk. specialize (Hn (Z.to_nat (M - 1 - k))).
  replace (M - 1 - Z.of_nat (Z.to_nat (M - 1 - k))) with k in Hn by lia.
  apply Hn. lia.
Qed.

(** [solve(Member, DL, D, DU, X)] of ThomasSolver always returns; it leaves
    the coefficient arrays as they are and overwrites the rows of the
    systems of its group, and no others, with the sequential elimination of
    each system. *)
Lemma ThomasSolver_solve_arrays_rows (VecLength : Z) (Member : TeamMember)
  (B : TridiagonalBatch.t) :
  batch_wf B -> 0 <= VecLength -> 0 <= league_rank Member ->
  let NBatch := extent0 (TridiagonalBatch.X B) in
  let NR := extent1 (TridiagonalBatch.X B) in
  let IStart := league_rank Member * VecLength in
  exists XA,
    ThomasSolver.solve_arrays VecLength Member B
    = Some (TridiagonalBatch.mk (TridiagonalBatch.DL B) (TridiagonalBatch.D B)
              (TridiagonalBatch.DU B) XA)
    /\ extent0 XA = NBatch /\ extent1 XA = NR
    /\ forall I K,
         elems XA I K
         = if (IStart <=? I) && (I <? IStart + VecLength) && (I <? NBatch)
              && (0 <=? K) && (K <? NR)
           then thomas_x (system_of B I) NR K
           else elems (TridiagonalBatch.X B) I K.
Proof.
  intros Hwf HV HL NBatch NR IStart.
  assert (HI : 0 <= IStart) by (unfold IStart; nia).
  unfold ThomasSolver.solve_arrays. fold NBatch NR IStart.
  destruct (ThomasSolver_stage_rows VecLength IStart B
              (mk NR (team_scratch Member 0) (team_scratch Member 1)
                 (team_scratch Member 2) (team_scratch Member 3))
              Hwf HV HI) as (sc & E & HN & Hst).
  fold NBatch NR in E, Hst. rewrite E. simpl bind.
  destruct Hwf as (HB0 & HB1 & _).
  destruct (write_back_rows (X (ThomasSolver.solve VecLength sc)) VecLength
              IStart (TridiagonalBatch.X B) HV HI HB1)
    as (XA & EW & E0 & E1 & Hel).
  fold NBatch NR in EW, E0, E1, Hel.
  change (for_rangeM 0 VecLength
            (fun IVec =>
               for_rangeM 0 NR
                 (ThomasSolver.unstage (ThomasSolver.solve VecLength sc)
                    NBatch IStart IVec)) (TridiagonalBatch.X B))
    with (for_rangeM 0 VecLength
            (fun IVec =>
               for_rangeM 0 NR
                 (write_back (X (ThomasSolver.solve VecLength sc))
                    NBatch IStart IVec)) (TridiagonalBatch.X B)).
  rewrite EW. simpl bind. exists XA.
  split; [reflexivity|]. split; [exact E0|]. split; [exact E1|].
  intros I K. rewrite Hel.
  destruct ((IStart <=? I) && (I <? IStart + VecLength) && (I <? NBatch)
            && (0 <=? K) && (K <? NR)) eqn:Ec; [|reflexivity].
  simpl in HN.
  rewrite ThomasSolver_solve_rows by lia. rewrite HN.
  apply thomas_x_same_rows; [|lia].
  intros K' HK'. destruct (Hst K' (I - IStart) HK' ltac:(lia)) as (S1 & S2 & S3 & S4).
  replace (IStart + (I - IStart)) with I in * by lia.
  replace (I <? NBatch) with true in * by lia.
  unfold lane, system_of; simpl. repeat split; assumption.
Qed.

(** ** PCRSolver on arrays *)

Lemma pcr_x_same_rows (M : Z) (s1 s2 : System.t) :
  same_rows M s1 s2 ->
  forall k, 0 <= k < M -> pcr_x M s1 k = pcr_x M s2 k.
Proof.
  intros Hs k Hk. unfold pcr_x. apply pcr_final_same_rows; [|exact Hk].
  unfold pcr_levels. set (L := Z.log2_up M).
  destruct (Z_le_gt_dec 1 L) as [HL|HL].
  - apply (for_range_inv
             (fun lev t =>
                same_rows M t
                  (for_range 1 lev (fun lev => pcr_level M (2 ^ (lev - 1))) s2))
             1 L _ s1 HL).
    + now rewrite for_range_nil by lia.
    + intros lev t Hlev Ht. rewrite for_range_snoc by lia.
      apply pcr_level_same_rows; [|exact Ht].
      apply Z.pow_nonneg. lia.
  - now rewrite !for_range_nil by lia.
Qed.

(** Staging and write-back of one team of the row-parallel solver. *)
Lemma PCRSolver_stage_rows (I : Z) (B : TridiagonalBatch.t) (sc0 : t) :
  batch_wf B -> 0 <= I ->
  let NBatch := extent0 (TridiagonalBatch.X B) in
  let NR := extent1 (TridiagonalBatch.X B) in
  exists sc,
    for_rangeM 0 NR (PCRSolver.stage B NBatch I) sc0 = Some sc
    /\ NRow sc = NRow sc0
    /\ forall K, 0 <= K < NR -> staged B NBatch I sc K 0.
Proof.
  intros (HB0 & HB1 & (EL0 & EL1) & (ED0 & ED1) & (EU0 & EU1)) HI NBatch NR.
  apply (for_rangeM_inv
           (fun K sc =>
              NRow sc = NRow sc0
              /\ forall K', 0 <= K' < K -> staged B NBatch I sc K' 0)
           0 NR _ sc0 HB1).
  - split; [reflexivity|]. intros; lia.
  - intros K sc HK (HN & Hu). unfold PCRSolver.stage.
    destruct (Z.ltb_spec I NBatch) as [Hlt|Hge].
    + rewrite !get_in_bounds by (fold NBatch NR; lia). simpl.
      eexists. split; [reflexivity|]. split; [exact HN|].
      intros K' HK'. unfold staged, setX, setDU, setD, setDL; simpl.
      rewrite !rd_wr. replace (I + 0) with I by lia.
      destruct (Z.eqb_spec K' K) as [->|HK'']; simpl.
      * replace (I <? NBatch) with true by lia. repeat split.
      * pose proof (Hu K' ltac:(lia)) as Hs. unfold staged in Hs.
        simpl in Hs. replace (I + 0) with I in Hs by lia. exact Hs.
    + eexists. split; [reflexivity|]. split; [exact HN|].
      intros K' HK'. unfold staged, setX, setDU, setD, setDL; simpl.
      rewrite !rd_wr. replace (I + 0) with I by lia.
      destruct (Z.eqb_spec K' K) as [->|HK'']; simpl.
      * replace (I <? NBatch) with false by lia. repeat split.
      * pose proof (Hu K' ltac:(lia)) as Hs. unfold staged in Hs.
        simpl in Hs. replace (I + 0) with I in Hs by lia. exact Hs.
Qed.

Lemma write_back_row_rows (A : ScratchArray2DReal) (guard : bool) (I : Z)
  (XA0 : Array2DReal) :
  0 <= extent1 XA0 -> (guard = true -> 0 <= I < extent0 XA0) ->
  exists XA,
    for_rangeM 0 (extent1 XA0) (write_back_row A guard I) XA0 = Some XA
    /\ extent0 XA = extent0 XA0 /\ extent1 XA = extent1 XA0
    /\ forall I' K,
         elems XA I' K
         = if guard && (I' =? I) && (0 <=? K) && (K <? extent1 XA0)
           then rd A K 0 else elems XA0 I' K.
Proof.
  intros HR HI. set (NR := extent1 XA0).
  apply (for_rangeM_inv
           (fun k XA =>
              extent0 XA = extent0 XA0 /\ extent1 XA = NR
              /\ forall I' K,
                   elems XA I' K
                   = if guard && (I' =? I) && (0 <=? K) && (K <? k)
                     then rd A K 0 else elems XA0 I' K)
           0 NR _ XA0 HR).
  - repeat split. intros I' K.
    assert (guard && (I' =? I) && (0 <=? K) && (K <? 0) = false) as ->
      by (destruct guard, (I' =? I); simpl; lia).
    reflexivity.
  - intros k XA Hk (E0 & E1 & Hel). unfold write_back_row.
    destruct guard.
    + specialize (HI eq_refl). rewrite put_in_bounds by lia.
      eexists. split; [reflexivity|]. simpl.
      split; [exact E0|]. split; [exact E1|].
      intros I' K. rewrite Hel. simpl.
      destruct (Z.eqb_spec I' I) as [->|HI']; simpl; [|reflexivity].
      destruct (Z.eqb_spec K k) as [->|HK].
      * now replace ((0 <=? k) && (k <? k + 1)) with true by lia.
      * now replace ((0 <=? K) && (K <? k + 1))
          with ((0 <=? K) && (K <? k)) by lia.
    + exists XA. split; [reflexivity|].
      split; [exact E0|]. split; [exact E1|].
      intros I' K. rewrite Hel. reflexivity.
Qed.

(** [solve(Member, DL, D, DU, X)] of PCRSolver always returns; it leaves the
    coefficient arrays as they are, writes nothing for a league rank at or
    beyond [NBatch] and otherwise overwrites the rows of system [I], for two
    rows or more with its cyclic reduction. *)
Lemma PCRSolver_solve_arrays_rows (ub : Z) (Member : TeamMember)
  (B : TridiagonalBatch.t) :
  batch_wf B -> 0 <= league_rank Member ->
  let NBatch := extent0 (TridiagonalBatch.X B) in
  let NR := extent1 (TridiagonalBatch.X B) in
  let I := league_rank Member in
  exists XA,
    PCRSolver.solve_arrays ub Member B
    = Some (TridiagonalBatch.mk (TridiagonalBatch.DL B) (TridiagonalBatch.D B)
              (TridiagonalBatch.DU B) XA)
    /\ extent0 XA = NBatch /\ extent1 XA = NR
    /\ (forall I' K,
          ~ (I' = I /\ I < NBatch /\ 0 <= K < NR) ->
          elems XA I' K = elems (TridiagonalBatch.X B) I' K)
    /\ (I < NBatch -> 2 <= NR ->
        forall K, 0 <= K < NR -> elems XA I K = pcr_x NR (system_of B I) K).
Proof.
  intros Hwf HL NBatch NR I.
  unfold PCRSolver.solve_arrays. fold NBatch NR I.
  destruct (PCRSolver_stage_rows I B
              (mk NR (team_scratch Member 0) (team_scratch Member 1)
                 (team_scratch Member 2) (team_scratch Member 3))
              Hwf HL) as (sc & E & HN & Hst).
  fold NBatch NR in E, Hst. rewrite E. simpl bind.
  destruct Hwf as (HB0 & HB1 & _).
  destruct (write_back_row_rows (X (PCRSolver.solve ub sc)) (I <? NBatch) I
              (TridiagonalBatch.X B) HB1)
    as (XA & EW & E0 & E1 & Hel).
  { intros Hg. fold NBatch. lia. }
  fold NBatch NR in EW, E0, E1, Hel.
  change (for_rangeM 0 NR (PCRSolver.unstage (PCRSolver.solve ub sc) NBatch I)
            (TridiagonalBatch.X B))
    with (for_rangeM 0 NR
            (write_back_row (X (PCRSolver.solve ub sc)) (I <? NBatch) I)
            (TridiagonalBatch.X B)).
  rewrite EW. simpl bind. exists XA.
  split; [reflexivity|]. split; [exact E0|]. split; [exact E1|]. split.
  - intros I' K Hn. rewrite Hel.
    replace ((I <? NBatch) && (I' =? I) && (0 <=? K) && (K <? NR))
      with false by lia.
    reflexivity.
  - intros HI HM K HK. rewrite Hel.
    replace ((I <? NBatch) && (I =? I) && (0 <=? K) && (K <? NR))
      with true by lia.
    simpl in HN. rewrite PCRSolver_solve_rows by lia. rewrite HN.
    apply pcr_x_same_rows; [|lia].
    intros K' HK'. destruct (Hst K' HK') as (S1 & S2 & S3 & S4).
    replace (I + 0) with I in * by lia.
    replace (I <? NBatch) with true in * by lia.
    unfold lane, system_of; simpl. repeat split; assumption.
Qed.

(** ** The diffusion solvers on arrays *)

Lemma diff_x_same_rows (M : Z) (d1 d2 : DiffSystem.t) :
  dsame_rows M d1 d2 ->
  forall k, 0 <= k < M -> diff_x d1 M k = diff_x d2 M k.
Proof.
  intros Hs.
  assert (Ha : forall k, 0 <= k -> k < M ->
            diff_alpha d1 (Z.to_nat k) = diff_alpha d2 (Z.to_nat k)).
  { intros k Hk0. pattern k. apply row_ind; [| |exact Hk0].
    - intros _. reflexivity.
    - intros i Hi IH HiM.
      rewrite (diff_alpha_step d1), (diff_alpha_step d2) by lia.
      replace (i + 1 - 1) with i by lia.
      destruct (Hs i ltac:(lia)) as (E1 & E2 & _).
      now rewrite E1, E2, IH by lia. }
  assert (Hh : forall k, 0 <= k < M -> diff_h d1 k = diff_h d2 k).
  { intros k Hk. unfold diff_h. destruct (Hs k Hk) as (E1 & E2 & _).
    now rewrite E1, E2, Ha by lia. }
  assert (Hr : forall k, 0 <= k -> k < M ->
            diff_rhs d1 (Z.to_nat k) = diff_rhs d2 (Z.to_nat k)).
  { intros k Hk0. pattern k. apply row_ind; [| |exact Hk0].
    - intros HM. change (Z.to_nat 0) with O. simpl.
      now destruct (Hs 0 ltac:(lia)) as (_ & _ & E3).
    - intros i Hi IH HiM.
      rewrite (diff_rhs_step d1), (diff_rhs_step d2) by lia.
      replace (i + 1 - 1) with i by lia.
      destruct (Hs i ltac:(lia)) as (E1 & _ & _).
      destruct (Hs (i + 1) ltac:(lia)) as (_ & _ & F3).
      now rewrite E1, F3, Hh, IH by lia. }
  assert (Hn : forall n : nat, 0 <= M - 1 - Z.of_nat n ->
             diff_x d1 M (M - 1 - Z.of_nat n)
             = diff_x d2 M (M - 1 - Z.of_nat n)).
  { induction n as [|n IH]; intros Hb.
    - replace (M - 1 - Z.of_nat 0) with (M - 1) in * by lia.
      rewrite (diff_x_last d1), (diff_x_last d2).
      now rewrite Hr, Hh by lia.
    - set (k := M - 1 - Z.of_nat (Datatypes.S n)) in *.
      rewrite (diff_x_step d1 M k), (diff_x_step d2 M k) by lia.
      replace (k + 1) with (M - 1 - Z.of_nat n) by lia.
      rewrite IH by lia. destruct (Hs k ltac:(lia)) as (E1 & _ & _).
      now rewrite E1, Hr, Hh by lia. }
  intros k Hk. specialize (Hn (Z.to_nat (M - 1 - k))).
  replace (M - 1 - Z.of_nat (Z.to_nat (M - 1 - k))) with k in Hn by lia.
  apply Hn. lia.
Qed.

Lemma pcrd_level_same_rows (M h : Z) (d1 d2 : DiffSystem.t) :
  0 <= h -> dsame_rows M d1 d2 ->
  dsame_rows M (pcrd_level M h d1) (pcrd_level M h d2).
Proof.
  intros Hh Hs k Hk. unfold pcrd_level;
    cbn [DiffSystem.g DiffSystem.h DiffSystem.rhs].
  in_rows ((0 <=? k) && (k <? M)).
  set (m := if k - h <? 0 then 0 else k - h).
  set (p := if k + h >=? M then M - 1 else k + h).
  assert (Hm : 0 <= m < M) by (unfold m; destruct (Z.ltb_spec (k - h) 0); lia).
  assert (Hp : 0 <= p < M) by (unfold p; destruct (Z.geb_spec (k + h) M); lia).
  destruct (Hs k Hk) as (A1 & A2 & A3).
  destruct (Hs m Hm) as (B1 & B2 & B3).
  destruct (Hs p Hp) as (C1 & C2 & C3).
  assert (G1 : (if k - h <? 0 then 0%R else DiffSystem.g d1 (k - h))
               = (if k - h <? 0 then 0%R else DiffSystem.g d2 (k - h))).
  { destruct (Z.ltb_spec (k - h) 0); [reflexivity|].
    now destruct (Hs (k - h) ltac:(lia)) as (E & _). }
  assert (G2 : (if k - 2 * h <? 0 then 0%R else DiffSystem.g d1 (k - 2 * h))
               = (if k - 2 * h <? 0 then 0%R
                  else DiffSystem.g d2 (k - 2 * h))).
  { destruct (Z.ltb_spec (k - 2 * h) 0); [reflexivity|].
    now destruct (Hs (k - 2 * h) ltac:(lia)) as (E & _). }
  rewrite A1, A2, A3, B2, B3, C1, C2, C3, G1, G2.
  repeat split.
Qed.

Lemma pcrd_final_same_rows (M S : Z) (d1 d2 : DiffSystem.t) :
  0 <= S -> dsame_rows M d1 d2 ->
  forall k, 0 <= k < M -> pcrd_final M S d1 k = pcrd_final M S d2 k.
Proof.
  intros HS0 Hs k Hk.
  assert (Hd : forall i, 0 <= i < M -> pcrd_diag S d1 i = pcrd_diag S d2 i).
  { intros i Hi. unfold pcrd_diag. destruct (Hs i Hi) as (E1 & E2 & _).
    rewrite E1, E2. destruct (Z.ltb_spec (i - S) 0) as [H0|H0].
    - reflexivity.
    - now destruct (Hs (i - S) ltac:(lia)) as (-> & _). }
  unfold pcrd_final.
  destruct (Z.ltb_spec 0 S) as [HS|HS]; simpl.
  - destruct (Z.ltb_spec (k + S) M) as [Hlo|Hnlo].
    + destruct (Hs k Hk) as (A1 & A2 & A3).
      destruct (Hs (k + S) ltac:(lia)) as (B1 & B2 & B3).
      unfold pcrd_pair_lo. now rewrite Hd, A1, A3, B1, B2, B3 by lia.
    + destruct (Z.leb_spec 0 (k - S)) as [Hup|Hnup].
      * destruct (Hs (k - S) ltac:(lia)) as (A1 & A2 & A3).
        unfold pcrd_pair_hi. replace (k - S + S) with k by lia.
        destruct (Hs k Hk) as (B1 & B2 & B3).
        now rewrite Hd, A1, A3, B1, B2, B3 by lia.
      * destruct (Hs k Hk) as (A1 & A2 & A3). now rewrite Hd, A3 by lia.
  - destruct (Hs k Hk) as (A1 & A2 & A3). now rewrite Hd, A3 by lia.
Qed.

Lemma pcrd_x_same_rows (M : Z) (d1 d2 : DiffSystem.t) :
  dsame_rows M d1 d2 ->
  forall k, 0 <= k < M -> pcrd_x M d1 k = pcrd_x M d2 k.
Proof.
  intros Hs k Hk. unfold pcrd_x.
  apply pcrd_final_same_rows; [apply Z.pow_nonneg; lia| |exact Hk].
  unfold pcrd_levels. set (L := Z.log2_up M).
  destruct (Z_le_gt_dec 1 L) as [HL|HL].
  - apply (for_range_inv
             (fun lev t =>
                dsame_rows M t
                  (for_range 1 lev (fun lev => pcrd_level M (2 ^ (lev - 1)))
                     d2))
             1 L _ d1 HL).
    + now rewrite for_range_nil by lia.
    + intros lev t Hlev Ht. rewrite for_range_snoc by lia.
      apply pcrd_level_same_rows; [|exact Ht].
      apply Z.pow_nonneg. lia.
  - now rewrite !for_range_nil by lia.
Qed.

Lemma ThomasDiffusionSolver_stage_rows (VecLength IStart : Z)
  (B : DiffusionBatch.t) (sc0 : DS.t) :
  dbatch_wf B -> 0 <= VecLength -> 0 <= IStart ->
  let NBatch := extent0 (DiffusionBatch.X B) in
  let NR := extent1 (DiffusionBatch.X B) in
  exists sc,
    for_rangeM 0 NR
      (fun K => for_rangeM 0 VecLength (TD.stage B NBatch IStart K)) sc0
    = Some sc
    /\ DS.NRow sc = DS.NRow sc0
    /\ forall K v, 0 <= K < NR -> 0 <= v < VecLength ->
                   dstaged B NBatch IStart sc K v.
Proof.
  intros (HB0 & HB1 & (EG0 & EG1) & (EH0 & EH1)) HV HI NBatch NR.
  set (Inv := fun (K v : Z) (sc : DS.t) =>
         DS.NRow sc = DS.NRow sc0
         /\ forall K' v', 0 <= v' < VecLength ->
              (0 <= K' < K \/ (K' = K /\ v' < v)) ->
              dstaged B NBatch IStart sc K' v').
  assert (Hloop : exists sc,
    for_rangeM 0 NR
      (fun K => for_rangeM 0 VecLength (TD.stage B NBatch IStart K)) sc0
    = Some sc /\ Inv NR 0 sc).
  { apply (for_rangeM_inv (fun K sc => Inv K 0 sc) 0 NR _ sc0 HB1).
    - split; [reflexivity|]. intros; lia.
    - intros K sc HK HInv.
      destruct (for_rangeM_inv (fun v sc => Inv K v sc) 0 VecLength
                  (TD.stage B NBatch IStart K) sc HV HInv)
        as (sc' & E & HInv').
      + intros v u Hv (HN & Hu). unfold TD.stage.
        destruct (Z.ltb_spec (IStart + v) NBatch) as [Hlt|Hge].
        * rewrite !get_in_bounds by (fold NBatch NR; lia). simpl.
          eexists. split; [reflexivity|]. split; [exact HN|].
          intros K' v' Hv' Hc. unfold dstaged, DS.setX, DS.setH, DS.setG; simpl.
          rewrite !rd_wr.
          destruct (Z.eqb_spec K' K) as [->|HK'];
            destruct (Z.eqb_spec v' v) as [->|Hv'']; simpl.
          -- replace (IStart + v <? NBatch) with true by lia. repeat split.
          -- apply Hu; lia.
          -- apply Hu; lia.
          -- apply Hu; lia.
        * eexists. split; [reflexivity|]. split; [exact HN|].
          intros K' v' Hv' Hc. unfold dstaged, DS.setX, DS.setH, DS.setG; simpl.
          rewrite !rd_wr.
          destruct (Z.eqb_spec K' K) as [->|HK'];
            destruct (Z.eqb_spec v' v) as [->|Hv'']; simpl.
          -- replace (IStart + v <? NBatch) with false by lia. repeat split.
          -- apply Hu; lia.
          -- apply Hu; lia.
          -- apply Hu; lia.
      + exists sc'. split; [exact E|]. destruct HInv' as (HN & Hu).
        split; [exact HN|]. intros K' v' Hv' Hc. apply Hu; lia. }
  destruct Hloop as (sc & E & HN & Hu).
  exists sc. split; [exact E|]. split; [exact HN|].
  intros K v HK Hv. apply Hu; lia.
Qed.

(** [solve(Member, G, H, X)] of ThomasDiffusionSolver always returns; it
    leaves [G] and [H] as they are and overwrites the rows of the systems of
    its group, and no others, with the sequential diffusion solution of each
    system. *)
Lemma ThomasDiffusionSolver_solve_arrays_rows (VecLength : Z)
  (Member : TeamMember) (B : DiffusionBatch.t) :
  dbatch_wf B -> 0 <= VecLength -> 0 <= league_rank Member ->
  let NBatch := extent0 (DiffusionBatch.X B) in
  let NR := extent1 (DiffusionBatch.X B) in
  let IStart := league_rank Member * VecLength in
  exists XA,
    TD.solve_arrays VecLength Member B
    = Some (DiffusionBatch.mk (DiffusionBatch.G B) (DiffusionBatch.H B) XA)
    /\ extent0 XA = NBatch /\ extent1 XA = NR
    /\ forall I K,
         elems XA I K
         = if (IStart <=? I) && (I <? IStart + VecLength) && (I <? NBatch)
              && (0 <=? K) && (K <? NR)
           then diff_x (dsystem_of B I) NR K
           else elems (DiffusionBatch.X B) I K.
Proof.
  intros Hwf HV HL NBatch NR IStart.
  assert (HI : 0 <= IStart) by (unfold IStart; nia).
  unfold TD.solve_arrays. fold NBatch NR IStart.
  destruct (ThomasDiffusionSolver_stage_rows VecLength IStart B
              (DS.mk NR (team_scratch Member 0) (team_scratch Member 1)
                 (team_scratch Member 2) (team_scratch Member 3))
              Hwf HV HI) as (sc & E & HN & Hst).
  fold NBatch NR in E, Hst. rewrite E. simpl bind.
  destruct Hwf as (HB0 & HB1 & _).
  destruct (write_back_rows (DS.X (TD.solve VecLength sc)) VecLength
              IStart (DiffusionBatch.X B) HV HI HB1)
    as (XA & EW & E0 & E1 & Hel).
  fold NBatch NR in EW, E0, E1, Hel.
  change (for_rangeM 0 VecLength
            (fun IVec =>
               for_rangeM 0 NR
                 (TD.unstage (TD.solve VecLength sc) NBatch IStart IVec))
            (DiffusionBatch.X B))
    with (for_rangeM 0 VecLength
            (fun IVec =>
               for_rangeM 0 NR
                 (write_back (DS.X (TD.solve VecLength sc))
                    NBatch IStart IVec)) (DiffusionBatch.X B)).
  rewrite EW. simpl bind. exists XA.
  split; [reflexivity|]. split; [exact E0|]. split; [exact E1|].
  intros I K. rewrite Hel.
  destruct ((IStart <=? I) && (I <? IStart + VecLength) && (I <? NBatch)
            && (0 <=? K) && (K <? NR)) eqn:Ec; [|reflexivity].
  simpl in HN.
  destruct (ThomasDiffusionSolver_solve_rows VecLength (I - IStart) sc K
              ltac:(lia) ltac:(lia) ltac:(lia)) as (_ & _ & _ & HX).
  rewrite HX, HN.
  apply diff_x_same_rows; [|lia].
  intros K' HK'. destruct (Hst K' (I - IStart) HK' ltac:(lia)) as (S1 & S2 & S3).
  replace (IStart + (I - IStart)) with I in * by lia.
  replace (I <? NBatch) with true in * by lia.
  unfold dlane, dsystem_of; simpl. repeat split; assumption.
Qed.

Lemma PCRDiffusionSolver_stage_rows (I : Z) (B : DiffusionBatch.t)
  (sc0 : DS.t) :
  dbatch_wf B -> 0 <= I < extent0 (DiffusionBatch.X B) ->
  let NBatch := extent0 (DiffusionBatch.X B) in
  let NR := extent1 (DiffusionBatch.X B) in
  exists sc,
    for_rangeM 0 NR (PD.stage B I) sc0 = Some sc
    /\ DS.NRow sc = DS.NRow sc0
    /\ forall K, 0 <= K < NR -> dstaged B NBatch I sc K 0.
Proof.
  intros (HB0 & HB1 & (EG0 & EG1) & (EH0 & EH1)) HI NBatch NR.
  apply (for_rangeM_inv
           (fun K sc =>
              DS.NRow sc = DS.NRow sc0
              /\ forall K', 0 <= K' < K -> dstaged B NBatch I sc K' 0)
           0 NR _ sc0 HB1).
  - split; [reflexivity|]. intros; lia.
  - intros K sc HK (HN & Hu). unfold PD.stage.
    rewrite !get_in_bounds by (fold NBatch NR; lia). simpl.
    eexists. split; [reflexivity|]. split; [exact HN|].
    intros K' HK'. unfold dstaged, DS.setX, DS.setH, DS.setG; simpl.
    rewrite !rd_wr. replace (I + 0) with I by lia.
    destruct (Z.eqb_spec K' K) as [->|HK'']; simpl.
    + replace (I <? NBatch) with true by (fold NBatch in HI; lia).
      repeat split.
    + pose proof (Hu K' ltac:(lia)) as Hs. unfold dstaged in Hs.
      simpl in Hs. replace (I + 0) with I in Hs by lia. exact Hs.
Qed.

(** [solve(Member, G, H, X)] of PCRDiffusionSolver returns for a league rank
    below [NBatch]; it then leaves [G] and [H] as they are and overwrites the
    rows of system [I], for two rows or more with its cyclic reduction. *)
Lemma PCRDiffusionSolver_solve_arrays_rows (ub : Z) (Member : TeamMember)
  (B : DiffusionBatch.t) :
  dbatch_wf B -> 0 <= league_rank Member < extent0 (DiffusionBatch.X B) ->
  let NR := extent1 (DiffusionBatch.X B) in
  let I := league_rank Member in
  exists XA,
    PD.solve_arrays ub Member B
    = Some (DiffusionBatch.mk (DiffusionBatch.G B) (DiffusionBatch.H B) XA)
    /\ extent0 XA = extent0 (DiffusionBatch.X B) /\ extent1 XA = NR
    /\ (forall I' K,
          ~ (I' = I /\ 0 <= K < NR) ->
          elems XA I' K = elems (DiffusionBatch.X B) I' K)
    /\ (2 <= NR ->
        forall K, 0 <= K < NR -> elems XA I K = pcrd_x NR (dsystem_of B I) K).
Proof.
  intros Hwf HL NR I.
  unfold PD.solve_arrays. fold NR I.
  destruct (PCRDiffusionSolver_stage_rows I B
              (DS.mk NR (team_scratch Member 0) (team_scratch Member 1)
                 (team_scratch Member 2) (team_scratch Member 3))
              Hwf HL) as (sc & E & HN & Hst).
  fold NR in E, Hst. rewrite E. simpl bind.
  destruct Hwf as (HB0 & HB1 & _).
  destruct (write_back_row_rows (DS.X (PD.solve ub sc)) true I
              (DiffusionBatch.X B) HB1)
    as (XA & EW & E0 & E1 & Hel).
  { intros _. exact HL. }
  fold NR in EW, E0, E1, Hel.
  change (for_rangeM 0 NR (PD.unstage (PD.solve ub sc) I) (DiffusionBatch.X B))
    with (for_rangeM 0 NR (write_back_row (DS.X (PD.solve ub sc)) true I)
            (DiffusionBatch.X B)).
  rewrite EW. simpl bind. exists XA.
  split; [reflexivity|]. split; [exact E0|]. split; [exact E1|]. split.
  - intros I' K Hn. rewrite Hel.
    replace (true && (I' =? I) && (0 <=? K) && (K <? NR)) with false by lia.
    reflexivity.
  - intros HM K HK. rewrite Hel.
    replace (true && (I =? I) && (0 <=? K) && (K <? NR)) with true by lia.
    simpl in HN. rewrite PCRDiffusionSolver_solve_rows by lia. rewrite HN.
    apply pcrd_x_same_rows; [|lia].
    intros K' HK'. destruct (Hst K' HK') as (S1 & S2 & S3).
    replace (I + 0) with I in * by lia.
    replace (I <? extent0 (DiffusionBatch.X B)) with true in * by lia.
    unfold dlane, dsystem_of; simpl. repeat split; assumption.
Qed.

(** ** The team policies *)


(** The league of the row-parallel solvers has one team per system, of one
    member per row: under its own policy no team is beyond the batch. *)
Lemma PCRSolver_policy (NBatch NR : Z) :
  league_size (PCRSolver.makeTeamPolicy NBatch NR) = NBatch
  /\ team_size (PCRSolver.makeTeamPolicy NBatch NR) = NR
  /\ PD.makeTeamPolicy NBatch NR = PCRSolver.makeTeamPolicy NBatch NR.
Proof. repeat split. Qed.

(** ** Padding and frame *)

(** Whatever an entry point returns, the coefficient arrays of the result
    are those of the call. *)
Lemma solve_arrays_frame (VecLength ub : Z) (Member : TeamMember)
  (B : TridiagonalBatch.t) (Bd : DiffusionBatch.t) :
  (forall B', ThomasSolver.solve_arrays VecLength Member B = Some B' ->
     TridiagonalBatch.DL B' = TridiagonalBatch.DL B
     /\ TridiagonalBatch.D B' = TridiagonalBatch.D B
     /\ TridiagonalBatch.DU B' = TridiagonalBatch.DU B)
  /\ (forall B', PCRSolver.solve_arrays ub Member B = Some B' ->
        TridiagonalBatch.DL B' = TridiagonalBatch.DL B
        /\ TridiagonalBatch.D B' = TridiagonalBatch.D B
        /\ TridiagonalBatch.DU B' = TridiagonalBatch.DU B)
  /\ (forall B', TD.solve_arrays VecLength Member Bd = Some B' ->
        DiffusionBatch.G B' = DiffusionBatch.G Bd
        /\ DiffusionBatch.H B' = DiffusionBatch.H Bd)
  /\ (forall B', PD.solve_arrays ub Member Bd = Some B' ->
        DiffusionBatch.G B' = DiffusionBatch.G Bd
        /\ DiffusionBatch.H B' = DiffusionBatch.H Bd).
Proof.
  unfold ThomasSolver.solve_arrays, PCRSolver.solve_arrays, TD.solve_arrays,
    PD.solve_arrays.
  repeat split;
    match goal with
    | H : bind ?m _ = Some _ |- _ =>
        destruct m; simpl in H; [|discriminate H];
        match type of H with
        | bind ?m' _ = Some _ =>
            destruct m'; simpl in H; [|discriminate H];
            inversion H; reflexivity
        end
    end.
Qed.

(** C10.  Each of the four array-level entry points returns on a batch
    whose arrays have the extents of [X] (PCRDiffusionSolver for a league
    rank below [NBatch], which it does not test), and the coefficient arrays
    of the result are those of the call: only [X] is written. *)
Theorem coefficient_arrays_unchanged (VecLength ub : Z) (Member : TeamMember)
  (B : TridiagonalBatch.t) (Bd : DiffusionBatch.t) :
  batch_wf B -> dbatch_wf Bd -> 0 <= VecLength -> 0 <= league_rank Member ->
  (exists B', ThomasSolver.solve_arrays VecLength Member B = Some B'
              /\ TridiagonalBatch.DL B' = TridiagonalBatch.DL B
              /\ TridiagonalBatch.D B' = TridiagonalBatch.D B
              /\ TridiagonalBatch.DU B' = TridiagonalBatch.DU B)
  /\ (exists B', PCRSolver.solve_arrays ub Member B = Some B'
                 /\ TridiagonalBatch.DL B' = TridiagonalBatch.DL B
                 /\ TridiagonalBatch.D B' = TridiagonalBatch.D B
                 /\ TridiagonalBatch.DU B' = TridiagonalBatch.DU B)
  /\ (exists B', TD.solve_arrays VecLength Member Bd = Some B'
                 /\ DiffusionBatch.G B' = DiffusionBatch.G Bd
                 /\ DiffusionBatch.H B' = DiffusionBatch.H Bd)
  /\ (league_rank Member < extent0 (DiffusionBatch.X Bd) ->
      exists B', PD.solve_arrays ub Member Bd = Some B'
                 /\ DiffusionBatch.G B' = DiffusionBatch.G Bd
                 /\ DiffusionBatch.H B' = DiffusionBatch.H Bd).
Proof.
  intros Hwf Hdwf HV HL.
  split; [|split; [|split]].
  - destruct (ThomasSolver_solve_arrays_rows VecLength Member B Hwf HV HL)
      as (XA & E & _).
    eexists. split; [exact E|]. repeat split.
  - destruct (PCRSolver_solve_arrays_rows ub Member B Hwf HL) as (XA & E & _).
    eexists. split; [exact E|]. repeat split.
  - destruct (ThomasDiffusionSolver_solve_arrays_rows VecLength Member Bd
                Hdwf HV HL) as (XA & E & _).
    eexists. split; [exact E|]. repeat split.
  - intros Hlt.
    destruct (PCRDiffusionSolver_solve_arrays_rows ub Member Bd Hdwf
                ltac:(lia)) as (XA & E & _).
    eexists. split; [exact E|]. repeat split.
Qed.

Lemma batch2_wf : batch_wf batch2.
Proof. unfold batch_wf, same_extents; simpl. lia. Qed.

Lemma dbatch2_wf : dbatch_wf dbatch2.
Proof. unfold dbatch_wf, same_extents; simpl. lia. Qed.

Lemma dbatch1_wf : dbatch_wf dbatch1.
Proof. unfold dbatch_wf, same_extents; simpl. lia. Qed.

Lemma coefficient_arrays_unchanged_witness :
  (exists B', ThomasSolver.solve_arrays 8 (team 0) batch2 = Some B'
              /\ TridiagonalBatch.DL B' = TridiagonalBatch.DL batch2
              /\ TridiagonalBatch.D B' = TridiagonalBatch.D batch2
              /\ TridiagonalBatch.DU B' = TridiagonalBatch.DU batch2)
  /\ (exists B', PD.solve_arrays 0 (team 0) dbatch2 = Some B'
                 /\ DiffusionBatch.G B' = DiffusionBatch.G dbatch2
                 /\ DiffusionBatch.H B' = DiffusionBatch.H dbatch2).
Proof.
  destruct (coefficient_arrays_unchanged 8 0 (team 0) batch2 dbatch2
              batch2_wf dbatch2_wf ltac:(lia) ltac:(simpl; lia))
    as (HT & _ & _ & HP).
  split; [exact HT|]. apply HP. simpl. lia.
Defined.

(** C6.  PCRDiffusionSolver has no padding: for a league rank at or beyond
    [NBatch] and a batch with at least one row, its first member reads
    [G(I, 0)] outside the array, where PCRSolver stages the inert system and
    writes nothing. *)
Theorem PCRDiffusionSolver_reads_beyond_batch (ub : Z) (Member : TeamMember)
  (Bd : DiffusionBatch.t) :
  dbatch_wf Bd ->
  extent0 (DiffusionBatch.X Bd) <= league_rank Member ->
  1 <= extent1 (DiffusionBatch.X Bd) ->
  PD.solve_arrays ub Member Bd = None.
Proof.
  intros (HB0 & HB1 & (EG0 & EG1) & _) HL HR.
  unfold PD.solve_arrays.
  rewrite for_rangeM_first_fails; [reflexivity|lia|].
  unfold PD.stage, get, in_bounds.
  replace (league_rank Member <? extent0 (DiffusionBatch.G Bd))
    with false by lia.
  now rewrite andb_false_r.
Qed.

Lemma PCRDiffusionSolver_reads_beyond_batch_witness :
  PD.solve_arrays 0 (team 1) dbatch1 = None.
Proof.
  apply (PCRDiffusionSolver_reads_beyond_batch 0 (team 1) dbatch1 dbatch1_wf);
    simpl; lia.
Defined.

(** * Teams and barriers *)

Section BarrierDiscipline.
Import TeamRounds.
Variables St Rg : Type.
Variables N L : Z.
Variable compute : Z -> Z -> St -> Rg.
Variable commit1 : Rg -> Z -> St -> St.
Variable partial : (Z -> bool) -> (Z -> Rg) -> St -> St.

Hypothesis partial_none :
  forall w r s, (forall K, member N K -> w K = false) -> partial w r s = s.
Hypothesis partial_commit :
  forall w r s K, member N K -> w K = false ->
    commit1 (r K) K (partial w r s)
    = partial (fun K' => (K' =? K) || w K') r s.
Hypothesis partial_all :
  forall w r s, (forall K, member N K -> w K = true) ->
    partial w r s = for_range 0 N (fun K s' => commit1 (r K) K s') s.

Variable s0 : St.
Variable r0 : Z -> Rg.

Let Reach := reachable N L compute commit1 s0 r0.
Let Window := in_window N compute commit1 partial s0.

Lemma rounds_succ (q : Z) :
  0 <= q ->
  rounds N compute commit1 (q + 1) s0
  = round N compute commit1 (q + 1) (rounds N compute commit1 q s0).
Proof.
  intros Hq. unfold rounds. now rewrite for_range_snoc by lia.
Qed.

(** Every state of the team is in one of the two situations. *)
Lemma reachable_in_window (T : Team St Rg) : Reach T -> Window T.
Proof.
  unfold Reach, Window. induction 1 as [|T T' HR IH Hstep].
  - exists 0. split; [lia|]. left. repeat split; simpl; lia.
  - destruct IH as (q0 & Hq0 & [Hrd|Hwr]);
      destruct Hstep as [K q HK Hq HL HP|K q HK HP Harr|K q HK HP
                        |K q HK HP Harr].
    + (* a read while reading *)
      destruct Hrd as (Hb & Hs & Hr).
      pose proof (Hb K HK) as HbK. assert (q = q0) by lia. subst q.
      exists q0. split; [lia|]. left. unfold reading; cbn [pos regs scratch].
      split; [|split].
      * intros K' HK'. unfold set. destruct (Z.eqb_spec K' K); [lia|].
        now apply Hb.
      * exact Hs.
      * intros K' HK'. unfold set.
        destruct (Z.eqb_spec K' K) as [->|Hne]; intros HP'.
        -- now rewrite Hs.
        -- now apply Hr.
    + (* the first barrier opens: all have read *)
      destruct Hrd as (Hb & Hs & Hr).
      pose proof (Hb K HK) as HbK. assert (q = q0) by lia. subst q.
      assert (Hall : forall K', member N K' -> pos T K' = 4 * q0 + 1).
      { intros K' HK'. pose proof (Hb K' HK'). pose proof (Harr K' HK'). lia. }
      exists q0. split; [lia|]. right. unfold writing; cbn [pos regs scratch].
      split; [|split].
      * intros K' HK'. unfold set. destruct (Z.eqb_spec K' K); [lia|].
        rewrite Hall by exact HK'. lia.
      * intros K' HK'. apply Hr; [exact HK'|]. now apply Hall.
      * rewrite partial_none; [exact Hs|].
        intros K' HK'. unfold set. destruct (Z.eqb_spec K' K); [lia|].
        rewrite Hall by exact HK'. lia.
    + (* no write while reading *)
      destruct Hrd as (Hb & _). pose proof (Hb K HK). lia.
    + (* a member leaves the second barrier of the level before *)
      destruct Hrd as (Hb & Hs & Hr).
      pose proof (Hb K HK) as HbK. assert (q = q0 - 1) by lia. subst q.
      exists q0. split; [lia|]. left. unfold reading; cbn [pos regs scratch].
      split; [|split].
      * intros K' HK'. unfold set. destruct (Z.eqb_spec K' K); [lia|].
        now apply Hb.
      * exact Hs.
      * intros K' HK'. unfold set.
        destruct (Z.eqb_spec K' K) as [->|Hne]; intros HP'; [lia|].
        now apply Hr.
    + (* no read while writing *)
      destruct Hwr as (Hb & _). pose proof (Hb K HK). lia.
    + (* a member leaves the first barrier *)
      destruct Hwr as (Hb & Hr & Hs).
      pose proof (Hb K HK) as HbK. assert (q = q0) by lia. subst q.
      exists q0. split; [lia|]. right. unfold writing; cbn [pos regs scratch].
      split; [|split].
      * intros K' HK'. unfold set. destruct (Z.eqb_spec K' K); [lia|].
        now apply Hb.
      * exact Hr.
      * rewrite Hs. f_equal. apply functional_extensionality. intros K'.
        unfold set. destruct (Z.eqb_spec K' K) as [->|Hne]; [lia|reflexivity].
    + (* a write *)
      destruct Hwr as (Hb & Hr & Hs).
      pose proof (Hb K HK) as HbK. assert (q = q0) by lia. subst q.
      exists q0. split; [lia|]. right. unfold writing; cbn [pos regs scratch].
      split; [|split].
      * intros K' HK'. unfold set. destruct (Z.eqb_spec K' K); [lia|].
        now apply Hb.
      * exact Hr.
      * rewrite Hs. rewrite partial_commit by (try exact HK; lia).
        f_equal. apply functional_extensionality. intros K'.
        unfold set. destruct (Z.eqb_spec K' K) as [->|Hne]; simpl.
        -- lia.
        -- reflexivity.
    + (* the second barrier opens: all have written *)
      destruct Hwr as (Hb & Hr & Hs).
      pose proof (Hb K HK) as HbK. assert (q = q0) by lia. subst q.
      assert (Hall : forall K', member N K' -> pos T K' = 4 * q0 + 3).
      { intros K' HK'. pose proof (Hb K' HK'). pose proof (Harr K' HK'). lia. }
      exists (q0 + 1). split; [lia|]. left. unfold reading; cbn [pos regs scratch].
      split; [|split].
      * intros K' HK'. unfold set. destruct (Z.eqb_spec K' K); [lia|].
        rewrite Hall by exact HK'. lia.
      * rewrite Hs, rounds_succ by lia. unfold round.
        rewrite partial_all.
        -- apply for_range_ext. intros k t Hk. now rewrite Hr.
        -- intros K' HK'. rewrite Hall by exact HK'. lia.
      * intros K' HK'. unfold set.
        destruct (Z.eqb_spec K' K) as [->|Hne]; intros HP'; [lia|].
        rewrite Hall in HP' by exact HK'. lia.
Qed.

(** A member that is about to read level [q + 1] reads the scratch that [q]
    synchronous rounds leave: no row of it is from level [q + 1] or later,
    and none is still from before level [q]. *)
Lemma reads_see_rounds (T : Team St Rg) (K q : Z) :
  Reach T -> member N K -> pos T K = 4 * q ->
  scratch T = rounds N compute commit1 q s0.
Proof.
  intros HR HK HP.
  destruct (reachable_in_window T HR) as (q0 & Hq0 & [Hrd|Hwr]).
  - destruct Hrd as (Hb & Hs & _). pose proof (Hb K HK).
    assert (q = q0) by lia. now subst q.
  - destruct Hwr as (Hb & _). pose proof (Hb K HK). lia.
Qed.

(** No member writes at a level before every member has read at it, and no
    member reads at the next level before every member has written. *)
Lemma writes_after_reads (T : Team St Rg) (K K' q : Z) :
  Reach T -> member N K -> member N K' ->
  (4 * q + 2 <= pos T K -> 4 * q + 1 <= pos T K')
  /\ (4 * q + 4 <= pos T K -> 4 * q + 3 <= pos T K').
Proof.
  intros HR HK HK'.
  destruct (reachable_in_window T HR) as (q0 & Hq0 & [Hrd|Hwr]).
  - destruct Hrd as (Hb & _). pose proof (Hb K HK). pose proof (Hb K' HK').
    lia.
  - destruct Hwr as (Hb & _). pose proof (Hb K HK). pose proof (Hb K' HK').
    lia.
Qed.

End BarrierDiscipline.

(** ** The team completes its levels *)

Section TeamProgress.
Import TeamRounds.
Variables St Rg : Type.
Variables N L : Z.
Variable compute : Z -> Z -> St -> Rg.
Variable commit1 : Rg -> Z -> St -> St.
Variable s0 : St.
Variable r0 : Z -> Rg.

Let Reach := reachable N L compute commit1 s0 r0.

(** When each member at position [p] can move to [p + 1] while the others
    are at [p] or [p + 1], the whole team moves from [p] to [p + 1]. *)
Lemma team_sweep (p : Z) (T : Team St Rg) :
  (forall (U : Team St Rg) K,
      member N K -> pos U K = p ->
      (forall K', member N K' -> p <= pos U K' <= p + 1) ->
      exists U', step N L compute commit1 U U'
                 /\ pos U' = set (pos U) K (p + 1)) ->
  Reach T -> (forall K, member N K -> pos T K = p) ->
  exists T', Reach T' /\ forall K, member N K -> pos T' K = p + 1.
Proof.
  intros Hcan HR HP.
  assert (Hk : forall k, 0 <= k ->
            exists U, Reach U
                      /\ forall K, member N K ->
                           pos U K = if K <? k then p + 1 else p).
  { intros k Hk0. pattern k. apply row_ind; [| |exact Hk0].
    - exists T. split; [exact HR|]. intros K HK.
      replace (K <? 0) with false by (unfold member in HK; lia).
      now apply HP.
    - intros i Hi (U & HU & HPU).
      destruct (Z_lt_ge_dec i N) as [HiN|HiN].
      + assert (Hm : member N i) by (unfold member; lia).
        destruct (Hcan U i Hm) as (U' & Hstep & Hpos).
        * rewrite HPU by exact Hm. now replace (i <? i) with false by lia.
        * intros K' HK'. rewrite HPU by exact HK'.
          destruct (K' <? i); lia.
        * exists U'. split; [eapply reach_step; [exact HU|exact Hstep]|].
          intros K HK. rewrite Hpos. unfold set.
          destruct (Z.eqb_spec K i) as [->|Hne].
          -- now replace (i <? i + 1) with true by lia.
          -- rewrite HPU by exact HK.
             now replace (K <? i + 1) with (K <? i) by lia.
      + exists U. split; [exact HU|]. intros K HK.
        rewrite HPU by exact HK. unfold member in HK.
        replace (K <? i + 1) with true by lia.
        now replace (K <? i) with true by lia. }
  destruct (Hk (Z.max 0 N) ltac:(lia)) as (U & HU & HPU).
  exists U. split; [exact HU|]. intros K HK. rewrite HPU by exact HK.
  unfold member in HK. now replace (K <? Z.max 0 N) with true by lia.
Qed.

(** The team can run any number of levels below [NLevels] to the end. *)
Lemma team_completes_levels (q : Z) :
  0 <= q -> q < L \/ q = 0 ->
  exists T, Reach T /\ forall K, member N K -> pos T K = 4 * q.
Proof.
  intros Hq0. pattern q. apply row_ind; [| |exact Hq0].
  - intros _. exists (mkTeam (fun _ => 0) r0 s0).
    split; [apply reach_init|]. intros K _. reflexivity.
  - intros i Hi IH HiL.
    destruct (IH ltac:(lia)) as (T0 & HR0 & HP0).
    destruct (team_sweep (4 * i) T0) as (T1 & HR1 & HP1);
      [|exact HR0|exact HP0|].
    { intros U K HK HPK _. eexists. split.
      - apply (step_read _ _ N L compute commit1 U K i); try assumption; lia.
      - reflexivity. }
    destruct (team_sweep (4 * i + 1) T1) as (T2 & HR2 & HP2);
      [|exact HR1|exact HP1|].
    { intros U K HK HPK Hall. eexists. split.
      - apply (step_barrier1 _ _ N L compute commit1 U K i);
          try assumption.
        intros K' HK'. apply Hall. exact HK'.
      - simpl. f_equal. lia. }
    destruct (team_sweep (4 * i + 1 + 1) T2) as (T3 & HR3 & HP3);
      [|exact HR2|exact HP2|].
    { intros U K HK HPK _. eexists. split.
      - apply (step_write _ _ N L compute commit1 U K i); try assumption.
        lia.
      - simpl. f_equal. lia. }
    destruct (team_sweep (4 * i + 1 + 1 + 1) T3) as (T4 & HR4 & HP4);
      [|exact HR3|exact HP3|].
    { intros U K HK HPK Hall. eexists. split.
      - apply (step_barrier2 _ _ N L compute commit1 U K i);
          try assumption; [lia|].
        intros K' HK'. pose proof (Hall K' HK'). lia.
      - simpl. f_equal. lia. }
    exists T4. split; [exact HR4|]. intros K HK.
    rewrite HP4 by exact HK. lia.
Qed.

End TeamProgress.

(** ** The teams of the two row-parallel solvers *)

Lemma PCRSolver_partial_none (N : Z) (w : Z -> bool)
  (r : Z -> PCRSolver.Regs) (s : t) :
  (forall K, TeamRounds.member N K -> w K = false) ->
  PCRSolver_partial N w r s = s.
Proof.
  intros Hw. destruct s as [nr dl d du x]. unfold PCRSolver_partial; simpl.
  assert (Hsel : forall i v, w i && (0 <=? i) && (i <? N) && (v =? 0) = false).
  { intros i v. destruct ((0 <=? i) && (i <? N)) eqn:E.
    - rewrite (Hw i) by (unfold TeamRounds.member; lia). reflexivity.
    - rewrite <- (andb_assoc (w i)), E, andb_false_r. reflexivity. }
  f_equal; lane_ext; now rewrite Hsel.
Qed.

Lemma PCRSolver_partial_commit (N : Z) (w : Z -> bool)
  (r : Z -> PCRSolver.Regs) (s : t) (K : Z) :
  TeamRounds.member N K -> w K = false ->
  PCRSolver_commit1 (r K) K (PCRSolver_partial N w r s)
  = PCRSolver_partial N (fun K' => (K' =? K) || w K') r s.
Proof.
  intros HK HwK. unfold TeamRounds.member in HK.
  unfold PCRSolver_commit1, PCRSolver.commit, PCRSolver_partial,
    setD, setX, setDL, setDU; simpl.
  f_equal; lane_ext; unfold wr;
    (destruct (Z.eqb_spec a K) as [->|Ha]; simpl;
     [ rewrite HwK; simpl;
       replace ((0 <=? K) && (K <? N)) with true by lia; simpl;
       destruct (b =? 0); reflexivity
     | reflexivity ]).
Qed.

Lemma scratch_ext (a b : t) :
  NRow a = NRow b ->
  (forall i v, rd (DL a) i v = rd (DL b) i v) ->
  (forall i v, rd (D a) i v = rd (D b) i v) ->
  (forall i v, rd (DU a) i v = rd (DU b) i v) ->
  (forall i v, rd (X a) i v = rd (X b) i v) ->
  a = b.
Proof.
  destruct a, b; simpl. unfold rd. intros -> H1 H2 H3 H4.
  f_equal; lane_ext; auto.
Qed.

Lemma PCRSolver_partial_all (N : Z) (w : Z -> bool)
  (r : Z -> PCRSolver.Regs) (s : t) :
  (forall K, TeamRounds.member N K -> w K = true) ->
  PCRSolver_partial N w r s
  = for_range 0 N (fun K s' => PCRSolver_commit1 (r K) K s') s.
Proof.
  intros Hw.
  rewrite (for_range_ext 0 N _ (PCRSolver.commit r)) by reflexivity.
  destruct (PCRSolver_commit_rows r N s) as (HN & HDL & HD & HDU & HX).
  assert (Hsel : forall i v,
            w i && (0 <=? i) && (i <? N) && (v =? 0)
            = (0 <=? i) && (i <? N) && (v =? 0)).
  { intros i v. destruct ((0 <=? i) && (i <? N)) eqn:E.
    - rewrite (Hw i) by (unfold TeamRounds.member; lia). simpl.
      now rewrite E.
    - rewrite <- (andb_assoc (w i)), E, andb_false_r. reflexivity. }
  apply scratch_ext; simpl.
  - now rewrite HN.
  - intros i v. rewrite HDL. unfold rd. now rewrite Hsel.
  - intros i v. rewrite HD. unfold rd. now rewrite Hsel.
  - intros i v. rewrite HDU. unfold rd. now rewrite Hsel.
  - intros i v. rewrite HX. unfold rd. now rewrite Hsel.
Qed.

Lemma PCRSolver_rounds (ub N q : Z) (s0 : t) :
  TeamRounds.rounds N (PCRSolver.reduce ub N) PCRSolver_commit1 q s0
  = for_range 1 (q + 1) (PCRSolver.level ub N) s0.
Proof. reflexivity. Qed.

Lemma PCRDiffusionSolver_partial_none (N : Z) (w : Z -> bool)
  (r : Z -> PD.Regs) (s : DS.t) :
  (forall K, TeamRounds.member N K -> w K = false) ->
  PCRDiffusionSolver_partial N w r s = s.
Proof.
  intros Hw. destruct s as [nr g h x al].
  unfold PCRDiffusionSolver_partial; simpl.
  assert (Hsel : forall i v, w i && (0 <=? i) && (i <? N) && (v =? 0) = false).
  { intros i v. destruct ((0 <=? i) && (i <? N)) eqn:E.
    - rewrite (Hw i) by (unfold TeamRounds.member; lia). reflexivity.
    - rewrite <- (andb_assoc (w i)), E, andb_false_r. reflexivity. }
  f_equal; lane_ext; now rewrite Hsel.
Qed.

Lemma PCRDiffusionSolver_partial_commit (N : Z) (w : Z -> bool)
  (r : Z -> PD.Regs) (s : DS.t) (K : Z) :
  TeamRounds.member N K -> w K = false ->
  PCRDiffusionSolver_commit1 (r K) K (PCRDiffusionSolver_partial N w r s)
  = PCRDiffusionSolver_partial N (fun K' => (K' =? K) || w K') r s.
Proof.
  intros HK HwK. unfold TeamRounds.member in HK.
  unfold PCRDiffusionSolver_commit1, PD.commit, PCRDiffusionSolver_partial,
    DS.setG, DS.setH, DS.setX; simpl.
  f_equal; lane_ext; unfold wr;
    (destruct (Z.eqb_spec a K) as [->|Ha]; simpl;
     [ rewrite HwK; simpl;
       replace ((0 <=? K) && (K <? N)) with true by lia; simpl;
       destruct (b =? 0); reflexivity
     | reflexivity ]).
Qed.

Lemma dscratch_ext (a b : DS.t) :
  DS.NRow a = DS.NRow b ->
  (forall i v, rd (DS.G a) i v = rd (DS.G b) i v) ->
  (forall i v, rd (DS.H a) i v = rd (DS.H b) i v) ->
  (forall i v, rd (DS.X a) i v = rd (DS.X b) i v) ->
  DS.Alpha a = DS.Alpha b ->
  a = b.
Proof.
  destruct a, b; simpl. unfold rd. intros -> H1 H2 H3 ->.
  f_equal; lane_ext; auto.
Qed.

Lemma PCRDiffusionSolver_commit_Alpha (regs : Z -> PD.Regs) (NR : Z)
  (s : DS.t) :
  DS.Alpha (for_range 0 NR (PD.commit regs) s) = DS.Alpha s.
Proof.
  destruct (Z_le_gt_dec 0 NR) as [Hle|Hgt].
  - apply (for_range_inv (fun _ u => DS.Alpha u = DS.Alpha s) 0 NR _ s Hle).
    + reflexivity.
    + intros k u _ Hu. exact Hu.
  - now rewrite for_range_nil by lia.
Qed.

Lemma PCRDiffusionSolver_partial_all (N : Z) (w : Z -> bool)
  (r : Z -> PD.Regs) (s : DS.t) :
  (forall K, TeamRounds.member N K -> w K = true) ->
  PCRDiffusionSolver_partial N w r s
  = for_range 0 N (fun K s' => PCRDiffusionSolver_commit1 (r K) K s') s.
Proof.
  intros Hw.
  rewrite (for_range_ext 0 N _ (PD.commit r)) by reflexivity.
  destruct (PCRDiffusionSolver_commit_rows r N s) as (HN & HG & HH & HX).
  assert (Hsel : forall i v,
            w i && (0 <=? i) && (i <? N) && (v =? 0)
            = (0 <=? i) && (i <? N) && (v =? 0)).
  { intros i v. destruct ((0 <=? i) && (i <? N)) eqn:E.
    - rewrite (Hw i) by (unfold TeamRounds.member; lia). simpl.
      now rewrite E.
    - rewrite <- (andb_assoc (w i)), E, andb_false_r. reflexivity. }
  apply dscratch_ext; simpl.
  - now rewrite HN.
  - intros i v. rewrite HG. unfold rd. now rewrite Hsel.
  - intros i v. rewrite HH. unfold rd. now rewrite Hsel.
  - intros i v. rewrite HX. unfold rd. now rewrite Hsel.
  - now rewrite PCRDiffusionSolver_commit_Alpha.
Qed.

(** The interleaved team can run all its levels, and then holds the scratch
    of the level loop of [solve]. *)
Lemma PCRSolver_team_levels (ub : Z) (s0 : t) (r0 : Z -> PCRSolver.Regs) :
  1 <= NRow s0 -> 1 <= ceil_log2 (NRow s0) ->
  exists T,
    TeamRounds.reachable (NRow s0) (ceil_log2 (NRow s0))
      (PCRSolver.reduce ub (NRow s0)) PCRSolver_commit1 s0 r0 T
    /\ (forall K, 0 <= K < NRow s0 ->
                  TeamRounds.pos T K = 4 * (ceil_log2 (NRow s0) - 1))
    /\ TeamRounds.scratch T
       = for_range 1 (ceil_log2 (NRow s0)) (PCRSolver.level ub (NRow s0)) s0.
Proof.
  intros HN HL.
  destruct (team_completes_levels _ _ (NRow s0) (ceil_log2 (NRow s0))
              (PCRSolver.reduce ub (NRow s0)) PCRSolver_commit1 s0 r0
              (ceil_log2 (NRow s0) - 1) ltac:(lia) ltac:(lia))
    as (T & HR & HP).
  exists T. split; [exact HR|]. split; [exact HP|].
  rewrite (reads_see_rounds _ _ _ _ _ _ (PCRSolver_partial (NRow s0))
             (PCRSolver_partial_none (NRow s0))
             (PCRSolver_partial_commit (NRow s0))
             (PCRSolver_partial_all (NRow s0))
             s0 r0 T 0 (ceil_log2 (NRow s0) - 1) HR).
  - rewrite PCRSolver_rounds. f_equal. lia.
  - unfold TeamRounds.member. lia.
  - apply HP. unfold TeamRounds.member. lia.
Qed.

Lemma PCRDiffusionSolver_team_levels (ub : Z) (s0 : DS.t)
  (r0 : Z -> PD.Regs) :
  1 <= DS.NRow s0 -> 1 <= ceil_log2 (DS.NRow s0) ->
  exists T,
    TeamRounds.reachable (DS.NRow s0) (ceil_log2 (DS.NRow s0))
      (PD.reduce ub (DS.NRow s0)) PCRDiffusionSolver_commit1 s0 r0 T
    /\ (forall K, 0 <= K < DS.NRow s0 ->
                  TeamRounds.pos T K = 4 * (ceil_log2 (DS.NRow s0) - 1))
    /\ TeamRounds.scratch T
       = for_range 1 (ceil_log2 (DS.NRow s0)) (PD.level ub (DS.NRow s0)) s0.
Proof.
  intros HN HL.
  destruct (team_completes_levels _ _ (DS.NRow s0) (ceil_log2 (DS.NRow s0))
              (PD.reduce ub (DS.NRow s0)) PCRDiffusionSolver_commit1 s0 r0
              (ceil_log2 (DS.NRow s0) - 1) ltac:(lia) ltac:(lia))
    as (T & HR & HP).
  exists T. split; [exact HR|]. split; [exact HP|].
  rewrite (reads_see_rounds _ _ _ _ _ _
             (PCRDiffusionSolver_partial (DS.NRow s0))
             (PCRDiffusionSolver_partial_none (DS.NRow s0))
             (PCRDiffusionSolver_partial_commit (DS.NRow s0))
             (PCRDiffusionSolver_partial_all (DS.NRow s0))
             s0 r0 T 0 (ceil_log2 (DS.NRow s0) - 1) HR).
  - change (TeamRounds.rounds (DS.NRow s0) (PD.reduce ub (DS.NRow s0))
              PCRDiffusionSolver_commit1 (ceil_log2 (DS.NRow s0) - 1) s0)
      with (for_range 1 (ceil_log2 (DS.NRow s0) - 1 + 1)
              (PD.level ub (DS.NRow s0)) s0).
    f_equal. lia.
  - unfold TeamRounds.member. lia.
  - apply HP. unfold TeamRounds.member. lia.
Qed.

(** C9.  Barrier discipline of the reduction levels of PCRSolver and
    PCRDiffusionSolver, in every state the members of a team can reach by
    interleaving their reads, their writes and the two barriers of each
    level: a member is past the first barrier of a level only when every
    member has done its reads of that level, it is past the second barrier
    only when every member has done its writes, and a member about to read
    level [q + 1] finds the scratch that [q] complete levels leave. *)
Theorem barrier_discipline (ub : Z) (s0 : t) (sd0 : DS.t)
  (r0 : Z -> PCRSolver.Regs) (rd0 : Z -> PD.Regs)
  (T : TeamRounds.Team t PCRSolver.Regs)
  (Td : TeamRounds.Team DS.t PD.Regs) (K K' q : Z) :
  TeamRounds.reachable (NRow s0) (ceil_log2 (NRow s0))
    (PCRSolver.reduce ub (NRow s0)) PCRSolver_commit1 s0 r0 T ->
  TeamRounds.reachable (DS.NRow sd0) (ceil_log2 (DS.NRow sd0))
    (PD.reduce ub (DS.NRow sd0)) PCRDiffusionSolver_commit1 sd0 rd0 Td ->
  (0 <= K < NRow s0 -> 0 <= K' < NRow s0 ->
   (4 * q + 2 <= TeamRounds.pos T K -> 4 * q + 1 <= TeamRounds.pos T K')
   /\ (4 * q + 4 <= TeamRounds.pos T K -> 4 * q + 3 <= TeamRounds.pos T K')
   /\ (TeamRounds.pos T K = 4 * q ->
       TeamRounds.scratch T
       = for_range 1 (q + 1) (PCRSolver.level ub (NRow s0)) s0))
  /\ (0 <= K < DS.NRow sd0 -> 0 <= K' < DS.NRow sd0 ->
      (4 * q + 2 <= TeamRounds.pos Td K -> 4 * q + 1 <= TeamRounds.pos Td K')
      /\ (4 * q + 4 <= TeamRounds.pos Td K
          -> 4 * q + 3 <= TeamRounds.pos Td K')
      /\ (TeamRounds.pos Td K = 4 * q ->
          TeamRounds.scratch Td
          = for_range 1 (q + 1) (PD.level ub (DS.NRow sd0)) sd0)).
Proof.
  intros HR HRd. split.
  - intros HK HK'.
    destruct (writes_after_reads _ _ _ _ _ _ (PCRSolver_partial (NRow s0))
                (PCRSolver_partial_none (NRow s0))
                (PCRSolver_partial_commit (NRow s0))
                (PCRSolver_partial_all (NRow s0))
                s0 r0 T K K' q HR HK HK') as [H1 H2].
    split; [exact H1|]. split; [exact H2|].
    intros HP.
    apply (reads_see_rounds _ _ _ _ _ _ (PCRSolver_partial (NRow s0))
             (PCRSolver_partial_none (NRow s0))
             (PCRSolver_partial_commit (NRow s0))
             (PCRSolver_partial_all (NRow s0))
             s0 r0 T K q HR HK HP).
  - intros HK HK'.
    destruct (writes_after_reads _ _ _ _ _ _
                (PCRDiffusionSolver_partial (DS.NRow sd0))
                (PCRDiffusionSolver_partial_none (DS.NRow sd0))
                (PCRDiffusionSolver_partial_commit (DS.NRow sd0))
                (PCRDiffusionSolver_partial_all (DS.NRow sd0))
                sd0 rd0 Td K K' q HRd HK HK') as [H1 H2].
    split; [exact H1|]. split; [exact H2|].
    intros HP.
    apply (reads_see_rounds _ _ _ _ _ _
             (PCRDiffusionSolver_partial (DS.NRow sd0))
             (PCRDiffusionSolver_partial_none (DS.NRow sd0))
             (PCRDiffusionSolver_partial_commit (DS.NRow sd0))
             (PCRDiffusionSolver_partial_all (DS.NRow sd0))
             sd0 rd0 Td K q HRd HK HP).
Qed.

Lemma team5_reachable :
  TeamRounds.reachable 5 (ceil_log2 5) (PCRSolver.reduce 0 5)
    PCRSolver_commit1 scenario5 (fun _ => PCRSolver.mkRegs 0 0 0 0) team5.
Proof.
  eapply TeamRounds.reach_step; [apply TeamRounds.reach_init|].
  apply (TeamRounds.step_read _ _ 5 (ceil_log2 5) (PCRSolver.reduce 0 5)
           PCRSolver_commit1
           (TeamRounds.mkTeam (fun _ => 0)
              (fun _ => PCRSolver.mkRegs 0 0 0 0) scenario5) 0 0).
  - unfold TeamRounds.member. lia.
  - lia.
  - reflexivity.
  - reflexivity.
Qed.

Lemma dteam5_reachable :
  TeamRounds.reachable 5 (ceil_log2 5) (PD.reduce 0 5)
    PCRDiffusionSolver_commit1 closed5 (fun _ => PD.mkRegs 0 0 0) dteam5.
Proof.
  eapply TeamRounds.reach_step; [apply TeamRounds.reach_init|].
  apply (TeamRounds.step_read _ _ 5 (ceil_log2 5) (PD.reduce 0 5)
           PCRDiffusionSolver_commit1
           (TeamRounds.mkTeam (fun _ => 0)
              (fun _ => PD.mkRegs 0 0 0) closed5) 0 0).
  - unfold TeamRounds.member. lia.
  - lia.
  - reflexivity.
  - reflexivity.
Qed.

Lemma barrier_discipline_witness :
  TeamRounds.scratch team5 = scenario5
  /\ TeamRounds.scratch dteam5 = closed5.
Proof.
  destruct (barrier_discipline 0 scenario5 closed5
              (fun _ => PCRSolver.mkRegs 0 0 0 0) (fun _ => PD.mkRegs 0 0 0)
              team5 dteam5 1 0 0 team5_reachable dteam5_reachable)
    as [HT HD].
  destruct (HT ltac:(simpl; lia) ltac:(simpl; lia)) as (_ & _ & H1).
  destruct (HD ltac:(simpl; lia) ltac:(simpl; lia)) as (_ & _ & H2).
  split; [apply H1|apply H2]; reflexivity.
Defined.

(** * Further properties of the code *)

(** ** The entry points on arrays, end to end *)

(** Whether [y] solves a system of [M] rows depends on its rows
    [0 .. M - 1] only. *)
Lemma solves_ext (M : Z) (sys : System.t) (y y' : Z -> Real) :
  (forall k, 0 <= k < M -> y k = y' k) -> solves M sys y -> solves M sys y'.
Proof.
  intros E Hy k Hk. rewrite <- (Hy k Hk). unfold mulA.
  rewrite <- (E k Hk).
  destruct (0 <? k) eqn:E0; destruct (k <? M - 1) eqn:E1;
    rewrite <- ?(E (k - 1)) by lia; rewrite <- ?(E (k + 1)) by lia;
    reflexivity.
Qed.

(** X1.  ThomasSolver on arrays, end to end: on a batch whose arrays have the
    extents of [X], a team solves the systems of its group.  For every
    system [I] of the group that is strictly diagonally dominant, row [I] of
    [X] holds afterwards a vector [x] with [A_I * x = X_old(I, .)]; the
    systems outside the group keep their right-hand sides. *)
Theorem ThomasSolver_arrays_solve (VecLength : Z) (Member : TeamMember)
  (B : TridiagonalBatch.t) :
  batch_wf B -> 0 <= VecLength -> 0 <= league_rank Member ->
  let NBatch := extent0 (TridiagonalBatch.X B) in
  let NR := extent1 (TridiagonalBatch.X B) in
  let IStart := league_rank Member * VecLength in
  exists B',
    ThomasSolver.solve_arrays VecLength Member B = Some B'
    /\ (forall I, IStart <= I < IStart + VecLength -> I < NBatch ->
          diag_dominant NR (system_of B I) ->
          solves NR (system_of B I) (elems (TridiagonalBatch.X B') I))
    /\ (forall I K, ~ (IStart <= I < IStart + VecLength) ->
          elems (TridiagonalBatch.X B') I K = elems (TridiagonalBatch.X B) I K).
Proof.
  intros Hwf HV Hr NBatch NR IStart.
  destruct (ThomasSolver_solve_arrays_rows VecLength Member B Hwf HV Hr)
    as (XA & E & _ & _ & Hel).
  eexists. split; [exact E|]. cbn [TridiagonalBatch.X]. split.
  - intros I HI HIb Hdom.
    apply (solves_ext NR _ (thomas_x (system_of B I) NR)).
    + intros k Hk. rewrite Hel.
      replace ((league_rank Member * VecLength <=? I)
               && (I <? league_rank Member * VecLength + VecLength)
               && (I <? extent0 (TridiagonalBatch.X B))
               && (0 <=? k) && (k <? extent1 (TridiagonalBatch.X B)))
        with true; [reflexivity|].
      subst NBatch NR IStart. symmetry.
      repeat (apply andb_true_intro; split); lia.
    + apply thomas_x_solves, dominant_pivots_nonzero, Hdom.
  - intros I K HI. rewrite Hel.
    destruct (league_rank Member * VecLength <=? I) eqn:E1;
      destruct (I <? league_rank Member * VecLength + VecLength) eqn:E2;
      try reflexivity.
    exfalso. apply HI. subst IStart. lia.
Qed.

Lemma batch2_dominant (I : Z) :
  0 <= I < 2 -> diag_dominant 4 (system_of batch2 I).
Proof.
  intros HI k Hk. assert (I = 0 \/ I = 1) as [-> | ->] by lia;
    rows4 k Hk; eval_rows; abs_lra.
Qed.

Lemma ThomasSolver_arrays_solve_witness :
  exists B',
    ThomasSolver.solve_arrays 8 (team 0) batch2 = Some B'
    /\ solves 4 (system_of batch2 1) (elems (TridiagonalBatch.X B') 1).
Proof.
  destruct (ThomasSolver_arrays_solve 8 (team 0) batch2 batch2_wf
              ltac:(lia) ltac:(simpl; lia)) as (B' & E & Hs & _).
  exists B'. split; [exact E|].
  apply (Hs 1); [simpl; lia|simpl; lia|].
  apply batch2_dominant. lia.
Defined.

(** X2.  PCRSolver on arrays, end to end: the team of league rank
    [I < NBatch] overwrites row [I] of [X] with the solution of system [I]
    when that system has at least two rows, is strictly diagonally dominant
    and stores zeros outside the matrix; no other row of [X] changes. *)
Theorem PCRSolver_arrays_solve (ub : Z) (Member : TeamMember)
  (B : TridiagonalBatch.t) :
  batch_wf B ->
  let NBatch := extent0 (TridiagonalBatch.X B) in
  let NR := extent1 (TridiagonalBatch.X B) in
  let I := league_rank Member in
  0 <= I < NBatch -> 2 <= NR ->
  zero_corners NR (system_of B I) -> diag_dominant NR (system_of B I) ->
  exists B',
    PCRSolver.solve_arrays ub Member B = Some B'
    /\ solves NR (system_of B I) (elems (TridiagonalBatch.X B') I)
    /\ (forall I' K, I' <> I ->
          elems (TridiagonalBatch.X B') I' K
          = elems (TridiagonalBatch.X B) I' K).
Proof.
  intros Hwf NBatch NR I. subst NBatch NR I. intros HI HNR Hc Hdom.
  set (NR := extent1 (TridiagonalBatch.X B)) in *.
  destruct (PCRSolver_solve_arrays_rows ub Member B Hwf ltac:(lia))
    as (XA & E & _ & _ & Hframe & Hel).
  eexists. split; [exact E|]. cbn [TridiagonalBatch.X]. split.
  - pose proof (thomas_x_solves NR _ (dominant_pivots_nonzero NR _ Hdom))
      as Hy.
    apply (solves_ext NR _ (thomas_x (system_of B (league_rank Member)) NR));
      [|exact Hy].
    intros k Hk. rewrite (Hel ltac:(lia) HNR k Hk).
    symmetry. apply pcr_x_unique; assumption.
  - intros I' K Hne. apply Hframe. intros (HE & _). apply Hne, HE.
Qed.

Lemma batch2_corners (I : Z) :
  0 <= I < 2 -> zero_corners 4 (system_of batch2 I).
Proof.
  intros HI. assert (I = 0 \/ I = 1) as [-> | ->] by lia; split; reflexivity.
Qed.

Lemma PCRSolver_arrays_solve_witness :
  exists B',
    PCRSolver.solve_arrays 0 (team 1) batch2 = Some B'
    /\ solves 4 (system_of batch2 1) (elems (TridiagonalBatch.X B') 1).
Proof.
  destruct (PCRSolver_arrays_solve 0 (team 1) batch2 batch2_wf
              ltac:(simpl; lia) ltac:(simpl; lia)
              (batch2_corners 1 ltac:(lia)) (batch2_dominant 1 ltac:(lia)))
    as (B' & E & Hs & _).
  exists B'. split; [exact E|exact Hs].
Defined.

(** X3.  ThomasDiffusionSolver on arrays, end to end: for every system of the
    group with positive [H] and non-negative [G], row [I] of [X] holds
    afterwards the solution of the explicit tridiagonal form of the system
    (diagonal [H(k) + G(k-1) + G(k)], off-diagonals [-G]); the systems
    outside the group keep their right-hand sides. *)
Theorem ThomasDiffusionSolver_arrays_solve (VecLength : Z)
  (Member : TeamMember) (B : DiffusionBatch.t) :
  dbatch_wf B -> 0 <= VecLength -> 0 <= league_rank Member ->
  let NBatch := extent0 (DiffusionBatch.X B) in
  let NR := extent1 (DiffusionBatch.X B) in
  let IStart := league_rank Member * VecLength in
  exists B',
    TD.solve_arrays VecLength Member B = Some B'
    /\ (forall I, IStart <= I < IStart + VecLength -> I < NBatch ->
          positive_diffusion NR (dsystem_of B I) ->
          solves NR (explicit_form (dsystem_of B I))
            (elems (DiffusionBatch.X B') I))
    /\ (forall I K, ~ (IStart <= I < IStart + VecLength) ->
          elems (DiffusionBatch.X B') I K = elems (DiffusionBatch.X B) I K).
Proof.
  intros Hwf HV Hr NBatch NR IStart.
  destruct (ThomasDiffusionSolver_solve_arrays_rows VecLength Member B
              Hwf HV Hr) as (XA & E & _ & _ & Hel).
  eexists. split; [exact E|]. cbn [DiffusionBatch.X]. split.
  - intros I HI HIb Hpos.
    pose proof (dominant_pivots_nonzero NR _
                  (positive_diffusion_dominant NR _ Hpos)) as Hpiv.
    apply (solves_ext NR _ (thomas_x (explicit_form (dsystem_of B I)) NR)).
    + intros k Hk. rewrite Hel.
      replace ((league_rank Member * VecLength <=? I)
               && (I <? league_rank Member * VecLength + VecLength)
               && (I <? extent0 (DiffusionBatch.X B))
               && (0 <=? k) && (k <? extent1 (DiffusionBatch.X B)))
        with true.
      * symmetry. apply (diff_x_elim NR); assumption.
      * subst NBatch NR IStart. symmetry.
        repeat (apply andb_true_intro; split); lia.
    + apply thomas_x_solves, Hpiv.
  - intros I K HI. rewrite Hel.
    destruct (league_rank Member * VecLength <=? I) eqn:E1;
      destruct (I <? league_rank Member * VecLength + VecLength) eqn:E2;
      try reflexivity.
    exfalso. apply HI. subst IStart. lia.
Qed.

Lemma dbatch2_positive (I : Z) :
  0 <= I < 2 -> positive_diffusion 4 (dsystem_of dbatch2 I).
Proof.
  intros HI k Hk. assert (I = 0 \/ I = 1) as [-> | ->] by lia;
    rows4 k Hk; eval_rows; lra.
Qed.

Lemma ThomasDiffusionSolver_arrays_solve_witness :
  exists B',
    TD.solve_arrays 8 (team 0) dbatch2 = Some B'
    /\ solves 4 (explicit_form (dsystem_of dbatch2 1))
         (elems (DiffusionBatch.X B') 1).
Proof.
  destruct (ThomasDiffusionSolver_arrays_solve 8 (team 0) dbatch2 dbatch2_wf
              ltac:(lia) ltac:(simpl; lia)) as (B' & E & Hs & _).
  exists B'. split; [exact E|].
  apply (Hs 1); [simpl; lia|simpl; lia|].
  apply dbatch2_positive. lia.
Defined.

(** X4.  PCRDiffusionSolver on arrays, end to end: the team of league rank
    [I < NBatch] overwrites row [I] of [X] with the solution of the explicit
    form of system [I] when the system has at least two rows, positive [H],
    non-negative [G] and no coupling out of its last row; no other row of
    [X] changes. *)
Theorem PCRDiffusionSolver_arrays_solve (ub : Z) (Member : TeamMember)
  (B : DiffusionBatch.t) :
  dbatch_wf B ->
  let NBatch := extent0 (DiffusionBatch.X B) in
  let NR := extent1 (DiffusionBatch.X B) in
  let I := league_rank Member in
  0 <= I < NBatch -> 2 <= NR ->
  positive_diffusion NR (dsystem_of B I) ->
  elems (DiffusionBatch.G B) I (NR - 1) = 0%R ->
  exists B',
    PD.solve_arrays ub Member B = Some B'
    /\ solves NR (explicit_form (dsystem_of B I))
         (elems (DiffusionBatch.X B') I)
    /\ (forall I' K, I' <> I ->
          elems (DiffusionBatch.X B') I' K = elems (DiffusionBatch.X B) I' K).
Proof.
  intros Hwf NBatch NR I. subst NBatch NR I. intros HI HNR Hpos HG.
  set (NR := extent1 (DiffusionBatch.X B)) in *.
  destruct (PCRDiffusionSolver_solve_arrays_rows ub Member B Hwf HI)
    as (XA & E & _ & _ & Hframe & Hel).
  pose proof (positive_diffusion_dominant NR _ Hpos) as Hdom.
  eexists. split; [exact E|]. cbn [DiffusionBatch.X]. split.
  - pose proof (thomas_x_solves NR _ (dominant_pivots_nonzero NR _ Hdom))
      as Hy.
    apply (solves_ext NR _
             (thomas_x (explicit_form (dsystem_of B (league_rank Member))) NR));
      [|exact Hy].
    intros k Hk. rewrite (Hel HNR k Hk).
    rewrite (pcrd_x_explicit NR) by assumption.
    symmetry. apply pcr_x_unique; try assumption.
    split; [reflexivity|]. simpl. rewrite HG. lra.
  - intros I' K Hne. apply Hframe. intros (HE & _). apply Hne, HE.
Qed.

Lemma PCRDiffusionSolver_arrays_solve_witness :
  exists B',
    PD.solve_arrays 0 (team 1) dbatch2 = Some B'
    /\ solves 4 (explicit_form (dsystem_of dbatch2 1))
         (elems (DiffusionBatch.X B') 1).
Proof.
  destruct (PCRDiffusionSolver_arrays_solve 0 (team 1) dbatch2 dbatch2_wf
              ltac:(simpl; lia) ltac:(simpl; lia)
              (dbatch2_positive 1 ltac:(lia)) ltac:(reflexivity))
    as (B' & E & Hs & _).
  exists B'. split; [exact E|exact Hs].
Defined.

(** ** Teams of one league *)

Lemma array_ext (A A' : Array2DReal) :
  extent0 A = extent0 A' -> extent1 A = extent1 A' ->
  (forall I K, elems A I K = elems A' I K) -> A = A'.
Proof.
  destruct A as [a0 a1 ea], A' as [b0 b1 eb]; simpl.
  intros -> -> E. f_equal.
  apply functional_extensionality; intro I.
  apply functional_extensionality; intro K. apply E.
Qed.

Lemma groups_disjoint (VecLength r1 r2 I : Z) :
  r1 <> r2 -> in_group VecLength r1 I = true ->
  in_group VecLength r2 I = false.
Proof.
  unfold in_group. intros Hne H.
  apply andb_true_iff in H. destruct H as (H1 & H2).
  apply Z.leb_le in H1. apply Z.ltb_lt in H2.
  apply andb_false_iff.
  destruct (Z.leb_spec (r2 * VecLength) I) as [H3|H3]; [right|left; reflexivity].
  apply Z.ltb_ge. nia.
Qed.

Lemma batch_wf_X (B : TridiagonalBatch.t) (XA : Array2DReal) :
  batch_wf B ->
  extent0 XA = extent0 (TridiagonalBatch.X B) ->
  extent1 XA = extent1 (TridiagonalBatch.X B) ->
  batch_wf (TridiagonalBatch.mk (TridiagonalBatch.DL B) (TridiagonalBatch.D B)
              (TridiagonalBatch.DU B) XA).
Proof.
  unfold batch_wf, same_extents; simpl. intros H E0 E1.
  rewrite E0, E1. exact H.
Qed.

(** X5.  The teams of a league of ThomasSolver commute: run one after the
    other in either order on a batch, two teams leave the same arrays.  A
    team reads and writes the rows of [X] of its own group only, so the
    league may run in any order. *)
Theorem ThomasSolver_teams_commute (VecLength : Z) (m1 m2 : TeamMember)
  (B : TridiagonalBatch.t) :
  batch_wf B -> 0 <= VecLength ->
  0 <= league_rank m1 -> 0 <= league_rank m2 ->
  league_rank m1 <> league_rank m2 ->
  (B1 <- ThomasSolver.solve_arrays VecLength m1 B ;;
   ThomasSolver.solve_arrays VecLength m2 B1)
  = (B2 <- ThomasSolver.solve_arrays VecLength m2 B ;;
     ThomasSolver.solve_arrays VecLength m1 B2).
Proof.
  intros Hwf HV Hr1 Hr2 Hne.
  destruct (ThomasSolver_solve_arrays_rows VecLength m1 B Hwf HV Hr1)
    as (X1 & E1 & e10 & e11 & H1).
  destruct (ThomasSolver_solve_arrays_rows VecLength m2 B Hwf HV Hr2)
    as (X2 & E2 & e20 & e21 & H2).
  destruct (ThomasSolver_solve_arrays_rows VecLength m2 _
              (batch_wf_X B X1 Hwf e10 e11) HV Hr2)
    as (X12 & E12 & e120 & e121 & H12).
  destruct (ThomasSolver_solve_arrays_rows VecLength m1 _
              (batch_wf_X B X2 Hwf e20 e21) HV Hr1)
    as (X21 & E21 & e210 & e211 & H21).
  rewrite E1, E2. cbn [bind]. rewrite E12, E21.
  cbn [TridiagonalBatch.DL TridiagonalBatch.D TridiagonalBatch.DU
         TridiagonalBatch.X] in *.
  do 2 f_equal. apply array_ext; [congruence|congruence|].
  intros I K. rewrite H12, H21, e10, e11, e20, e21.
  fold (in_group VecLength (league_rank m1) I).
  fold (in_group VecLength (league_rank m2) I).
  set (NB := extent0 (TridiagonalBatch.X B)) in *.
  set (NR := extent1 (TridiagonalBatch.X B)) in *.
  destruct (in_group VecLength (league_rank m2) I) eqn:G2;
    destruct (in_group VecLength (league_rank m1) I) eqn:G1.
  - rewrite (groups_disjoint _ _ _ I Hne G1) in G2. discriminate.
  - cbn [andb]. rewrite H2. fold (in_group VecLength (league_rank m2) I).
    rewrite G2. cbn [andb].
    destruct ((I <? NB) && (0 <=? K) && (K <? NR)) eqn:Ec; [|].
    + apply thomas_x_same_rows; [|lia].
      intros k Hk. unfold system_of; cbn. repeat split; try reflexivity.
      rewrite H1. fold (in_group VecLength (league_rank m1) I).
      rewrite G1. reflexivity.
    + rewrite H1. fold (in_group VecLength (league_rank m1) I).
      rewrite G1. reflexivity.
  - cbn [andb]. rewrite H1. fold (in_group VecLength (league_rank m1) I).
    rewrite G1. cbn [andb].
    destruct ((I <? NB) && (0 <=? K) && (K <? NR)) eqn:Ec; [|].
    + symmetry. apply thomas_x_same_rows; [|lia].
      intros k Hk. unfold system_of; cbn. repeat split; try reflexivity.
      rewrite H2. fold (in_group VecLength (league_rank m2) I).
      rewrite G2. reflexivity.
    + rewrite H2. fold (in_group VecLength (league_rank m2) I).
      rewrite G2. reflexivity.
  - cbn [andb]. rewrite H1, H2.
    fold (in_group VecLength (league_rank m1) I).
    fold (in_group VecLength (league_rank m2) I).
    rewrite G1, G2. reflexivity.
Qed.

Lemma ThomasSolver_teams_commute_witness :
  (B1 <- ThomasSolver.solve_arrays 1 (team 0) batch2 ;;
   ThomasSolver.solve_arrays 1 (team 1) B1)
  = (B2 <- ThomasSolver.solve_arrays 1 (team 1) batch2 ;;
     ThomasSolver.solve_arrays 1 (team 0) B2).
Proof.
  apply (ThomasSolver_teams_commute 1 (team 0) (team 1) batch2 batch2_wf);
    simpl; lia.
Defined.

(** X6.  The teams of a league of PCRSolver commute on systems of at least
    two rows: a team reads and writes row [league_rank] of [X] only. *)
Theorem PCRSolver_teams_commute (ub : Z) (m1 m2 : TeamMember)
  (B : TridiagonalBatch.t) :
  batch_wf B -> 2 <= extent1 (TridiagonalBatch.X B) ->
  0 <= league_rank m1 -> 0 <= league_rank m2 ->
  league_rank m1 <> league_rank m2 ->
  (B1 <- PCRSolver.solve_arrays ub m1 B ;; PCRSolver.solve_arrays ub m2 B1)
  = (B2 <- PCRSolver.solve_arrays ub m2 B ;; PCRSolver.solve_arrays ub m1 B2).
Proof.
  intros Hwf HNR Hr1 Hr2 Hne.
  destruct (PCRSolver_solve_arrays_rows ub m1 B Hwf Hr1)
    as (X1 & E1 & e10 & e11 & F1 & H1).
  destruct (PCRSolver_solve_arrays_rows ub m2 B Hwf Hr2)
    as (X2 & E2 & e20 & e21 & F2 & H2).
  destruct (PCRSolver_solve_arrays_rows ub m2 _
              (batch_wf_X B X1 Hwf e10 e11) Hr2)
    as (X12 & E12 & e120 & e121 & F12 & H12).
  destruct (PCRSolver_solve_arrays_rows ub m1 _
              (batch_wf_X B X2 Hwf e20 e21) Hr1)
    as (X21 & E21 & e210 & e211 & F21 & H21).
  rewrite E1, E2. cbn [bind]. rewrite E12, E21.
  cbn [TridiagonalBatch.DL TridiagonalBatch.D TridiagonalBatch.DU
         TridiagonalBatch.X] in *.
  do 2 f_equal. apply array_ext; [congruence|congruence|].
  rewrite e10, e11 in *. rewrite e20, e21 in *.
  set (NB := extent0 (TridiagonalBatch.X B)) in *.
  set (NR := extent1 (TridiagonalBatch.X B)) in *.
  intros I K.
  assert (Hframe :
            ~ (I = league_rank m1 /\ league_rank m1 < NB /\ 0 <= K < NR) ->
            ~ (I = league_rank m2 /\ league_rank m2 < NB /\ 0 <= K < NR) ->
            elems X12 I K = elems X21 I K).
  { intros N1 N2. rewrite (F12 I K N2), (F21 I K N1), (F1 I K N1), (F2 I K N2).
    reflexivity. }
  destruct (Z.eq_dec I (league_rank m2)) as [->|N2].
  - (* the row of the second team *)
    destruct (Z_lt_dec (league_rank m2) NB) as [L2|L2]; [|apply Hframe; lia].
    destruct (Z_le_dec 0 K) as [K0|K0]; [|apply Hframe; lia].
    destruct (Z_lt_dec K NR) as [K1|K1]; [|apply Hframe; lia].
    rewrite (H12 L2 HNR K ltac:(lia)).
    rewrite (F21 _ K) by lia. rewrite (H2 L2 HNR K ltac:(lia)).
    apply pcr_x_same_rows; [|lia].
    intros k Hk. unfold system_of; cbn. repeat split; try reflexivity.
    apply F1. lia.
  - destruct (Z.eq_dec I (league_rank m1)) as [->|N1]; [|apply Hframe; lia].
    (* the row of the first team *)
    destruct (Z_lt_dec (league_rank m1) NB) as [L1|L1]; [|apply Hframe; lia].
    destruct (Z_le_dec 0 K) as [K0|K0]; [|apply Hframe; lia].
    destruct (Z_lt_dec K NR) as [K1|K1]; [|apply Hframe; lia].
    rewrite (H21 L1 HNR K ltac:(lia)).
    rewrite (F12 _ K) by lia. rewrite (H1 L1 HNR K ltac:(lia)).
    symmetry. apply pcr_x_same_rows; [|lia].
    intros k Hk. unfold system_of; cbn. repeat split; try reflexivity.
    apply F2. lia.
Qed.

Lemma PCRSolver_teams_commute_witness :
  (B1 <- PCRSolver.solve_arrays 0 (team 0) batch2 ;;
   PCRSolver.solve_arrays 0 (team 1) B1)
  = (B2 <- PCRSolver.solve_arrays 0 (team 1) batch2 ;;
     PCRSolver.solve_arrays 0 (team 0) B2).
Proof.
  apply (PCRSolver_teams_commute 0 (team 0) (team 1) batch2 batch2_wf);
    simpl; lia.
Defined.





(** X8.  The scratch pad needs no initialisation: what the lane-parallel
    entry points return depends on the league rank of the team only, not on
    what [team_scratch] holds before the call; every entry the solver reads
    has been staged or computed first. *)
Theorem scratch_pad_contents_irrelevant (VecLength : Z) (m1 m2 : TeamMember)
  (B : TridiagonalBatch.t) (Bd : DiffusionBatch.t) :
  batch_wf B -> dbatch_wf Bd -> 0 <= VecLength -> 0 <= league_rank m1 ->
  league_rank m1 = league_rank m2 ->
  ThomasSolver.solve_arrays VecLength m1 B
  = ThomasSolver.solve_arrays VecLength m2 B
  /\ TD.solve_arrays VecLength m1 Bd = TD.solve_arrays VecLength m2 Bd.
Proof.
  intros Hwf Hdwf HV Hr Hrk.
  assert (Hr2 : 0 <= league_rank m2) by (rewrite <- Hrk; exact Hr).
  split.
  - destruct (ThomasSolver_solve_arrays_rows VecLength m1 B Hwf HV Hr)
      as (X1 & E1 & e10 & e11 & H1).
    destruct (ThomasSolver_solve_arrays_rows VecLength m2 B Hwf HV Hr2)
      as (X2 & E2 & e20 & e21 & H2).
    rewrite E1, E2. do 2 f_equal.
    apply array_ext; [congruence|congruence|].
    intros I K. rewrite H1, H2, Hrk. reflexivity.
  - destruct (ThomasDiffusionSolver_solve_arrays_rows VecLength m1 Bd
                Hdwf HV Hr) as (X1 & E1 & e10 & e11 & H1).
    destruct (ThomasDiffusionSolver_solve_arrays_rows VecLength m2 Bd
                Hdwf HV Hr2) as (X2 & E2 & e20 & e21 & H2).
    rewrite E1, E2. do 2 f_equal.
    apply array_ext; [congruence|congruence|].
    intros I K. rewrite H1, H2, Hrk. reflexivity.
Qed.

Lemma scratch_pad_contents_irrelevant_witness :
  ThomasSolver.solve_arrays 8 (team 0) batch2
  = ThomasSolver.solve_arrays 8 (team' 0) batch2
  /\ TD.solve_arrays 8 (team 0) dbatch2 = TD.solve_arrays 8 (team' 0) dbatch2.
Proof.
  apply (scratch_pad_contents_irrelevant 8 (team 0) (team' 0) batch2 dbatch2
           batch2_wf dbatch2_wf); [lia|simpl; lia|reflexivity].
Defined.



(** ** Coefficient arrays smaller than X *)

(** An iteration that fails from every state makes the loop fail. *)
Lemma for_rangeM_fails {S : Type} (lo hi k : Z) (body : Z -> S -> option S)
  (s : S) :
  lo <= k < hi -> (forall t, body k t = None) ->
  for_rangeM lo hi body s = None.
Proof.
  intros Hk Hfail. unfold for_rangeM.
  assert (H : k < hi -> for_range lo hi (fun i m => bind m (body i)) (Some s)
                        = None); [|apply H; lia].
  apply (for_range_inv (fun i m => k < i -> m = None) lo hi
           (fun i m => bind m (body i)) (Some s) ltac:(lia)).
  - intros Hlt. lia.
  - intros i m Hi IH Hlt. destruct (Z.eq_dec i k) as [->|Hne].
    + destruct m as [t|]; [apply Hfail|reflexivity].
    + rewrite IH by lia. reflexivity.
Qed.

(** X10.  The array entry points take the extents from [X] alone and index
    [DL], [D] and [DU] with them unchecked: when one of the coefficient
    arrays does not reach an entry [(I, K)] of [X] that the team stages, the
    read is outside that array (the model returns [None]). *)
Theorem coefficient_arrays_smaller_than_X (VecLength ub : Z)
  (Member : TeamMember) (B : TridiagonalBatch.t) (I K : Z) :
  I < extent0 (TridiagonalBatch.X B) ->
  0 <= K < extent1 (TridiagonalBatch.X B) ->
  in_bounds (TridiagonalBatch.DL B) I K
  && in_bounds (TridiagonalBatch.D B) I K
  && in_bounds (TridiagonalBatch.DU B) I K = false ->
  (league_rank Member * VecLength <= I
   < league_rank Member * VecLength + VecLength ->
   ThomasSolver.solve_arrays VecLength Member B = None)
  /\ (I = league_rank Member ->
      PCRSolver.solve_arrays ub Member B = None).
Proof.
  intros HI HK Hout.
  assert (Hstage :
            forall dl d du x : option Real,
              dl = get (TridiagonalBatch.DL B) I K ->
              d = get (TridiagonalBatch.D B) I K ->
              du = get (TridiagonalBatch.DU B) I K ->
              forall f : Real -> Real -> Real -> Real -> option t,
                (a <- dl ;; b <- d ;; c <- du ;; e <- x ;; f a b c e) = None).
  { intros dl d du x -> -> -> f. unfold get.
    destruct (in_bounds (TridiagonalBatch.DL B) I K); [|reflexivity].
    destruct (in_bounds (TridiagonalBatch.D B) I K); [|reflexivity].
    destruct (in_bounds (TridiagonalBatch.DU B) I K); [discriminate|].
    reflexivity. }
  split.
  - intros HG. unfold ThomasSolver.solve_arrays.
    rewrite (for_rangeM_fails 0 _ K); [reflexivity|lia|].
    intros sc.
    apply (for_rangeM_fails 0 _ (I - league_rank Member * VecLength));
      [lia|].
    intros sc'. unfold ThomasSolver.stage.
    replace (league_rank Member * VecLength
             + (I - league_rank Member * VecLength)) with I by lia.
    replace (I <? extent0 (TridiagonalBatch.X B)) with true by lia.
    apply Hstage; reflexivity.
  - intros ->. unfold PCRSolver.solve_arrays.
    rewrite (for_rangeM_fails 0 _ K); [reflexivity|lia|].
    intros sc. unfold PCRSolver.stage.
    replace (league_rank Member <? extent0 (TridiagonalBatch.X B))
      with true by lia.
    apply Hstage; reflexivity.
Qed.

Lemma coefficient_arrays_smaller_than_X_witness :
  ThomasSolver.solve_arrays 8 (team 0) batch2_short = None
  /\ PCRSolver.solve_arrays 0 (team 1) batch2_short = None.
Proof.
  destruct (coefficient_arrays_smaller_than_X 8 0 (team 0) batch2_short 1 3)
    as (H1 & _); [simpl; lia|simpl; lia|reflexivity|].
  destruct (coefficient_arrays_smaller_than_X 8 0 (team 1) batch2_short 1 3)
    as (_ & H2); [simpl; lia|simpl; lia|reflexivity|].
  split; [apply H1; simpl; lia|apply H2; reflexivity].
Defined.

(** ** Lanes *)

Lemma for_range_id {S : Type} (P : S -> Prop) (lo hi : Z)
  (body : Z -> S -> S) (s : S) :
  P s -> (forall k t, lo <= k < hi -> P t -> P (body k t)) ->
  P (for_range lo hi body s).
Proof.
  intros H0 Hstep. destruct (Z_le_gt_dec lo hi) as [Hle|Hgt].
  - apply (for_range_inv (fun _ t => P t) lo hi body s Hle H0).
    intros k t Hk. apply Hstep, Hk.
  - rewrite for_range_nil by lia. exact H0.
Qed.

Lemma for_down_id {S : Type} (P : S -> Prop) (hi lo : Z)
  (body : Z -> S -> S) (s : S) :
  P s -> (forall k t, lo <= k <= hi -> P t -> P (body k t)) ->
  P (for_down hi lo body s).
Proof.
  intros H0 Hstep. destruct (Z_le_gt_dec lo (hi + 1)) as [Hle|Hgt].
  - apply (for_down_inv (fun _ t => P t) hi lo body s Hle H0).
    intros k t Hk. apply Hstep, Hk.
  - rewrite for_down_nil by lia. exact H0.
Qed.

(** X11.  The lanes of ThomasSolver are independent.  The solution in lane [j]
    is a function of the rows of lane [j] alone: two scratches that agree on
    them get the same solution there, whatever the other lanes hold (padding,
    other systems).  The sub- and super-diagonal views are never written, and
    no lane outside [0 .. VecLength - 1] is. *)
Theorem ThomasSolver_lanes_independent (VecLength j : Z) (s s' : t) :
  (0 <= j < VecLength -> 1 <= NRow s -> NRow s' = NRow s ->
   same_rows (NRow s) (lane s j) (lane s' j) ->
   forall k, 0 <= k < NRow s ->
     rd (X (ThomasSolver.solve VecLength s)) k j
     = rd (X (ThomasSolver.solve VecLength s')) k j)
  /\ DL (ThomasSolver.solve VecLength s) = DL s
  /\ DU (ThomasSolver.solve VecLength s) = DU s
  /\ (~ 0 <= j < VecLength ->
      forall k, rd (D (ThomasSolver.solve VecLength s)) k j = rd (D s) k j
                /\ rd (X (ThomasSolver.solve VecLength s)) k j = rd (X s) k j).
Proof.
  split.
  { intros Hj HM HN Hrows k Hk.
    rewrite !ThomasSolver_solve_rows by lia. rewrite HN.
    apply thomas_x_same_rows; assumption. }
  pose (kept := fun u : t =>
          DL u = DL s /\ DU u = DU s
          /\ (~ 0 <= j < VecLength ->
              forall k, rd (D u) k j = rd (D s) k j
                        /\ rd (X u) k j = rd (X s) k j)).
  (* a statement of lane [v] keeps the three facts *)
  assert (Hlane : forall (body : Z -> t -> t),
            (forall v u, DL (body v u) = DL u /\ DU (body v u) = DU u) ->
            (forall v u i k, i <> v ->
                             rd (D (body v u)) k i = rd (D u) k i
                             /\ rd (X (body v u)) k i = rd (X u) k i) ->
            forall u, kept u -> kept (for_range 0 VecLength body u)).
  { intros body Hco Hrd u Hu. apply (for_range_id kept); [exact Hu|].
    intros v w Hv (H1 & H2 & H3). destruct (Hco v w) as (E1 & E2).
    split; [congruence|]. split; [congruence|]. intros Hj k.
    destruct (Hrd v w j k ltac:(lia)) as (-> & ->). apply H3, Hj. }
  assert (Hwr : forall (A : ScratchArray2DReal) K v x i k,
            i <> v -> rd (wr A K v x) k i = rd A k i).
  { intros A K v x i k Hne. rewrite rd_wr.
    replace (i =? v) with false by lia. now rewrite andb_false_r. }
  change (kept (ThomasSolver.solve VecLength s)). unfold ThomasSolver.solve.
  apply (for_down_id kept).
  - apply Hlane.
    + intros v u. split; reflexivity.
    + intros v u i k Hne. unfold ThomasSolver.last_row, setX; cbn [D X].
      split; [reflexivity|now apply Hwr].
    + apply (for_range_id kept); [repeat split; reflexivity|].
      intros K u _ Hu. apply Hlane; [| |exact Hu].
      * intros v w. split; reflexivity.
      * intros v w i k Hne. unfold ThomasSolver.forward, setD, setX;
          cbn [D X]. split; now apply Hwr.
  - intros K u _ Hu. apply Hlane; [| |exact Hu].
    + intros v w. split; reflexivity.
    + intros v w i k Hne. unfold ThomasSolver.backward, setX; cbn [D X].
      split; [reflexivity|now apply Hwr].
Qed.

Lemma ThomasSolver_lanes_independent_witness :
  (forall k, 0 <= k < 4 ->
     rd (X (ThomasSolver.solve 8 scenario4)) k 3
     = rd (X (ThomasSolver.solve 8 scenario4_lane3)) k 3)
  /\ (forall k, rd (D (ThomasSolver.solve 8 scenario4)) k 8
                = rd (D scenario4) k 8
                /\ rd (X (ThomasSolver.solve 8 scenario4)) k 8
                   = rd (X scenario4) k 8).
Proof.
  destruct (ThomasSolver_lanes_independent 8 3 scenario4 scenario4_lane3)
    as (H1 & _).
  destruct (ThomasSolver_lanes_independent 8 8 scenario4 scenario4)
    as (_ & _ & _ & H2).
  split.
  - apply H1; [lia|simpl; lia|reflexivity|].
    intros k Hk. repeat split; reflexivity.
  - apply H2. lia.
Defined.

(** X12.  The lanes of ThomasDiffusionSolver are independent, and the view
    [Alpha] is an output only: the solution in lane [j] is a function of
    the rows of [G], [H] and [X] of lane [j]; what [Alpha] holds before the
    call does not matter.  [G] is never written. *)
Theorem ThomasDiffusionSolver_lanes_independent (VecLength j : Z)
  (s s' : DS.t) :
  (0 <= j < VecLength -> 1 <= DS.NRow s -> DS.NRow s' = DS.NRow s ->
   dsame_rows (DS.NRow s) (dlane s j) (dlane s' j) ->
   forall k, 0 <= k < DS.NRow s ->
     rd (DS.X (TD.solve VecLength s)) k j
     = rd (DS.X (TD.solve VecLength s')) k j)
  /\ DS.G (TD.solve VecLength s) = DS.G s.
Proof.
  split.
  { intros Hj HM HN Hrows k Hk.
    destruct (ThomasDiffusionSolver_solve_rows VecLength j s k Hj HM Hk)
      as (_ & _ & _ & ->).
    destruct (ThomasDiffusionSolver_solve_rows VecLength j s' k Hj
                ltac:(lia) ltac:(lia)) as (_ & _ & _ & ->).
    rewrite HN. apply diff_x_same_rows; assumption. }
  unfold TD.solve.
  apply (for_down_id (fun u => DS.G u = DS.G s)).
  - apply (for_range_id (fun u => DS.G u = DS.G s)).
    + apply (for_range_id (fun u => DS.G u = DS.G s)).
      * apply (for_range_id (fun u => DS.G u = DS.G s)).
        -- apply (for_range_id (fun u => DS.G u = DS.G s)).
           ++ apply (for_range_id (fun u => DS.G u = DS.G s));
                [reflexivity|].
              intros v w _ Hw. exact Hw.
           ++ intros K u _ Hu.
              apply (for_range_id (fun u => DS.G u = DS.G s)); [exact Hu|].
              intros v w _ Hw. exact Hw.
        -- intros v w _ Hw. exact Hw.
      * intros K u _ Hu.
        apply (for_range_id (fun u => DS.G u = DS.G s)); [exact Hu|].
        intros v w _ Hw. exact Hw.
    + intros v w _ Hw. exact Hw.
  - intros K u _ Hu.
    apply (for_range_id (fun u => DS.G u = DS.G s)); [exact Hu|].
    intros v w _ Hw. exact Hw.
Qed.

Lemma ThomasDiffusionSolver_lanes_independent_witness :
  (forall k, 0 <= k < 4 ->
     rd (DS.X (TD.solve 8 closed4)) k 2
     = rd (DS.X (TD.solve 8 closed4_lane2)) k 2)
  /\ DS.G (TD.solve 8 closed4) = DS.G closed4.
Proof.
  destruct (ThomasDiffusionSolver_lanes_independent 8 2 closed4 closed4_lane2)
    as (H1 & H2).
  split; [|exact H2].
  apply H1; [lia|simpl; lia|reflexivity|].
  intros k Hk. repeat split; reflexivity.
Defined.

(** X13.  The row-parallel solver works in lane 0 of the scratch only: the
    other [VecLength - 1] lanes of the four views are not written, whatever
    the number of rows, and for systems of at least two rows the solution is
    a function of the rows of lane 0. *)
Theorem PCRSolver_uses_lane_0_only (ub : Z) (s s' : t) :
  (forall i v, v <> 0 ->
     rd (DL (PCRSolver.solve ub s)) i v = rd (DL s) i v
     /\ rd (D (PCRSolver.solve ub s)) i v = rd (D s) i v
     /\ rd (DU (PCRSolver.solve ub s)) i v = rd (DU s) i v
     /\ rd (X (PCRSolver.solve ub s)) i v = rd (X s) i v)
  /\ (2 <= NRow s -> NRow s' = NRow s ->
      same_rows (NRow s) (lane s 0) (lane s' 0) ->
      forall k, 0 <= k < NRow s ->
        rd (X (PCRSolver.solve ub s)) k 0
        = rd (X (PCRSolver.solve ub s')) k 0).
Proof.
  split.
  - intros i v Hv. unfold PCRSolver.solve.
    apply (for_range_id
             (fun u => rd (DL u) i v = rd (DL s) i v
                       /\ rd (D u) i v = rd (D s) i v
                       /\ rd (DU u) i v = rd (DU s) i v
                       /\ rd (X u) i v = rd (X s) i v)).
    + apply (for_range_id
               (fun u => rd (DL u) i v = rd (DL s) i v
                         /\ rd (D u) i v = rd (D s) i v
                         /\ rd (DU u) i v = rd (DU s) i v
                         /\ rd (X u) i v = rd (X s) i v)).
      * repeat split; reflexivity.
      * intros Lev u _ (H1 & H2 & H3 & H4). unfold PCRSolver.level.
        destruct (PCRSolver_commit_rows
                    (fun K => PCRSolver.reduce ub (NRow s) Lev K u)
                    (NRow s) u) as (_ & HDL & HD & HDU & HX).
        rewrite HDL, HD, HDU, HX.
        replace (v =? 0) with false by lia. rewrite andb_false_r.
        repeat split; assumption.
    + intros K u _ (H1 & H2 & H3 & H4). unfold PCRSolver.final.
      destruct ((K + shl ub 1 (ceil_log2 (NRow s) - 1) <? NRow s)
                || (K - shl ub 1 (ceil_log2 (NRow s) - 1) >=? 0));
        [destruct (K <? NRow s ÷ 2)|];
        unfold setX; cbn [DL D DU X]; rewrite ?rd_wr;
        replace (v =? 0) with false by lia; rewrite ?andb_false_r;
        repeat split; assumption.
  - intros HM HN Hrows k Hk.
    rewrite !PCRSolver_solve_rows by lia. rewrite HN.
    apply pcr_x_same_rows; assumption.
Qed.

Lemma PCRSolver_uses_lane_0_only_witness :
  rd (X (PCRSolver.solve 0 scenario4)) 2 1 = rd (X scenario4) 2 1
  /\ (forall k, 0 <= k < 4 ->
        rd (X (PCRSolver.solve 0 scenario4)) k 0
        = rd (X (PCRSolver.solve 0 (only_lane 0 scenario4))) k 0).
Proof.
  destruct (PCRSolver_uses_lane_0_only 0 scenario4 (only_lane 0 scenario4))
    as (H1 & H2).
  split.
  - apply (H1 2 1). lia.
  - apply H2; [simpl; lia|reflexivity|].
    intros k Hk. repeat split; reflexivity.
Defined.

(** X14.  PCRDiffusionSolver works in lane 0 of [G], [H] and [X] only and
    never touches the view [Alpha] its scratch holds; for systems of at
    least two rows the solution is a function of the rows of lane 0. *)
Theorem PCRDiffusionSolver_uses_lane_0_only (ub : Z) (s s' : DS.t) :
  DS.Alpha (PD.solve ub s) = DS.Alpha s
  /\ (forall i v, v <> 0 ->
        rd (DS.G (PD.solve ub s)) i v = rd (DS.G s) i v
        /\ rd (DS.H (PD.solve ub s)) i v = rd (DS.H s) i v
        /\ rd (DS.X (PD.solve ub s)) i v = rd (DS.X s) i v)
  /\ (2 <= DS.NRow s -> DS.NRow s' = DS.NRow s ->
      dsame_rows (DS.NRow s) (dlane s 0) (dlane s' 0) ->
      forall k, 0 <= k < DS.NRow s ->
        rd (DS.X (PD.solve ub s)) k 0 = rd (DS.X (PD.solve ub s')) k 0).
Proof.
  split; [|split].
  - unfold PD.solve.
    apply (for_range_id (fun u => DS.Alpha u = DS.Alpha s)).
    + apply (for_range_id (fun u => DS.Alpha u = DS.Alpha s));
        [reflexivity|].
      intros Lev u _ Hu. unfold PD.level.
      rewrite PCRDiffusionSolver_commit_Alpha. exact Hu.
    + intros K u _ Hu. unfold PD.final.
      destruct ((K + shl ub 1 (ceil_log2 (DS.NRow s) - 1) <? DS.NRow s)
                || (K - shl ub 1 (ceil_log2 (DS.NRow s) - 1) >=? 0));
        [destruct (K <? DS.NRow s ÷ 2)|]; exact Hu.
  - intros i v Hv. unfold PD.solve.
    apply (for_range_id
             (fun u => rd (DS.G u) i v = rd (DS.G s) i v
                       /\ rd (DS.H u) i v = rd (DS.H s) i v
                       /\ rd (DS.X u) i v = rd (DS.X s) i v)).
    + apply (for_range_id
               (fun u => rd (DS.G u) i v = rd (DS.G s) i v
                         /\ rd (DS.H u) i v = rd (DS.H s) i v
                         /\ rd (DS.X u) i v = rd (DS.X s) i v)).
      * repeat split; reflexivity.
      * intros Lev u _ (H1 & H2 & H3). unfold PD.level.
        destruct (PCRDiffusionSolver_commit_rows
                    (fun K => PD.reduce ub (DS.NRow s) Lev K u)
                    (DS.NRow s) u) as (_ & HG & HH & HX).
        rewrite HG, HH, HX.
        replace (v =? 0) with false by lia. rewrite andb_false_r.
        repeat split; assumption.
    + intros K u _ (H1 & H2 & H3). unfold PD.final.
      destruct ((K + shl ub 1 (ceil_log2 (DS.NRow s) - 1) <? DS.NRow s)
                || (K - shl ub 1 (ceil_log2 (DS.NRow s) - 1) >=? 0));
        [destruct (K <? DS.NRow s ÷ 2)|];
        unfold DS.setX; cbn [DS.G DS.H DS.X]; rewrite ?rd_wr;
        replace (v =? 0) with false by lia; rewrite ?andb_false_r;
        repeat split; assumption.
  - intros HM HN Hrows k Hk.
    rewrite !PCRDiffusionSolver_solve_rows by lia. rewrite HN.
    apply pcrd_x_same_rows; assumption.
Qed.

Lemma PCRDiffusionSolver_uses_lane_0_only_witness :
  DS.Alpha (PD.solve 0 closed4) = DS.Alpha closed4
  /\ rd (DS.X (PD.solve 0 closed4)) 2 1 = rd (DS.X closed4) 2 1
  /\ (forall k, 0 <= k < 4 ->
        rd (DS.X (PD.solve 0 closed4)) k 0
        = rd (DS.X (PD.solve 0 (only_dlane 0 closed4))) k 0).
Proof.
  destruct (PCRDiffusionSolver_uses_lane_0_only 0 closed4
              (only_dlane 0 closed4)) as (H0 & H1 & H2).
  split; [exact H0|]. split.
  - apply (H1 2 1). lia.
  - apply H2; [simpl; lia|reflexivity|].
    intros k Hk. repeat split; reflexivity.
Defined.

(** ** Superposition *)

Local Open Scope R_scope.

Section Superposition.
Variables (sub diag sup r1 r2 : Z -> Real) (a b : Real).

Let sys := System.mk sub diag sup (fun k => a * r1 k + b * r2 k).



End Superposition.

Local Close Scope R_scope.



Local Open Scope R_scope.




Local Close Scope R_scope.



(** ** No division by zero *)

(** The view [D] holds the pivots when ThomasSolver returns. *)
Lemma ThomasSolver_solve_pivots (VecLength j : Z) (s : t) (k : Z) :
  0 <= j < VecLength -> 0 <= k < NRow s ->
  rd (D (ThomasSolver.solve VecLength s)) k j
  = thomas_pivot (lane s j) (Z.to_nat k).
Proof.
  intros Hj Hk.
  transitivity (rd (D (only_lane j (ThomasSolver.solve VecLength s))) k j).
  { cbn [only_lane D]. unfold only, rd. now rewrite Z.eqb_refl. }
  rewrite ThomasSolver_solve_lane by exact Hj.
  unfold thomas_lane. cbn [only_lane NRow].
  set (s' := only_lane j s).
  set (u := for_range 1 (NRow s) (fun K => ThomasSolver.forward K j) s').
  assert (HD : D (for_down (NRow s - 2) 0
                    (fun K => ThomasSolver.backward K j)
                    (ThomasSolver.last_row (NRow s) j u)) = D u).
  { apply (for_down_id (fun t => D t = D u)); [reflexivity|].
    intros K t _ Ht. exact Ht. }
  rewrite HD.
  destruct (thomas_forward_rows j s' (NRow s) ltac:(lia))
    as (_ & _ & _ & HDu & _).
  fold u in HDu. rewrite HDu.
  replace ((0 <=? k) && (k <? NRow s)) with true by lia.
  unfold s'. now rewrite lane_only_lane.
Qed.

(** X17.  ThomasSolver never divides by zero on a strictly diagonally
    dominant lane: every divisor of the two sweeps is a pivot, the value the
    view [D] holds in its row when the solver returns, and every pivot
    exceeds in absolute value the super-diagonal entry of its row (so it is
    not zero, and the multipliers of the backward sweep are below 1). *)
Theorem ThomasSolver_pivots_dominate (VecLength j : Z) (s : t) (k : Z) :
  0 <= j < VecLength -> 0 <= k < NRow s ->
  diag_dominant (NRow s) (lane s j) ->
  rd (D (ThomasSolver.solve VecLength s)) k j <> 0%R
  /\ (k < NRow s - 1 ->
      (Rabs (rd (DU s) k j)
       < Rabs (rd (D (ThomasSolver.solve VecLength s)) k j))%R).
Proof.
  intros Hj Hk Hdom. rewrite ThomasSolver_solve_pivots by assumption.
  split.
  - apply (dominant_pivots_nonzero (NRow s)); assumption.
  - intros Hlt. pose proof (thomas_pivot_dominates (NRow s) _ Hdom k Hk) as H.
    replace (k <? NRow s - 1) with true in H by lia. exact H.
Qed.

Lemma ThomasSolver_pivots_dominate_witness :
  rd (D (ThomasSolver.solve 8 scenario4)) 2 0 <> 0%R
  /\ (Rabs (rd (DU scenario4) 2 0)
      < Rabs (rd (D (ThomasSolver.solve 8 scenario4)) 2 0))%R.
Proof.
  destruct (ThomasSolver_pivots_dominate 8 0 scenario4 2 ltac:(lia)
              ltac:(simpl; lia) (scenario4_dominant 0)) as (H1 & H2).
  split; [exact H1|]. apply H2. simpl. lia.
Defined.

Local Open Scope R_scope.

Lemma pcr_levels_dominant (M L : Z) (sys : System.t) :
  rows_dominant M sys -> rows_dominant M (pcr_levels M L sys).
Proof.
  intros Hdom. unfold pcr_levels.
  apply (for_range_id (rows_dominant M)); [exact Hdom|].
  intros lev u Hlev Hu. apply pcr_level_dominant; [|exact Hu].
  apply Z.pow_nonneg. lia.
Qed.

Lemma rows_dominant_det (M : Z) (sys : System.t) (k S : Z) :
  rows_dominant M sys -> (0 <= k < M)%Z -> (0 <= k + S < M)%Z ->
  pcr_det sys k S <> 0.
Proof.
  intros Hdom Hk HkS. unfold pcr_det. intros E.
  assert (E' : System.diag sys k * System.diag sys (k + S)
               = System.sub sys (k + S) * System.sup sys k) by lra.
  apply (f_equal Rabs) in E'. rewrite !Rabs_mult in E'.
  pose proof (Hdom k Hk) as Dk. pose proof (Hdom (k + S)%Z HkS) as Dp.
  pose proof (Rabs_pos (System.sup sys k)).
  pose proof (Rabs_pos (System.sub sys (k + S))).
  pose proof (Rabs_pos (System.sub sys k)).
  pose proof (Rabs_pos (System.sup sys (k + S))).
  nra.
Qed.

Local Close Scope R_scope.

(** X18.  PCRSolver never divides by zero on a strictly diagonally dominant
    system that stores zeros outside the matrix: the scratch the team holds
    after any number of reduction levels is strictly dominant by rows, so
    that the diagonal entries the next level divides by are not zero, and
    neither is the determinant of any pair of rows the termination step
    could solve. *)
Theorem PCRSolver_divisors_nonzero (ub : Z) (s : t) (q k S : Z) :
  1 <= NRow s ->
  zero_corners (NRow s) (lane s 0) -> diag_dominant (NRow s) (lane s 0) ->
  0 <= k < NRow s ->
  let u := for_range 1 (q + 1) (PCRSolver.level ub (NRow s)) s in
  rd (D u) k 0 <> 0%R
  /\ (0 <= k + S < NRow s ->
      (rd (D u) k 0 * rd (D u) (k + S) 0
       - rd (DL u) (k + S) 0 * rd (DU u) k 0 <> 0)%R).
Proof.
  intros HM Hc Hdom Hk u.
  destruct (PCRSolver_levels_lane ub (q + 1) s) as (_ & Hl). fold u in Hl.
  pose proof (pcr_levels_dominant (NRow s) (q + 1) (lane s 0)
                (rows_dominant_init _ _ HM Hc Hdom)) as Hrows.
  rewrite <- Hl in Hrows. split.
  - exact (rows_dominant_diag _ _ k Hrows Hk).
  - intros HkS. exact (rows_dominant_det _ _ k S Hrows Hk HkS).
Qed.

Lemma scenario5_dominant : diag_dominant 5 (lane scenario5 0).
Proof.
  intros k Hk.
  assert (k = 0 \/ k = 1 \/ k = 2 \/ k = 3 \/ k = 4)
    as [->|[->|[->|[->| ->]]]] by lia; eval_rows; abs_lra.
Qed.

Lemma PCRSolver_divisors_nonzero_witness :
  rd (D (for_range 1 (1 + 1) (PCRSolver.level 0 5) scenario5)) 2 0 <> 0%R
  /\ (rd (D (for_range 1 (1 + 1) (PCRSolver.level 0 5) scenario5)) 0 0
      * rd (D (for_range 1 (1 + 1) (PCRSolver.level 0 5) scenario5)) (0 + 4) 0
      - rd (DL (for_range 1 (1 + 1) (PCRSolver.level 0 5) scenario5))
          (0 + 4) 0
        * rd (DU (for_range 1 (1 + 1) (PCRSolver.level 0 5) scenario5)) 0 0
      <> 0)%R.
Proof.
  destruct (PCRSolver_divisors_nonzero 0 scenario5 1 2 0 ltac:(simpl; lia)
              ltac:(split; reflexivity) scenario5_dominant ltac:(simpl; lia))
    as (H1 & _).
  destruct (PCRSolver_divisors_nonzero 0 scenario5 1 0 4 ltac:(simpl; lia)
              ltac:(split; reflexivity) scenario5_dominant ltac:(simpl; lia))
    as (_ & H2).
  split; [exact H1|]. apply H2. simpl. lia.
Defined.

(** ** Positivity of the diffusion solvers *)

Local Open Scope R_scope.

Lemma div_nonneg (a b : R) : 0 <= a -> 0 < b -> 0 <= a / b.
Proof.
  intros Ha Hb. unfold Rdiv. apply Rmult_le_pos; [exact Ha|].
  left. apply Rinv_0_lt_compat, Hb.
Qed.

Section PositiveDiffusion.
Variables (M : Z) (d : DiffSystem.t).
Hypothesis Hpos : positive_diffusion M d.

Lemma diff_alpha_nonneg (k : Z) :
  (0 <= k < M)%Z -> 0 <= diff_alpha d (Z.to_nat k).
Proof.
  intros [H0 HM]. revert HM. pattern k. apply row_ind; [| |exact H0].
  - intros _. simpl. lra.
  - clear k H0. intros k H0 IH HM.
    rewrite diff_alpha_step by lia. replace (k + 1 - 1)%Z with k by lia.
    specialize (IH ltac:(lia)). destruct (Hpos k ltac:(lia)) as [Hh Hg].
    apply div_nonneg; nra.
Qed.

Lemma diff_h_pos (k : Z) : (0 <= k < M)%Z -> 0 < diff_h d k.
Proof.
  intros Hk. unfold diff_h. pose proof (diff_alpha_nonneg k Hk).
  destruct (Hpos k Hk). lra.
Qed.

Hypothesis Hrhs : nonneg_rhs M d.

Lemma diff_rhs_nonneg (k : Z) :
  (0 <= k < M)%Z -> 0 <= diff_rhs d (Z.to_nat k).
Proof.
  intros [H0 HM]. revert HM. pattern k. apply row_ind; [| |exact H0].
  - intros HM. simpl. apply Hrhs. lia.
  - clear k H0. intros k H0 IH HM.
    rewrite diff_rhs_step by lia. replace (k + 1 - 1)%Z with k by lia.
    specialize (IH ltac:(lia)). destruct (Hpos k ltac:(lia)) as [Hh Hg].
    pose proof (Hrhs (k + 1)%Z ltac:(lia)) as Hr.
    pose proof (diff_h_pos k ltac:(lia)) as Hd.
    pose proof (div_nonneg _ _ Hg Hd) as Hq. nra.
Qed.

Lemma diff_x_nonneg (k : Z) : (0 <= k < M)%Z -> 0 <= diff_x d M k.
Proof.
  intros Hk.
  assert (Hn : forall n, (0 <= n)%Z -> (n <= M - 1)%Z ->
                         0 <= diff_x d M (M - 1 - n)).
  { intros n H0. pattern n. apply row_ind; [| |exact H0].
    - intros _. replace (M - 1 - 0)%Z with (M - 1)%Z by lia.
      rewrite diff_x_last.
      apply div_nonneg; [apply diff_rhs_nonneg|apply diff_h_pos]; lia.
    - clear n H0. intros n H0 IH Hn. specialize (IH ltac:(lia)).
      rewrite diff_x_step by lia.
      replace (M - 1 - (n + 1) + 1)%Z with (M - 1 - n)%Z by lia.
      pose proof (diff_rhs_nonneg (M - 1 - (n + 1))%Z ltac:(lia)) as Hr.
      destruct (Hpos (M - 1 - (n + 1))%Z ltac:(lia)) as [Hh Hg].
      apply div_nonneg; [nra|apply diff_h_pos; lia]. }
  replace k with (M - 1 - (M - 1 - k))%Z by lia. apply Hn; lia.
Qed.
End PositiveDiffusion.

Local Close Scope R_scope.

(** X19.  ThomasDiffusionSolver keeps signs: for a lane with positive [H] and
    non-negative [G], every [Alpha] the solver computes is non-negative and
    every updated [H] is positive, so that no division is by zero (the
    divisors are [H + Alpha + G] and the updated [H]); a non-negative
    right-hand side then gives a non-negative solution. *)
Theorem ThomasDiffusionSolver_positive (VecLength j : Z) (s : DS.t) (k : Z) :
  0 <= j < VecLength -> 0 <= k < DS.NRow s ->
  positive_diffusion (DS.NRow s) (dlane s j) ->
  let w := TD.solve VecLength s in
  (0 <= rd (DS.Alpha w) k j)%R
  /\ (0 < rd (DS.H w) k j)%R
  /\ (nonneg_rhs (DS.NRow s) (dlane s j) -> 0 <= rd (DS.X w) k j)%R.
Proof.
  intros Hj Hk Hpos w. subst w.
  destruct (ThomasDiffusionSolver_solve_rows VecLength j s k Hj
              ltac:(lia) Hk) as (_ & -> & -> & ->).
  split; [|split].
  - apply (diff_alpha_nonneg (DS.NRow s)); assumption.
  - apply (diff_h_pos (DS.NRow s)); assumption.
  - intros Hrhs. apply diff_x_nonneg; assumption.
Qed.

Lemma closed4_positive (j : Z) : positive_diffusion 4 (dlane closed4 j).
Proof. intros k Hk. rows4 k Hk; eval_rows; lra. Qed.

Lemma closed4_nonneg (j : Z) : nonneg_rhs 4 (dlane closed4 j).
Proof. intros k Hk. rows4 k Hk; eval_rows; lra. Qed.

Lemma ThomasDiffusionSolver_positive_witness :
  (0 <= rd (DS.Alpha (TD.solve 8 closed4)) 2 5)%R
  /\ (0 < rd (DS.H (TD.solve 8 closed4)) 2 5)%R
  /\ (0 <= rd (DS.X (TD.solve 8 closed4)) 2 5)%R.
Proof.
  destruct (ThomasDiffusionSolver_positive 8 5 closed4 2 ltac:(lia)
              ltac:(simpl; lia) (closed4_positive 5)) as (H1 & H2 & H3).
  split; [exact H1|]. split; [exact H2|]. apply H3, closed4_nonneg.
Defined.

Local Open Scope R_scope.

Lemma pcrd_level_positive (M h : Z) (d : DiffSystem.t) :
  (0 <= h)%Z -> positive_diffusion M d ->
  positive_diffusion M (pcrd_level M h d)
  /\ (nonneg_rhs M d -> nonneg_rhs M (pcrd_level M h d)).
Proof.
  intros Hh Hpos.
  assert (Hall : forall k, (0 <= k < M)%Z ->
            0 < DiffSystem.h (pcrd_level M h d) k
            /\ 0 <= DiffSystem.g (pcrd_level M h d) k
            /\ (nonneg_rhs M d -> 0 <= DiffSystem.rhs (pcrd_level M h d) k)).
  { intros k Hk. unfold pcrd_level.
    cbn [DiffSystem.g DiffSystem.h DiffSystem.rhs].
    replace ((0 <=? k)%Z && (k <? M)%Z) with true by lia.
    set (kmh := if (k - h <? 0)%Z then 0%Z else (k - h)%Z).
    set (kph := if (k + h >=? M)%Z then (M - 1)%Z else (k + h)%Z).
    assert (Hkmh : (0 <= kmh < M)%Z) by (unfold kmh; destruct (k - h <? 0)%Z eqn:E; lia).
    assert (Hkph : (0 <= kph < M)%Z) by (unfold kph; destruct (k + h >=? M)%Z eqn:E; lia).
    set (gkmh := if (k - h <? 0)%Z then 0 else DiffSystem.g d (k - h)).
    set (gkms := if (k - 2 * h <? 0)%Z then 0 else DiffSystem.g d (k - 2 * h)).
    assert (Hgkmh : 0 <= gkmh).
    { unfold gkmh. destruct (k - h <? 0)%Z eqn:E; [lra|]. apply Hpos. lia. }
    assert (Hgkms : 0 <= gkms).
    { unfold gkms. destruct (k - 2 * h <? 0)%Z eqn:E; [lra|]. apply Hpos. lia. }
    destruct (Hpos k Hk) as [Hhk Hgk].
    destruct (Hpos kmh Hkmh) as [Hhm Hgm].
    destruct (Hpos kph Hkph) as [Hhp Hgp].
    assert (Ha : 0 <= gkmh / (DiffSystem.h d kmh + gkms + gkmh))
      by (apply div_nonneg; lra).
    assert (Hb : 0 <= DiffSystem.g d k
                      / (DiffSystem.h d kph + DiffSystem.g d k
                         + DiffSystem.g d kph))
      by (apply div_nonneg; lra).
    split; [nra|]. split; [nra|].
    intros Hr. pose proof (Hr k Hk). pose proof (Hr kmh Hkmh).
    pose proof (Hr kph Hkph). nra. }
  split.
  - intros k Hk. destruct (Hall k Hk) as (H1 & H2 & _). split; assumption.
  - intros Hr k Hk. destruct (Hall k Hk) as (_ & _ & H3). apply H3, Hr.
Qed.

Lemma pcrd_levels_positive (M L : Z) (d : DiffSystem.t) :
  positive_diffusion M d ->
  positive_diffusion M (pcrd_levels M L d)
  /\ (nonneg_rhs M d -> nonneg_rhs M (pcrd_levels M L d)).
Proof.
  intros Hpos. unfold pcrd_levels.
  destruct (Z_le_gt_dec 1 L) as [Hle|Hgt].
  2:{ rewrite for_range_nil by lia. split; [exact Hpos|intros H; exact H]. }
  apply (for_range_inv
           (fun _ u => positive_diffusion M u
                       /\ (nonneg_rhs M d -> nonneg_rhs M u))
           1 L _ d Hle).
  - split; [exact Hpos|intros H; exact H].
  - intros lev u Hlev (Hp & Hr).
    destruct (pcrd_level_positive M (2 ^ (lev - 1)) u
                ltac:(apply Z.pow_nonneg; lia) Hp) as (Hp' & Hr').
    split; [exact Hp'|]. intros H. apply Hr', Hr, H.
Qed.

Lemma pcrd_final_nonneg (M S : Z) (d : DiffSystem.t) (k : Z) :
  (0 <= S)%Z -> positive_diffusion M d -> nonneg_rhs M d -> (0 <= k < M)%Z ->
  0 <= pcrd_final M S d k.
Proof.
  intros HS Hpos Hr Hk.
  assert (Hdiag : forall i, (0 <= i < M)%Z ->
            0 < DiffSystem.h d i
                + (if (i - S <? 0)%Z then 0 else DiffSystem.g d (i - S))).
  { intros i Hi. destruct (Hpos i Hi) as [Hh Hg].
    destruct (i - S <? 0)%Z eqn:E; [lra|].
    destruct (Hpos (i - S)%Z ltac:(lia)). lra. }
  unfold pcrd_final.
  destruct ((0 <? S)%Z && (k + S <? M)%Z) eqn:E1.
  - unfold pcrd_pair_lo, pcrd_diag.
    pose proof (Hdiag k Hk) as Hd.
    destruct (Hpos k Hk) as [Hh Hg].
    destruct (Hpos (k + S)%Z ltac:(lia)) as [Hh' Hg'].
    pose proof (Hr k Hk). pose proof (Hr (k + S)%Z ltac:(lia)).
    set (e := if (k - S <? 0)%Z then 0 else DiffSystem.g d (k - S)) in *.
    apply div_nonneg; nra.
  - destruct ((0 <? S)%Z && (0 <=? k - S)%Z) eqn:E2.
    + unfold pcrd_pair_hi, pcrd_diag.
      replace (k - S + S)%Z with k by lia.
      pose proof (Hdiag (k - S)%Z ltac:(lia)) as Hd.
      destruct (Hpos k Hk) as [Hh Hg].
      destruct (Hpos (k - S)%Z ltac:(lia)) as [Hh' Hg'].
      pose proof (Hr k Hk). pose proof (Hr (k - S)%Z ltac:(lia)).
      set (e := if (k - S - S <? 0)%Z then 0
                else DiffSystem.g d (k - S - S)) in *.
      apply div_nonneg; nra.
    + unfold pcrd_diag. pose proof (Hdiag k Hk) as Hd.
      destruct (Hpos k Hk) as [Hh Hg].
      apply div_nonneg; [apply Hr, Hk|lra].
Qed.

Local Close Scope R_scope.

(** X20.  PCRDiffusionSolver keeps signs: for a system of at least two rows
    with positive [H], non-negative [G] and a non-negative right-hand side,
    the solution it returns is non-negative.  (Every divisor of the levels
    and of the termination step is a sum or product of positive terms.)  This
    holds whether or not the last coupling [G(M-1)] is zero. *)
Theorem PCRDiffusionSolver_positive (ub : Z) (s : DS.t) (k : Z) :
  2 <= DS.NRow s -> 0 <= k < DS.NRow s ->
  positive_diffusion (DS.NRow s) (dlane s 0) ->
  nonneg_rhs (DS.NRow s) (dlane s 0) ->
  (0 <= rd (DS.X (PD.solve ub s)) k 0)%R.
Proof.
  intros HM Hk Hpos Hr.
  rewrite PCRDiffusionSolver_solve_rows by assumption. unfold pcrd_x.
  destruct (pcrd_levels_positive (DS.NRow s) (Z.log2_up (DS.NRow s))
              (dlane s 0) Hpos) as (Hp & Hn).
  apply pcrd_final_nonneg; [apply Z.pow_nonneg; lia| | |]; auto.
Qed.

Lemma open3_nonneg : nonneg_rhs 3 (dlane open3 0).
Proof. intros k Hk. rows3 k Hk; eval_rows; lra. Qed.

Lemma open3_positive_diffusion : positive_diffusion 3 (dlane open3 0).
Proof. intros k Hk. apply open3_positive, Hk. Qed.

Lemma PCRDiffusionSolver_positive_witness :
  (0 <= rd (DS.X (PD.solve 0 open3)) 1 0)%R.
Proof.
  apply (PCRDiffusionSolver_positive 0 open3 1);
    [simpl; lia|simpl; lia|apply open3_positive_diffusion|apply open3_nonneg].
Defined.

(** ** Conservation *)

Lemma sum_rows_0 (f : Z -> Real) : sum_rows 0 f = 0%R.
Proof. reflexivity. Qed.

Lemma sum_rows_succ (n : Z) (f : Z -> Real) :
  0 <= n -> sum_rows (n + 1) f = (sum_rows n f + f n)%R.
Proof. intros Hn. unfold sum_rows. now rewrite for_range_snoc by lia. Qed.

Lemma sum_rows_ext (M : Z) (f g : Z -> Real) :
  (forall k, 0 <= k < M -> f k = g k) -> sum_rows M f = sum_rows M g.
Proof.
  intros E. unfold sum_rows. apply for_range_ext.
  intros k acc Hk. now rewrite E.
Qed.

Local Open Scope R_scope.

(** Summing the rows of the explicit form, the couplings cancel in pairs
    except the one out of the last row. *)
Lemma explicit_form_telescopes (M : Z) (d : DiffSystem.t) (y : Z -> Real)
  (n : Z) :
  (1 <= n <= M)%Z ->
  sum_rows n (mulA M (explicit_form d) y)
  = sum_rows n (fun k => DiffSystem.h d k * y k)
    + DiffSystem.g d (n - 1)
      * (y (n - 1)%Z - (if (n <? M)%Z then y n else 0)).
Proof.
  intros [H1 HM]. revert HM.
  replace n with (n - 1 + 1)%Z by lia.
  assert (H0 : (0 <= n - 1)%Z) by lia. revert H0.
  generalize (n - 1)%Z. clear n H1. intros n H0. pattern n.
  apply row_ind; [| |exact H0]; clear n H0.
  - intros HM. rewrite !(sum_rows_succ 0) by lia. rewrite !sum_rows_0.
    unfold mulA, explicit_form, explicit_at; cbn [System.sub System.diag
      System.sup System.rhs].
    replace (0 + 1 - 1)%Z with 0%Z by lia.
    replace (0 <? 0)%Z with false by lia.
    replace (0 - 1 <? 0)%Z with true by lia.
    replace (0 + 1 <? M)%Z with (0 <? M - 1)%Z by lia.
    destruct (0 <? M - 1)%Z; ring.
  - intros n Hn IH HM. specialize (IH ltac:(lia)).
    rewrite (sum_rows_succ (n + 1)) by lia. rewrite IH.
    rewrite (sum_rows_succ (n + 1) (fun k => DiffSystem.h d k * y k)) by lia.
    unfold mulA, explicit_form, explicit_at; cbn [System.sub System.diag
      System.sup System.rhs].
    replace (n + 1 + 1 - 1)%Z with (n + 1)%Z by lia.
    replace (n + 1 - 1)%Z with n by lia.
    replace (0 <? n + 1)%Z with true by lia.
    replace (n <? 0)%Z with false by lia.
    replace (n + 1 <? M)%Z with true by lia.
    replace (n + 1 + 1 <? M)%Z with (n + 1 <? M - 1)%Z by lia.
    destruct (n + 1 <? M - 1)%Z; ring.
Qed.

Lemma explicit_form_conserves (M : Z) (d : DiffSystem.t) (y : Z -> Real) :
  (1 <= M)%Z -> solves M (explicit_form d) y ->
  sum_rows M (fun k => DiffSystem.h d k * y k)
  + DiffSystem.g d (M - 1) * y (M - 1)%Z
  = sum_rows M (DiffSystem.rhs d).
Proof.
  intros HM Hy.
  rewrite <- (sum_rows_ext M (mulA M (explicit_form d) y) (DiffSystem.rhs d))
    by (intros k Hk; apply (Hy k Hk)).
  rewrite (explicit_form_telescopes M d y M) by lia.
  replace (M <? M)%Z with false by lia. ring.
Qed.

Local Close Scope R_scope.

(** X21.  Conservation: for a lane with positive [H] and non-negative [G],
    the solution [x] ThomasDiffusionSolver returns satisfies
    [sum_k H(k) * x(k) + G(M-1) * x(M-1) = sum_k rhs(k)], with the [H] and
    the right-hand side the scratch held before the call: the couplings
    between rows move the quantity without creating any, and what leaves
    the column leaves through the coupling of the last row.  With
    [G(M-1) = 0] the [H]-weighted sum of the solution is the sum of the
    right-hand side. *)
Theorem ThomasDiffusionSolver_conserves (VecLength j : Z) (s : DS.t) :
  0 <= j < VecLength -> 1 <= DS.NRow s ->
  positive_diffusion (DS.NRow s) (dlane s j) ->
  let M := DS.NRow s in
  let x k := rd (DS.X (TD.solve VecLength s)) k j in
  (sum_rows M (fun k => rd (DS.H s) k j * x k)
   + rd (DS.G s) (M - 1) j * x (M - 1)%Z
   = sum_rows M (fun k => rd (DS.X s) k j))%R.
Proof.
  intros Hj HM Hpos M x.
  pose proof (dominant_pivots_nonzero M _
                (positive_diffusion_dominant M _ Hpos)) as Hpiv.
  apply (explicit_form_conserves M (dlane s j) x HM).
  apply (solves_ext M _ (thomas_x (explicit_form (dlane s j)) M)).
  - intros k Hk. unfold x.
    destruct (ThomasDiffusionSolver_solve_rows VecLength j s k Hj HM Hk)
      as (_ & _ & _ & ->).
    symmetry. apply (diff_x_elim M); assumption.
  - apply thomas_x_solves, Hpiv.
Qed.

Lemma ThomasDiffusionSolver_conserves_witness :
  (sum_rows 3 (fun k => rd (DS.H open3) k 0
                        * rd (DS.X (TD.solve 1 open3)) k 0)
   + rd (DS.G open3) (3 - 1) 0 * rd (DS.X (TD.solve 1 open3)) (3 - 1) 0
   = sum_rows 3 (fun k => rd (DS.X open3) k 0))%R.
Proof.
  apply (ThomasDiffusionSolver_conserves 1 0 open3);
    [lia|simpl; lia|apply open3_positive_diffusion].
Defined.

(** X22.  Conservation in the row-parallel solver: for a system of at least
    two rows with positive [H], non-negative [G] and no coupling out of the
    last row, the [H]-weighted sum of the solution PCRDiffusionSolver
    returns is the sum of the right-hand side. *)
Theorem PCRDiffusionSolver_conserves (ub : Z) (s : DS.t) :
  2 <= DS.NRow s ->
  positive_diffusion (DS.NRow s) (dlane s 0) ->
  rd (DS.G s) (DS.NRow s - 1) 0 = 0%R ->
  let M := DS.NRow s in
  let x k := rd (DS.X (PD.solve ub s)) k 0 in
  sum_rows M (fun k => rd (DS.H s) k 0 * x k)%R
  = sum_rows M (fun k => rd (DS.X s) k 0).
Proof.
  intros HM Hpos HG M x.
  pose proof (positive_diffusion_dominant M _ Hpos) as Hdom.
  pose proof (dominant_pivots_nonzero M _ Hdom) as Hpiv.
  assert (Hx : solves M (explicit_form (dlane s 0)) x).
  { apply (solves_ext M _ (thomas_x (explicit_form (dlane s 0)) M)).
    - intros k Hk. unfold x.
      rewrite PCRDiffusionSolver_solve_rows by assumption.
      rewrite (pcrd_x_explicit (DS.NRow s)) by assumption.
      symmetry. apply pcr_x_unique; try assumption.
      + split; [reflexivity|].
        cbn [explicit_form explicit_at System.sup dlane DiffSystem.g].
        rewrite HG. lra.
      + apply thomas_x_solves, Hpiv.
    - apply thomas_x_solves, Hpiv. }
  pose proof (explicit_form_conserves M (dlane s 0) x ltac:(lia) Hx) as E.
  cbn [dlane DiffSystem.g DiffSystem.h DiffSystem.rhs] in E.
  fold M in HG. rewrite HG in E. rewrite <- E. lra.
Qed.

Lemma PCRDiffusionSolver_conserves_witness :
  sum_rows 4 (fun k => rd (DS.H closed4) k 0
                       * rd (DS.X (PD.solve 0 closed4)) k 0)%R
  = sum_rows 4 (fun k => rd (DS.X closed4) k 0).
Proof.
  apply (PCRDiffusionSolver_conserves 0 closed4);
    [simpl; lia|apply closed4_positive|reflexivity].
Defined.

(** ** Systems of zero, one and two rows *)



(** X24.  Diffusion systems of one row: ThomasDiffusionSolver returns
    [rhs[0] / (H[0] + G[0])]; PCRDiffusionSolver, whose last stride is
    [1 << -1], returns the right-hand side as it is when that stride is not
    positive. *)
Theorem diffusion_one_row_results (VecLength j ub : Z) (s : DS.t) :
  DS.NRow s = 1 -> 0 <= j < VecLength -> ub <= 0 ->
  rd (DS.X (TD.solve VecLength s)) 0 j
  = (rd (DS.X s) 0 j / (rd (DS.H s) 0 j + rd (DS.G s) 0 j))%R
  /\ rd (DS.X (PD.solve ub s)) 0 0 = rd (DS.X s) 0 0.
Proof.
  intros HM Hj Hub. split.
  - destruct (ThomasDiffusionSolver_solve_rows VecLength j s 0 Hj
                ltac:(lia) ltac:(lia)) as (_ & _ & _ & ->).
    rewrite HM. unfold diff_x. change (Z.to_nat (1 - 1 - 0)) with O.
    cbn [diff_back]. change (Z.to_nat (1 - 1)) with O. cbn [diff_rhs].
    unfold diff_h. change (1 - 1) with 0. change (Z.to_nat 0) with O.
    cbn [diff_alpha dlane DiffSystem.g DiffSystem.h DiffSystem.rhs].
    f_equal. ring.
  - now rewrite PCRDiffusionSolver_solve_one_row.
Qed.

Lemma diffusion_one_row_results_witness :
  rd (DS.X (TD.solve 8 dsingle1)) 0 0 = (2 / (1 + 1))%R
  /\ rd (DS.X (PD.solve (- 2 ^ 31) dsingle1)) 0 0 = 2%R.
Proof.
  apply (diffusion_one_row_results 8 0 (- 2 ^ 31) dsingle1);
    [reflexivity|lia|lia].
Defined.

Local Open Scope R_scope.

(** X25.  Systems of two rows: the row-parallel solvers have no reduction
    level then and solve the pair directly by Cramer's rule.  PCRSolver
    returns the solution of every system whose determinant
    [D(0) * D(1) - DL(1) * DU(0)] is not zero, dominant or not, whatever the
    stored [DL(0)] and [DU(1)] are; PCRDiffusionSolver returns the solution
    of the explicit form, the coupling [G(1)] out of the last row
    included. *)
Theorem two_rows_solved_directly (ub : Z) (s : t) (sd : DS.t) :
  (NRow s = 2%Z ->
   rd (D s) 0 0 * rd (D s) 1 0 - rd (DL s) 1 0 * rd (DU s) 0 0 <> 0 ->
   solves 2 (lane s 0) (fun k => rd (X (PCRSolver.solve ub s)) k 0))
  /\ (DS.NRow sd = 2%Z ->
      (rd (DS.H sd) 0 0 + rd (DS.G sd) 0 0)
      * (rd (DS.H sd) 1 0 + rd (DS.G sd) 0 0 + rd (DS.G sd) 1 0)
      - rd (DS.G sd) 0 0 * rd (DS.G sd) 0 0 <> 0 ->
      solves 2 (explicit_form (dlane sd 0))
        (fun k => rd (DS.X (PD.solve ub sd)) k 0)).
Proof.
  split.
  - intros HM Hdet k Hk.
    assert (E : forall i, (0 <= i < 2)%Z ->
                  rd (X (PCRSolver.solve ub s)) i 0
                  = pcr_final 2 1 (lane s 0) i).
    { intros i Hi. rewrite PCRSolver_solve_rows by lia. rewrite HM.
      reflexivity. }
    unfold mulA. assert (k = 0 \/ k = 1)%Z as [-> | ->] by lia.
    + change (0 <? 0)%Z with false. change (0 <? 2 - 1)%Z with true.
      cbv iota. change (0 + 1)%Z with 1%Z.
      rewrite (E 0%Z), (E 1%Z) by lia.
      change (pcr_final 2 1 (lane s 0) 0) with (pcr_pair_lo (lane s 0) 0 1).
      change (pcr_final 2 1 (lane s 0) 1) with (pcr_pair_hi (lane s 0) 0 1).
      unfold pcr_pair_lo, pcr_pair_hi, pcr_det.
      cbn [lane System.sub System.diag System.sup System.rhs].
      change (0 + 1)%Z with 1%Z. field. exact Hdet.
    + change (0 <? 1)%Z with true. change (1 <? 2 - 1)%Z with false.
      cbv iota. change (1 - 1)%Z with 0%Z.
      rewrite (E 0%Z), (E 1%Z) by lia.
      change (pcr_final 2 1 (lane s 0) 0) with (pcr_pair_lo (lane s 0) 0 1).
      change (pcr_final 2 1 (lane s 0) 1) with (pcr_pair_hi (lane s 0) 0 1).
      unfold pcr_pair_lo, pcr_pair_hi, pcr_det.
      cbn [lane System.sub System.diag System.sup System.rhs].
      change (0 + 1)%Z with 1%Z. field. exact Hdet.
  - intros HM Hdet k Hk.
    assert (E : forall i, (0 <= i < 2)%Z ->
                  rd (DS.X (PD.solve ub sd)) i 0
                  = pcrd_final 2 1 (dlane sd 0) i).
    { intros i Hi. rewrite PCRDiffusionSolver_solve_rows by lia. rewrite HM.
      reflexivity. }
    unfold mulA. assert (k = 0 \/ k = 1)%Z as [-> | ->] by lia.
    + change (0 <? 0)%Z with false. change (0 <? 2 - 1)%Z with true.
      cbv iota. change (0 + 1)%Z with 1%Z.
      rewrite (E 0%Z), (E 1%Z) by lia.
      change (pcrd_final 2 1 (dlane sd 0) 0)
        with (pcrd_pair_lo 1 (dlane sd 0) 0).
      change (pcrd_final 2 1 (dlane sd 0) 1)
        with (pcrd_pair_hi 1 (dlane sd 0) 0).
      unfold pcrd_pair_lo, pcrd_pair_hi, pcrd_diag, explicit_form,
        explicit_at.
      cbn [dlane System.sub System.diag System.sup System.rhs
             DiffSystem.g DiffSystem.h DiffSystem.rhs].
      change (0 + 1)%Z with 1%Z. change (0 - 1 <? 0)%Z with true.
      change (1 - 1 <? 0)%Z with false. change (1 - 1)%Z with 0%Z.
      cbv iota. field. intros Hz. apply Hdet. rewrite <- Hz. ring.
    + change (0 <? 1)%Z with true. change (1 <? 2 - 1)%Z with false.
      cbv iota. change (1 - 1)%Z with 0%Z.
      rewrite (E 0%Z), (E 1%Z) by lia.
      change (pcrd_final 2 1 (dlane sd 0) 0)
        with (pcrd_pair_lo 1 (dlane sd 0) 0).
      change (pcrd_final 2 1 (dlane sd 0) 1)
        with (pcrd_pair_hi 1 (dlane sd 0) 0).
      unfold pcrd_pair_lo, pcrd_pair_hi, pcrd_diag, explicit_form,
        explicit_at.
      cbn [dlane System.sub System.diag System.sup System.rhs
             DiffSystem.g DiffSystem.h DiffSystem.rhs].
      change (0 + 1)%Z with 1%Z. change (0 - 1 <? 0)%Z with true.
      change (1 - 1 <? 0)%Z with false. change (1 - 1)%Z with 0%Z.
      cbv iota. field. intros Hz. apply Hdet. rewrite <- Hz. ring.
Qed.

Lemma two_rows_solved_directly_witness :
  solves 2 (lane pair2 0) (fun k => rd (X (PCRSolver.solve 0 pair2)) k 0)
  /\ solves 2 (explicit_form (dlane dpair2 0))
       (fun k => rd (DS.X (PD.solve 0 dpair2)) k 0).
Proof.
  destruct (two_rows_solved_directly 0 pair2 dpair2) as (H1 & H2).
  split.
  - apply H1; [reflexivity|]. eval_rows. lra.
  - apply H2; [reflexivity|]. eval_rows. lra.
Defined.

Local Close Scope R_scope.

(** ** The termination step needs no barrier *)

(** The last stride [S] of a system of [M >= 2] rows: [S < M <= 2 * S]. *)
Lemma last_stride (ub M : Z) :
  2 <= M ->
  let S := shl ub 1 (ceil_log2 M - 1) in 1 <= S /\ S < M /\ M <= 2 * S.
Proof.
  intros HM. unfold ceil_log2. set (L := Z.log2_up M).
  destruct (Z.log2_up_spec M ltac:(lia)) as [Hlow Hup]. fold L in Hlow, Hup.
  assert (HL : 1 <= L).
  { unfold L. change 1 with (Z.log2_up 2). apply Z.log2_up_le_mono. lia. }
  cbv zeta. rewrite shl_nonneg by lia. unfold Z.pred in Hlow.
  replace (L + -1) with (L - 1) in Hlow by lia.
  assert (H2 : 2 ^ L = 2 * 2 ^ (L - 1)).
  { replace L with (Z.succ (L - 1)) at 1 by lia. apply Z.pow_succ_r. lia. }
  pose proof (Z.pow_pos_nonneg 2 (L - 1) ltac:(lia) ltac:(lia)). lia.
Qed.

Ltac split_eqb :=
  repeat match goal with
    | |- context [?a =? ?b] =>
        destruct (Z.eqb_spec a b); try (exfalso; lia); cbn [andb]
    end.

(** What the member of row [K] does in the termination step, by the
    position of the row. *)
Lemma PCRSolver_final_cases (M S K : Z) (s : t) :
  1 <= S -> S < M -> M <= 2 * S -> 0 <= K < M ->
  PCRSolver.final M S K s
  = if K + S <? M then
      let Det := (rd (D s) K 0 * rd (D s) (K + S) 0
                  - rd (DL s) (K + S) 0 * rd (DU s) K 0)%R in
      setX (setX s K 0
              ((rd (D s) (K + S) 0 * rd (X s) K 0
                - rd (DU s) K 0 * rd (X s) (K + S) 0) / Det)%R)
        (K + S) 0
        ((- rd (DL s) (K + S) 0 * rd (X s) K 0
          + rd (D s) K 0 * rd (X s) (K + S) 0) / Det)%R
    else if S <=? K then s
    else setX s K 0 (rd (X s) K 0 / rd (D s) K 0)%R.
Proof.
  intros HS HSM HMS HK. unfold PCRSolver.final.
  destruct (Z.ltb_spec (K + S) M) as [Hlo|Hnlo]; cbn [orb].
  - rewrite (half_lower M S K) by lia. reflexivity.
  - destruct (Z.leb_spec S K) as [Hup|Hnup].
    + replace (K - S >=? 0) with true by lia.
      rewrite (half_upper M S K) by lia. reflexivity.
    + replace (K - S >=? 0) with false by lia. reflexivity.
Qed.

(** X26.  The termination step of PCRSolver has no barrier and needs none:
    the members work on disjoint rows (a lower row and its partner at the
    last stride, or a single row), so any two of them leave the same scratch
    in either order. *)
Theorem PCRSolver_termination_any_order (ub : Z) (s : t) (K1 K2 : Z) :
  2 <= NRow s -> 0 <= K1 < NRow s -> 0 <= K2 < NRow s ->
  let M := NRow s in
  let Stride := shl ub 1 (ceil_log2 M - 1) in
  PCRSolver.final M Stride K1 (PCRSolver.final M Stride K2 s)
  = PCRSolver.final M Stride K2 (PCRSolver.final M Stride K1 s).
Proof.
  intros HM H1 H2 M Stride.
  destruct (last_stride ub M HM) as (HS & HSM & HMS). fold Stride in HS, HSM, HMS.
  subst M. set (M := NRow s) in *. clearbody Stride. rename Stride into S.
  destruct (Z.eq_dec K1 K2) as [->|Hne]; [reflexivity|].
  rewrite !PCRSolver_final_cases by assumption.
  destruct (Z.ltb_spec (K1 + S) M) as [L1|L1];
    destruct (Z.ltb_spec (K2 + S) M) as [L2|L2];
    destruct (Z.leb_spec S K1) as [U1|U1];
    destruct (Z.leb_spec S K2) as [U2|U2];
    try (exfalso; lia); try reflexivity;
    cbv zeta; unfold setX; cbn [NRow DL D DU X];
    apply scratch_ext; cbn [NRow DL D DU X]; try reflexivity;
    intros i v; rewrite !rd_wr; split_eqb; reflexivity.
Qed.

Lemma PCRSolver_termination_any_order_witness :
  PCRSolver.final 5 (shl 0 1 (ceil_log2 5 - 1)) 0
    (PCRSolver.final 5 (shl 0 1 (ceil_log2 5 - 1)) 3 scenario5)
  = PCRSolver.final 5 (shl 0 1 (ceil_log2 5 - 1)) 3
      (PCRSolver.final 5 (shl 0 1 (ceil_log2 5 - 1)) 0 scenario5).
Proof.
  apply (PCRSolver_termination_any_order 0 scenario5 0 3); simpl; lia.
Defined.

Lemma PCRDiffusionSolver_final_cases (M S K : Z) (s : DS.t) :
  1 <= S -> S < M -> M <= 2 * S -> 0 <= K < M ->
  PD.final M S K s
  = if K + S <? M then
      let Dk := (rd (DS.H s) K 0 + 0 + rd (DS.G s) K 0)%R in
      let Dkps := (rd (DS.H s) (K + S) 0 + rd (DS.G s) K 0
                   + rd (DS.G s) (K + S) 0)%R in
      let DUk := (- rd (DS.G s) K 0)%R in
      let DLkps := (- rd (DS.G s) K 0)%R in
      let Det := (Dk * Dkps - DLkps * DUk)%R in
      DS.setX (DS.setX s K 0
                 ((Dkps * rd (DS.X s) K 0 - DUk * rd (DS.X s) (K + S) 0)
                  / Det)%R)
        (K + S) 0
        ((- DLkps * rd (DS.X s) K 0 + Dk * rd (DS.X s) (K + S) 0) / Det)%R
    else if S <=? K then s
    else DS.setX s K 0
           (rd (DS.X s) K 0 / (rd (DS.H s) K 0 + 0 + rd (DS.G s) K 0))%R.
Proof.
  intros HS HSM HMS HK. unfold PD.final.
  destruct (Z.ltb_spec (K + S) M) as [Hlo|Hnlo]; cbn [orb].
  - rewrite (half_lower M S K) by lia.
    replace (K - S <? 0) with true by lia. reflexivity.
  - destruct (Z.leb_spec S K) as [Hup|Hnup].
    + replace (K - S >=? 0) with true by lia.
      rewrite (half_upper M S K) by lia. reflexivity.
    + replace (K - S >=? 0) with false by lia.
      replace (K - S <? 0) with true by lia. reflexivity.
Qed.

(** X27.  The termination step of PCRDiffusionSolver needs no barrier either:
    any two members leave the same scratch in either order. *)
Theorem PCRDiffusionSolver_termination_any_order (ub : Z) (s : DS.t)
  (K1 K2 : Z) :
  2 <= DS.NRow s -> 0 <= K1 < DS.NRow s -> 0 <= K2 < DS.NRow s ->
  let M := DS.NRow s in
  let Stride := shl ub 1 (ceil_log2 M - 1) in
  PD.final M Stride K1 (PD.final M Stride K2 s)
  = PD.final M Stride K2 (PD.final M Stride K1 s).
Proof.
  intros HM H1 H2 M Stride.
  destruct (last_stride ub M HM) as (HS & HSM & HMS). fold Stride in HS, HSM, HMS.
  subst M. set (M := DS.NRow s) in *. clearbody Stride. rename Stride into S.
  destruct (Z.eq_dec K1 K2) as [->|Hne]; [reflexivity|].
  rewrite !PCRDiffusionSolver_final_cases by assumption.
  destruct (Z.ltb_spec (K1 + S) M) as [L1|L1];
    destruct (Z.ltb_spec (K2 + S) M) as [L2|L2];
    destruct (Z.leb_spec S K1) as [U1|U1];
    destruct (Z.leb_spec S K2) as [U2|U2];
    try (exfalso; lia); try reflexivity;
    cbv zeta; unfold DS.setX; cbn [DS.NRow DS.G DS.H DS.X DS.Alpha];
    apply dscratch_ext; cbn [DS.NRow DS.G DS.H DS.X DS.Alpha];
    try reflexivity;
    intros i v; rewrite !rd_wr; split_eqb; reflexivity.
Qed.

Lemma PCRDiffusionSolver_termination_any_order_witness :
  PD.final 5 (shl 0 1 (ceil_log2 5 - 1)) 0
    (PD.final 5 (shl 0 1 (ceil_log2 5 - 1)) 3 closed5)
  = PD.final 5 (shl 0 1 (ceil_log2 5 - 1)) 3
      (PD.final 5 (shl 0 1 (ceil_log2 5 - 1)) 0 closed5).
Proof.
  apply (PCRDiffusionSolver_termination_any_order 0 closed5 0 3); simpl; lia.
Defined.

(** ** The barriers never block the team *)

Section NoDeadlock.
Import TeamRounds.
Variables St Rg : Type.
Variables N L : Z.
Variable compute : Z -> Z -> St -> Rg.
Variable commit1 : Rg -> Z -> St -> St.
Variable s0 : St.
Variable r0 : Z -> Rg.

Let Reach := reachable N L compute commit1 s0 r0.

(** Where the members of a team can be: within the levels, and all in the
    reads of one level or all in its writes. *)
Lemma reachable_positions (T : Team St Rg) :
  Reach T ->
  (forall K, member N K -> 0 <= pos T K <= 4 * Z.max 0 (L - 1))
  /\ exists q, 0 <= q
       /\ ((forall K, member N K -> 4 * q - 1 <= pos T K <= 4 * q + 1)
           \/ (forall K, member N K -> 4 * q + 1 <= pos T K <= 4 * q + 3)).
Proof.
  unfold Reach. induction 1 as [|T T' HR (Hb & q0 & Hq0 & Hw) Hstep].
  - split; [intros; cbn [pos]; lia|].
    exists 0. split; [lia|]. left. intros; cbn [pos]; lia.
  - destruct Hstep as [K q HK Hq HL HP|K q HK HP Harr|K q HK HP
                      |K q HK HP Harr]; cbn [pos]; unfold set.
    + split.
      * intros K' HK'. destruct (Z.eqb_spec K' K); [lia|]. now apply Hb.
      * exists q0. split; [lia|].
        destruct Hw as [Hw|Hw]; pose proof (Hw K HK); [left|lia].
        intros K' HK'. destruct (Z.eqb_spec K' K); [lia|]. now apply Hw.
    + split.
      * intros K' HK'. pose proof (Hb K HK).
        destruct (Z.eqb_spec K' K); [lia|]. now apply Hb.
      * exists q0. split; [lia|]. right.
        destruct Hw as [Hw|Hw]; pose proof (Hw K HK);
          intros K' HK'; pose proof (Hw K' HK'); pose proof (Harr K' HK');
          destruct (Z.eqb_spec K' K); lia.
    + split.
      * intros K' HK'. pose proof (Hb K HK).
        destruct (Z.eqb_spec K' K); [lia|]. now apply Hb.
      * exists q0. split; [lia|].
        destruct Hw as [Hw|Hw]; pose proof (Hw K HK); [lia|right].
        intros K' HK'. destruct (Z.eqb_spec K' K); [lia|]. now apply Hw.
    + split.
      * intros K' HK'. pose proof (Hb K HK).
        destruct (Z.eqb_spec K' K); [lia|]. now apply Hb.
      * destruct Hw as [Hw|Hw]; pose proof (Hw K HK).
        -- exists q0. split; [lia|]. left.
           intros K' HK'. destruct (Z.eqb_spec K' K); [lia|]. now apply Hw.
        -- exists (q0 + 1). split; [lia|]. left.
           intros K' HK'. pose proof (Hw K' HK'). pose proof (Harr K' HK').
           destruct (Z.eqb_spec K' K); lia.
Qed.

(** Some member is at position [p], or none is. *)
Lemma member_at (T : Team St Rg) (p : Z) :
  (exists K, member N K /\ pos T K = p)
  \/ (forall K, member N K -> pos T K <> p).
Proof.
  unfold member.
  assert (H : forall n, 0 <= n ->
            (exists K, 0 <= K < n /\ pos T K = p)
            \/ (forall K, 0 <= K < n -> pos T K <> p)).
  { intros n Hn. pattern n. apply row_ind; [| |exact Hn].
    - right. intros K HK. lia.
    - clear n Hn. intros n Hn [(K & HK & HP)|Hnone].
      + left. exists K. split; [lia|exact HP].
      + destruct (Z.eq_dec (pos T n) p) as [E|E].
        * left. exists n. split; [lia|exact E].
        * right. intros K HK. destruct (Z.eq_dec K n) as [->|Hne];
            [exact E|apply Hnone; lia]. }
  destruct (Z_le_gt_dec 0 N) as [HN|HN]; [apply H, HN|].
  right. intros K HK. lia.
Qed.

(** A team that has not finished can take a step. *)
Lemma team_progress (T : Team St Rg) :
  1 <= N -> Reach T ->
  team_finished N L T \/ exists T', step N L compute commit1 T T'.
Proof.
  intros HN HR. destruct (reachable_positions T HR) as (Hb & q0 & Hq0 & Hw).
  assert (H0 : member N 0) by (unfold member; lia).
  destruct Hw as [Hw|Hw].
  - destruct (member_at T (4 * q0 - 1)) as [(K & HK & HP)|Hn1].
    { right. eexists. apply (step_barrier2 _ _ _ _ _ _ _ K (q0 - 1) HK); [lia|].
      intros K' HK'. pose proof (Hw K' HK'). lia. }
    destruct (member_at T (4 * q0)) as [(K & HK & HP)|Hn0].
    { destruct (Z_lt_ge_dec (q0 + 1) L) as [HL|HL].
      - right. eexists. exact (step_read _ _ _ _ _ _ _ K q0 HK Hq0 HL HP).
      - left. intros K' HK'. pose proof (Hb K HK). pose proof (Hb K' HK').
        pose proof (Hw K' HK'). pose proof (Hn1 K' HK'). lia. }
    right. eexists. apply (step_barrier1 _ _ _ _ _ _ _ 0 q0 H0).
    + pose proof (Hw 0 H0). pose proof (Hn1 0 H0). pose proof (Hn0 0 H0). lia.
    + intros K' HK'. pose proof (Hw K' HK'). pose proof (Hn1 K' HK').
      pose proof (Hn0 K' HK'). lia.
  - destruct (member_at T (4 * q0 + 1)) as [(K & HK & HP)|Hn1].
    { right. eexists. apply (step_barrier1 _ _ _ _ _ _ _ K q0 HK HP).
      intros K' HK'. pose proof (Hw K' HK'). lia. }
    destruct (member_at T (4 * q0 + 2)) as [(K & HK & HP)|Hn2].
    { right. eexists. exact (step_write _ _ _ _ _ _ _ K q0 HK HP). }
    right. eexists. apply (step_barrier2 _ _ _ _ _ _ _ 0 q0 H0).
    + pose proof (Hw 0 H0). pose proof (Hn1 0 H0). pose proof (Hn2 0 H0). lia.
    + intros K' HK'. pose proof (Hw K' HK'). pose proof (Hn1 K' HK').
      pose proof (Hn2 K' HK'). lia.
Qed.
End NoDeadlock.

(** X28.  The barriers never block a team of the row-parallel solvers.  The
    number of levels depends on [NRow] alone, not on the rank of the member,
    so every member calls [team_barrier] the same number of times: in every
    state the team can reach, whatever the interleaving, either all members
    have run their levels or some member can take its next step. *)
Theorem teams_never_deadlock (ub : Z) (s0 : t) (sd0 : DS.t)
  (r0 : Z -> PCRSolver.Regs) (rd0 : Z -> PD.Regs)
  (T : TeamRounds.Team t PCRSolver.Regs)
  (Td : TeamRounds.Team DS.t PD.Regs) :
  (1 <= NRow s0 ->
   TeamRounds.reachable (NRow s0) (ceil_log2 (NRow s0))
     (PCRSolver.reduce ub (NRow s0)) PCRSolver_commit1 s0 r0 T ->
   team_finished (NRow s0) (ceil_log2 (NRow s0)) T
   \/ exists T',
        TeamRounds.step (NRow s0) (ceil_log2 (NRow s0))
          (PCRSolver.reduce ub (NRow s0)) PCRSolver_commit1 T T')
  /\ (1 <= DS.NRow sd0 ->
      TeamRounds.reachable (DS.NRow sd0) (ceil_log2 (DS.NRow sd0))
        (PD.reduce ub (DS.NRow sd0)) PCRDiffusionSolver_commit1 sd0 rd0 Td ->
      team_finished (DS.NRow sd0) (ceil_log2 (DS.NRow sd0)) Td
      \/ exists Td',
           TeamRounds.step (DS.NRow sd0) (ceil_log2 (DS.NRow sd0))
             (PD.reduce ub (DS.NRow sd0)) PCRDiffusionSolver_commit1 Td Td').
Proof.
  split; intros HN HR.
  - exact (team_progress _ _ _ _ _ _ s0 r0 T HN HR).
  - exact (team_progress _ _ _ _ _ _ sd0 rd0 Td HN HR).
Qed.

Lemma teams_never_deadlock_witness :
  (team_finished 5 (ceil_log2 5) team5
   \/ exists T',
        TeamRounds.step 5 (ceil_log2 5) (PCRSolver.reduce 0 5)
          PCRSolver_commit1 team5 T')
  /\ (team_finished 5 (ceil_log2 5) dteam5
      \/ exists Td',
           TeamRounds.step 5 (ceil_log2 5) (PD.reduce 0 5)
             PCRDiffusionSolver_commit1 dteam5 Td').
Proof.
  destruct (teams_never_deadlock 0 scenario5 closed5
              (fun _ => PCRSolver.mkRegs 0 0 0 0) (fun _ => PD.mkRegs 0 0 0)
              team5 dteam5) as (H1 & H2).
  split.
  - apply H1; [simpl; lia|exact team5_reachable].
  - apply H2; [simpl; lia|exact dteam5_reachable].
Defined.
